(** * Cyber-Attack-detector: the graph store and the detection engine

    A shallow embedding of [backend/models/graph.py],
    [backend/algorithms/detection.py] and [backend/algorithms/simulation.py],
    with the threshold update of [backend/main.py].

    - Python exceptions are values of an error monad ([Py.result]).
    - A Python [dict] is an association list in insertion order, since the
      detectors iterate over [graph.nodes()] and the order of the alerts
      they emit is observable.
    - [networkx.DiGraph] is modelled by its three dictionaries [_node],
      [_succ] and [_pred], with the update discipline of the library.
    - Python computes confidences in binary64.  The model keeps the exact
      rational ([Q]): rounding to nearest is monotone and leaves 0 and 1
      fixed, so bounds and order statements read the same on both sides. *)

From Stdlib Require Import List String ZArith QArith Qminmax Lia Bool.
From Stdlib Require Import Permutation Sorted DecimalString DecimalZ.
Import ListNotations.

Set Implicit Arguments.

(** ** Python primitives *)

Module Py.

(** The exceptions that the modelled code can raise.  [LoopBudget] is not a
    Python exception: the [while] loop of the breadth-first search carries
    an iteration budget in the model, and [bfs_budget_enough] below shows
    that it is never exhausted on a state of the store. *)
Inductive exn : Set :=
| KeyError
| TypeError
| NetworkXError
| ZeroDivisionError
| LoopBudget.

Inductive result (A : Type) : Type :=
| Ok (a : A)
| Raise (e : exn).

Arguments Ok {A} a.
Arguments Raise {A} e.

Definition bind {A B} (c : result A) (k : A -> result B) : result B :=
  match c with
  | Ok a => k a
  | Raise e => Raise e
  end.

Definition is_ok {A} (c : result A) : bool :=
  match c with Ok _ => true | Raise _ => false end.

(** Keys of a dictionary: a type with a boolean equality that decides
    Leibniz equality (Python's [__hash__]/[__eq__] on [str] and on tuples
    of [str]). *)
Class Hashable (K : Type) := {
  key_eqb : K -> K -> bool;
  key_eqb_spec : forall a b, reflect (a = b) (key_eqb a b)
}.

#[export] Instance Hashable_str : Hashable string :=
  {| key_eqb := String.eqb; key_eqb_spec := String.eqb_spec |}.

#[export] Instance Hashable_pair {A B} `{Hashable A} `{Hashable B} :
  Hashable (A * B).
Proof.
  refine {| key_eqb := fun p q =>
              key_eqb (fst p) (fst q) && key_eqb (snd p) (snd q) |}.
  intros [a b] [a' b']; simpl.
  destruct (key_eqb_spec a a'), (key_eqb_spec b b'); simpl;
    constructor; congruence.
Defined.

(** [x in l] on a list or a set of keys. *)
Fixpoint mem {K} `{Hashable K} (k : K) (l : list K) : bool :=
  match l with
  | [] => false
  | x :: l' => key_eqb k x || mem k l'
  end.

Section Dict.
Context {K V : Type} `{Hashable K}.

Definition dict := list (K * V).

Definition keys (d : dict) : list K := map fst d.
Definition values (d : dict) : list V := map snd d.

(** [d.get(k)] *)
Fixpoint get (k : K) (d : dict) : option V :=
  match d with
  | [] => None
  | (k', v) :: d' => if key_eqb k k' then Some v else get k d'
  end.

(** [k in d] *)
Definition contains (k : K) (d : dict) : bool := mem k (keys d).

(** [d[k]], raising [KeyError] on a missing key. *)
Definition getitem (k : K) (d : dict) : result V :=
  match get k d with
  | Some v => Ok v
  | None => Raise KeyError
  end.

(** [d[k] = v]: an existing key keeps its position, a new key goes last. *)
Fixpoint setitem (k : K) (v : V) (d : dict) : dict :=
  match d with
  | [] => [(k, v)]
  | (k', v') :: d' =>
      if key_eqb k k' then (k', v) :: d' else (k', v') :: setitem k v d'
  end.

(** The dictionary without the key [k]. *)
Fixpoint remove (k : K) (d : dict) : dict :=
  match d with
  | [] => []
  | (k', v') :: d' =>
      if key_eqb k k' then remove k d' else (k', v') :: remove k d'
  end.

(** [del d[k]], raising [KeyError] on a missing key. *)
Definition delitem (k : K) (d : dict) : result dict :=
  if contains k d then Ok (remove k d) else Raise KeyError.

End Dict.

Arguments dict : clear implicits.

(** [min(a, b)] on two numbers: the first argument unless the second is
    strictly smaller. *)
Definition py_min (a b : Q) : Q :=
  if Qle_bool a b then a else b.

(** [a / b] on two [int]s: true division, [ZeroDivisionError] on [b = 0]. *)
Definition py_truediv (a b : Z) : result Q :=
  if (b =? 0)%Z then Raise ZeroDivisionError
  else Ok (inject_Z a / inject_Z b)%Q.

(** [str(n)] for an [int]. *)
Definition py_str (n : Z) : string :=
  NilEmpty.string_of_int (Z.to_int n).

(** [for x in xs: body], threading the loop state and stopping at the first
    exception. *)
Fixpoint for_each {A S} (xs : list A) (body : A -> S -> result S) (s : S)
  : result S :=
  match xs with
  | [] => Ok s
  | x :: xs' => bind (body x s) (for_each xs' body)
  end.

(** [[x for x in xs if test(x)]] with a test that may raise. *)
Fixpoint comprehension {A} (test : A -> result bool) (xs : list A)
  : result (list A) :=
  match xs with
  | [] => Ok []
  | x :: xs' =>
      bind (test x) (fun b =>
      bind (comprehension test xs') (fun r =>
      Ok (if b then x :: r else r)))
  end.

End Py.

Import Py.

Declare Scope py_scope.
Delimit Scope py_scope with py.
Notation "'let*' x ':=' c 'in' k" := (Py.bind c (fun x => k))
  (at level 10, x pattern, c at level 100, k at level 200) : py_scope.
Open Scope py_scope.
Open Scope string_scope.
Open Scope Z_scope.

(** ** networkx.DiGraph

    The library keeps three dictionaries: the node attributes [_node], the
    successor adjacency [_succ] and the predecessor adjacency [_pred]; the
    inner dictionaries map a neighbour to the edge attributes.  No detector
    reads an attribute, so the attribute values are [tt]. *)

Module nx.

Definition adjacency := dict string (dict string unit).

Record DiGraph : Type := {
  _node : dict string unit;
  _succ : adjacency;
  _pred : adjacency
}.

(** [nx.DiGraph()] *)
Definition empty : DiGraph := {| _node := []; _succ := []; _pred := [] |}.

(** The common prologue of [add_node] and [add_edge]: a node that is not
    yet a key of [_succ] gets an empty entry in all three dictionaries. *)
Definition ensure_node (n : string) (G : DiGraph) : DiGraph :=
  if contains n (_succ G) then G
  else {| _node := setitem n tt (_node G);
          _succ := setitem n [] (_succ G);
          _pred := setitem n [] (_pred G) |}.

(** [G.add_node(n, **attr)]; on a known node the attributes are updated
    through [self._node[n]]. *)
Definition add_node (n : string) (G : DiGraph) : result DiGraph :=
  if contains n (_succ G) then
    let* _ := getitem n (_node G) in Ok G
  else Ok (ensure_node n G).

(** [G.add_edge(u, v, **attr)] *)
Definition add_edge (u v : string) (G : DiGraph) : result DiGraph :=
  let G1 := ensure_node u G in
  let G2 := ensure_node v G1 in
  let* su := getitem u (_succ G2) in
  let succ' := setitem u (setitem v tt su) (_succ G2) in
  let* pv := getitem v (_pred G2) in
  let pred' := setitem v (setitem u tt pv) (_pred G2) in
  Ok {| _node := _node G2; _succ := succ'; _pred := pred' |}.

(** [for u in us: del adj[u][n]] *)
Fixpoint del_from_each (n : string) (us : list string) (adj : adjacency)
  : result adjacency :=
  match us with
  | [] => Ok adj
  | u :: us' =>
      let* au := getitem u adj in
      let* au' := delitem n au in
      del_from_each n us' (setitem u au' adj)
  end.

(** [G.remove_node(n)] *)
Definition remove_node (n : string) (G : DiGraph) : result DiGraph :=
  match get n (_succ G) with
  | Some nbrs =>
      if contains n (_node G) then
        let node' := remove n (_node G) in
        let* pred1 := del_from_each n (keys nbrs) (_pred G) in
        let succ1 := remove n (_succ G) in
        let* pn := getitem n pred1 in
        let* succ2 := del_from_each n (keys pn) succ1 in
        let* pred2 := delitem n pred1 in
        Ok {| _node := node'; _succ := succ2; _pred := pred2 |}
      else Raise NetworkXError
  | None => Raise NetworkXError
  end.

(** [G.remove_edge(u, v)]: any [KeyError] becomes a [NetworkXError]. *)
Definition remove_edge (u v : string) (G : DiGraph) : result DiGraph :=
  match get u (_succ G) with
  | Some su =>
      if contains v su then
        let succ' := setitem u (remove v su) (_succ G) in
        match get v (_pred G) with
        | Some pv =>
            if contains u pv then
              Ok {| _node := _node G;
                    _succ := succ';
                    _pred := setitem v (remove u pv) (_pred G) |}
            else Raise NetworkXError
        | None => Raise NetworkXError
        end
      else Raise NetworkXError
  | None => Raise NetworkXError
  end.

(** [G.nodes()] *)
Definition nodes (G : DiGraph) : list string := keys (_node G).

(** [G.in_degree(n)].  For [n] outside the graph the library hands back a
    degree view instead of an [int], and every comparison of it with a
    threshold raises [TypeError]; the model raises at once. *)
Definition in_degree (n : string) (G : DiGraph) : result Z :=
  if contains n (_node G) then
    let* p := getitem n (_pred G) in Ok (Z.of_nat (List.length p))
  else Raise TypeError.

(** [G.out_degree(n)] *)
Definition out_degree (n : string) (G : DiGraph) : result Z :=
  if contains n (_node G) then
    let* s := getitem n (_succ G) in Ok (Z.of_nat (List.length s))
  else Raise TypeError.

(** [G.neighbors(n)]: the successors, in insertion order. *)
Definition neighbors (n : string) (G : DiGraph) : result (list string) :=
  match get n (_succ G) with
  | Some s => Ok (keys s)
  | None => Raise NetworkXError
  end.

(** [G.predecessors(n)] *)
Definition predecessors (n : string) (G : DiGraph) : result (list string) :=
  match get n (_pred G) with
  | Some p => Ok (keys p)
  | None => Raise NetworkXError
  end.

(** [G.number_of_nodes()] and [G.number_of_edges()] *)
Definition number_of_nodes (G : DiGraph) : Z :=
  Z.of_nat (List.length (_node G)).

Definition number_of_edges (G : DiGraph) : Z :=
  fold_right (fun e acc => Z.of_nat (List.length (snd e)) + acc) 0 (_succ G).

(** Modelled from the spec: [networkx.simple_cycles] is library code that
    is not part of the repository.  The enumerator below follows the
    contract of [enumerateSimpleCycles] in the specification: every
    elementary directed cycle is produced once, no node repeats within a
    cycle, and a self-loop is a cycle of length 1.  Each cycle is rooted at
    its earliest node in the node order of the graph and is found by a
    depth-first search through later nodes only. *)
Definition successors (n : string) (G : DiGraph) : list string :=
  match get n (_succ G) with
  | Some s => keys s
  | None => []
  end.

Fixpoint cycles_through (depth : nat) (G : DiGraph) (root : string)
    (later path : list string) (current : string) : list (list string) :=
  match depth with
  | O => []
  | S depth' =>
      flat_map (fun w =>
        if key_eqb w root then [rev path]
        else if mem w later && negb (mem w path)
             then cycles_through depth' G root later (w :: path) w
             else [])
        (successors current G)
  end.

Fixpoint cycles_from (G : DiGraph) (order : list string)
  : list (list string) :=
  match order with
  | [] => []
  | root :: later =>
      cycles_through (S (List.length later)) G root later [root] root
        ++ cycles_from G later
  end.

Definition simple_cycles (G : DiGraph) : list (list string) :=
  cycles_from G (nodes G).

End nx.

Open Scope list_scope.

(** ** models/graph.py *)

Inductive AttackType : Set := DDOS | BOTNET | PORT_SCAN | WORM | C2.

(** [AttackType.<member>.value] *)
Definition AttackType_value (t : AttackType) : string :=
  match t with
  | DDOS => "ddos"
  | BOTNET => "botnet"
  | PORT_SCAN => "port_scan"
  | WORM => "worm"
  | C2 => "c2"
  end.

Module NetworkNode.
Record t : Type := mk {
  id : string;
  ip : string;
  node_type : string;
  metadata : dict string string
}.
End NetworkNode.

Module NetworkEdge.
Record t : Type := mk {
  source : string;
  target : string;
  weight : Q;
  protocol : string;
  port : Z;
  timestamp : Q;
  metadata : dict string string
}.
End NetworkEdge.

(** The severity of an alert is one of the three string literals that are
    the keys of [severity_order] in [detect_all_attacks]. *)
Inductive Severity : Set := high | medium | low.

Definition Severity_value (s : Severity) : string :=
  match s with
  | high => "high"
  | medium => "medium"
  | low => "low"
  end.

Record AttackAlert : Type := {
  attack_type : AttackType;
  source_nodes : list string;
  target_nodes : list string;
  confidence : Q;
  timestamp : Q;
  description : string;
  severity : Severity
}.

(** The dictionary [attack_thresholds]: its five keys are fixed, its values
    are overwritten from outside ([PUT /api/thresholds]). *)
Record Thresholds : Set := {
  ddos_indegree : Z;
  port_scan_outdegree : Z;
  worm_reachability : Z;
  c2_indegree_min : Z;
  c2_outdegree_max : Z
}.

Record NetworkGraph : Type := {
  graph : nx.DiGraph;
  nodes : dict string NetworkNode.t;
  edges : dict (string * string) NetworkEdge.t;
  attack_thresholds : Thresholds
}.

(** [NetworkGraph.__init__] *)
Definition NetworkGraph_init : NetworkGraph :=
  {| graph := nx.empty;
     nodes := [];
     edges := [];
     attack_thresholds :=
       {| ddos_indegree := 50;
          port_scan_outdegree := 30;
          worm_reachability := 100;
          c2_indegree_min := 10;
          c2_outdegree_max := 5 |} |}.

Definition add_node (self : NetworkGraph) (node : NetworkNode.t)
  : result NetworkGraph :=
  let nodes' := setitem (NetworkNode.id node) node (nodes self) in
  let* graph' := nx.add_node (NetworkNode.id node) (graph self) in
  Ok {| graph := graph'; nodes := nodes'; edges := edges self;
        attack_thresholds := attack_thresholds self |}.

Definition add_edge (self : NetworkGraph) (edge : NetworkEdge.t)
  : result NetworkGraph :=
  let edge_key := (NetworkEdge.source edge, NetworkEdge.target edge) in
  let edges' := setitem edge_key edge (edges self) in
  let* graph' :=
    nx.add_edge (NetworkEdge.source edge) (NetworkEdge.target edge)
                (graph self) in
  Ok {| graph := graph'; nodes := nodes self; edges := edges';
        attack_thresholds := attack_thresholds self |}.

Definition remove_node (self : NetworkGraph) (node_id : string)
  : result NetworkGraph :=
  if contains node_id (nodes self) then
    let nodes' := remove node_id (nodes self) in
    let* graph' := nx.remove_node node_id (graph self) in
    Ok {| graph := graph'; nodes := nodes'; edges := edges self;
          attack_thresholds := attack_thresholds self |}
  else Ok self.

Definition remove_edge (self : NetworkGraph) (source target : string)
  : result NetworkGraph :=
  let edge_key := (source, target) in
  if contains edge_key (edges self) then
    let edges' := remove edge_key (edges self) in
    let* graph' := nx.remove_edge source target (graph self) in
    Ok {| graph := graph'; nodes := nodes self; edges := edges';
          attack_thresholds := attack_thresholds self |}
  else Ok self.

Definition get_indegree (self : NetworkGraph) (node_id : string) : result Z :=
  nx.in_degree node_id (graph self).

Definition get_outdegree (self : NetworkGraph) (node_id : string) : result Z :=
  nx.out_degree node_id (graph self).

Definition get_neighbors (self : NetworkGraph) (node_id : string)
  : result (list string) :=
  nx.neighbors node_id (graph self).

Definition get_predecessors (self : NetworkGraph) (node_id : string)
  : result (list string) :=
  nx.predecessors node_id (graph self).

(** The two integer entries of [get_graph_stats]; density, connectivity and
    clustering are floating-point summaries that no claim refers to. *)
Record GraphStats : Set := {
  node_count : Z;
  edge_count : Z
}.

Definition get_graph_stats (self : NetworkGraph) : GraphStats :=
  {| node_count := nx.number_of_nodes (graph self);
     edge_count := nx.number_of_edges (graph self) |}.

Record GraphDict : Type := {
  dict_nodes : list NetworkNode.t;
  dict_edges : list NetworkEdge.t;
  dict_stats : GraphStats
}.

Definition to_dict (self : NetworkGraph) : GraphDict :=
  {| dict_nodes := values (nodes self);
     dict_edges := values (edges self);
     dict_stats := get_graph_stats self |}.

(** The thresholds are assigned in place by the transport layer. *)
Definition set_thresholds (self : NetworkGraph) (t : Thresholds)
  : NetworkGraph :=
  {| graph := graph self; nodes := nodes self; edges := edges self;
     attack_thresholds := t |}.

(** ** algorithms/detection.py *)

(** [AttackDetector]: [self_graph] is the store the detector was built on
    (the same object the transport layer mutates), as it is at the time of
    the call. *)
Record AttackDetector : Type := {
  self_graph : NetworkGraph;
  detection_history : list AttackAlert
}.

Definition AttackDetector_init (network_graph : NetworkGraph)
  : AttackDetector :=
  {| self_graph := network_graph; detection_history := [] |}.

Definition detect_ddos_attack (self : NetworkGraph) (threshold : option Z)
  : result (list AttackAlert) :=
  let threshold :=
    match threshold with
    | None => ddos_indegree (attack_thresholds self)
    | Some t => t
    end in
  for_each (nx.nodes (graph self)) (fun node_id alerts =>
    let* indegree := get_indegree self node_id in
    if indegree >? threshold then
      let* source_nodes := get_predecessors self node_id in
      let* ratio := py_truediv indegree (threshold * 2) in
      let alert :=
        {| attack_type := DDOS;
           source_nodes := source_nodes;
           target_nodes := [node_id];
           confidence := py_min 1 ratio;
           timestamp := 0;
           description :=
             ("DDoS attack detected: " ++ py_str indegree ++
              " incoming connections to " ++ node_id)%string;
           severity := if indegree >? threshold * 2 then high else medium |} in
      Ok (alerts ++ [alert])
    else Ok alerts) [].

(** [nx.simple_cycles] raises no [NetworkXError] on a [DiGraph], so the
    [except] branch is never taken. *)
Definition detect_botnet_attack (self : NetworkGraph)
  : result (list AttackAlert) :=
  let cycles := nx.simple_cycles (graph self) in
  for_each cycles (fun cycle alerts =>
    let len := Z.of_nat (List.length cycle) in
    if len >=? 3 then
      let alert :=
        {| attack_type := BOTNET;
           source_nodes := cycle;
           target_nodes := cycle;
           confidence := py_min 1 (inject_Z len / 10);
           timestamp := 0;
           description :=
             ("Botnet communication cycle detected: " ++ py_str len ++
              " nodes in loop")%string;
           severity := if len >=? 5 then high else medium |} in
      Ok (alerts ++ [alert])
    else Ok alerts) [].

Definition detect_port_scan_attack (self : NetworkGraph) (threshold : option Z)
  : result (list AttackAlert) :=
  let threshold :=
    match threshold with
    | None => port_scan_outdegree (attack_thresholds self)
    | Some t => t
    end in
  for_each (nx.nodes (graph self)) (fun node_id alerts =>
    let* outdegree := get_outdegree self node_id in
    if outdegree >? threshold then
      let* target_nodes := get_neighbors self node_id in
      let* ratio := py_truediv outdegree (threshold * 2) in
      let alert :=
        {| attack_type := PORT_SCAN;
           source_nodes := [node_id];
           target_nodes := target_nodes;
           confidence := py_min 1 ratio;
           timestamp := 0;
           description :=
             ("Port scan detected: " ++ py_str outdegree ++
              " connection attempts from " ++ node_id)%string;
           severity := medium |} in
      Ok (alerts ++ [alert])
    else Ok alerts) [].

(** The inner [for neighbor in ...] loop of the search: an unvisited
    neighbour is marked and queued. *)
Fixpoint bfs_expand (neighbors visited queue : list string)
  : list string * list string :=
  match neighbors with
  | [] => (visited, queue)
  | neighbor :: rest =>
      if mem neighbor visited then bfs_expand rest visited queue
      else bfs_expand rest (visited ++ [neighbor]) (queue ++ [neighbor])
  end.

(** [while queue: ...], with an iteration budget. *)
Fixpoint bfs_while (budget : nat) (self : NetworkGraph)
                   (visited queue : list string) {struct budget}
  : result (list string) :=
  match queue with
  | [] => Ok visited
  | current :: queue' =>
      match budget with
      | O => Raise LoopBudget
      | S budget' =>
          let* neighbors := get_neighbors self current in
          let (visited', queue'') := bfs_expand neighbors visited queue' in
          bfs_while budget' self visited' queue''
      end
  end.

(** [_bfs_reachable]: [visited] is a Python [set]; the model lists it in
    the order in which the nodes were marked, where [list(visited)] uses
    the iteration order of the set (a permutation of it that depends on the
    string hashes).  Only its length and its members carry over to the
    code, and the theorems below state nothing else of it. *)
Definition _bfs_reachable (self : NetworkGraph) (start_node : string)
  : result (list string) :=
  bfs_while (List.length (nx.nodes (graph self))) self
            [start_node] [start_node].

Definition detect_worm_propagation (self : NetworkGraph)
    (start_node : option string) (threshold : option Z)
  : result (list AttackAlert) :=
  let threshold :=
    match threshold with
    | None => worm_reachability (attack_thresholds self)
    | Some t => t
    end in
  (* [[start_node] if start_node else [...]]: [None] and the empty string
     are both false. *)
  let* candidates :=
    match start_node with
    | Some (String _ _ as s) => Ok [s]
    | _ =>
        comprehension
          (fun node => let* d := get_outdegree self node in Ok (d >? 5))
          (nx.nodes (graph self))
    end in
  for_each candidates (fun candidate alerts =>
    if negb (mem candidate (nx.nodes (graph self))) then Ok alerts
    else
      let* reachable_nodes := _bfs_reachable self candidate in
      let size := Z.of_nat (List.length reachable_nodes) in
      if size >? threshold then
        let* ratio := py_truediv size (threshold * 2) in
        let alert :=
          {| attack_type := WORM;
             source_nodes := [candidate];
             target_nodes := reachable_nodes;
             confidence := py_min 1 ratio;
             timestamp := 0;
             description :=
               ("Worm propagation detected: " ++ py_str size ++
                " nodes reachable from " ++ candidate)%string;
             severity := if size >? threshold * 2 then high else medium |} in
        Ok (alerts ++ [alert])
      else Ok alerts) [].

Definition detect_c2_attack (self : NetworkGraph)
  : result (list AttackAlert) :=
  for_each (nx.nodes (graph self)) (fun node_id alerts =>
    let* indegree := get_indegree self node_id in
    let* outdegree := get_outdegree self node_id in
    let min_indegree := c2_indegree_min (attack_thresholds self) in
    let max_outdegree := c2_outdegree_max (attack_thresholds self) in
    if (indegree >=? min_indegree) && (outdegree <=? max_outdegree) then
      let* infected_nodes := get_predecessors self node_id in
      let* ratio := py_truediv indegree (min_indegree * 2) in
      let alert :=
        {| attack_type := C2;
           source_nodes := infected_nodes;
           target_nodes := [node_id];
           confidence := py_min 1 ratio;
           timestamp := 0;
           description :=
             ("C2 server detected: " ++ py_str indegree ++
              " infected nodes reporting to " ++ node_id)%string;
           severity := if indegree >? min_indegree * 3 then high else medium |} in
      Ok (alerts ++ [alert])
    else Ok alerts) [].

(** The sort key [(severity_order[x.severity], x.confidence)] and the
    comparison of two such tuples. *)
Definition severity_order (s : Severity) : Z :=
  match s with
  | high => 3
  | medium => 2
  | low => 1
  end.

Definition sort_key (x : AttackAlert) : Z * Q :=
  (severity_order (severity x), confidence x).

Definition key_ltb (k1 k2 : Z * Q) : bool :=
  (fst k1 <? fst k2) ||
  ((fst k1 =? fst k2) && negb (Qle_bool (snd k2) (snd k1))).

(** [list.sort(key=..., reverse=True)].  Python's sort is stable, also under
    [reverse=True]: elements with equal keys keep their original order.
    There is one list with that property, and the insertion sort below
    computes it. *)
Fixpoint insert_reverse (x : AttackAlert) (l : list AttackAlert)
  : list AttackAlert :=
  match l with
  | [] => [x]
  | y :: l' =>
      if key_ltb (sort_key x) (sort_key y) then y :: insert_reverse x l'
      else x :: y :: l'
  end.

Definition sort_reverse (l : list AttackAlert) : list AttackAlert :=
  fold_right insert_reverse [] l.

Definition detect_all_attacks (self : AttackDetector)
  : result (list AttackAlert * AttackDetector) :=
  let g := self_graph self in
  let all_alerts := [] in
  let* r := detect_ddos_attack g None in
  let all_alerts := all_alerts ++ r in
  let* r := detect_botnet_attack g in
  let all_alerts := all_alerts ++ r in
  let* r := detect_port_scan_attack g None in
  let all_alerts := all_alerts ++ r in
  let* r := detect_worm_propagation g None None in
  let all_alerts := all_alerts ++ r in
  let* r := detect_c2_attack g in
  let all_alerts := all_alerts ++ r in
  let all_alerts := sort_reverse all_alerts in
  Ok (all_alerts,
      {| self_graph := g;
         detection_history := detection_history self ++ all_alerts |}).

(** [counts[k] += 1] on a [defaultdict(int)] *)
Definition increment (k : string) (counts : dict string Z) : dict string Z :=
  setitem k (match get k counts with Some n => n | None => 0 end + 1) counts.

Record Statistics : Type := {
  total_attacks : Z;
  attack_types : dict string Z;
  severity_distribution : dict string Z;
  high_confidence_attacks : Z
}.

Fixpoint count_alerts (history : list AttackAlert)
    (attack_counts severity_counts : dict string Z)
  : dict string Z * dict string Z :=
  match history with
  | [] => (attack_counts, severity_counts)
  | alert :: rest =>
      count_alerts rest
        (increment (AttackType_value (attack_type alert)) attack_counts)
        (increment (Severity_value (severity alert)) severity_counts)
  end.

(** [get_attack_statistics]: [None] is the empty dictionary [{}] returned
    on an empty history. *)
Definition get_attack_statistics (self : AttackDetector)
  : option Statistics :=
  match detection_history self with
  | [] => None
  | _ :: _ =>
      let (attack_counts, severity_counts) :=
        count_alerts (detection_history self) [] [] in
      Some
        {| total_attacks := Z.of_nat (List.length (detection_history self));
           attack_types := attack_counts;
           severity_distribution := severity_counts;
           high_confidence_attacks :=
             Z.of_nat (List.length
               (filter (fun alert => negb (Qle_bool (confidence alert) (8 # 10)))
                       (detection_history self))) |}
  end.

(** [G.has_edge(u, v)], and the same question asked of the predecessor
    dictionary. *)
Definition has_edge (u v : string) (G : nx.DiGraph) : bool :=
  match get u (nx._succ G) with
  | Some s => contains v s
  | None => false
  end.

Definition has_pred_edge (u v : string) (G : nx.DiGraph) : bool :=
  match get v (nx._pred G) with
  | Some p => contains u p
  | None => false
  end.

(** ** Invariants of the store *)

(** The representation invariant of a [DiGraph]: the three dictionaries
    have the same keys in the same order, no key is repeated, and the two
    adjacency dictionaries describe the same edges. *)
Record digraph_inv (G : nx.DiGraph) : Prop := {
  inv_nodup : NoDup (nx.nodes G);
  inv_succ_keys : keys (nx._succ G) = nx.nodes G;
  inv_pred_keys : keys (nx._pred G) = nx.nodes G;
  inv_succ_nodup : forall u s, get u (nx._succ G) = Some s -> NoDup (keys s);
  inv_pred_nodup : forall u p, get u (nx._pred G) = Some p -> NoDup (keys p);
  inv_sym : forall u v, has_edge u v G = has_pred_edge u v G
}.

(** The invariant of the store: every node record is a node of the graph. *)
Record graph_inv (g : NetworkGraph) : Prop := {
  inv_graph : digraph_inv (graph g);
  inv_records : forall n, contains n (nodes g) = true ->
                          In n (nx.nodes (graph g))
}.

(** The states of the store: what the public operations build from the
    empty graph. *)
Inductive reachable : NetworkGraph -> Prop :=
| reach_init : reachable NetworkGraph_init
| reach_add_node g node g' :
    reachable g -> add_node g node = Ok g' -> reachable g'
| reach_add_edge g edge g' :
    reachable g -> add_edge g edge = Ok g' -> reachable g'
| reach_remove_node g node_id g' :
    reachable g -> remove_node g node_id = Ok g' -> reachable g'
| reach_remove_edge g source target g' :
    reachable g -> remove_edge g source target = Ok g' -> reachable g'
| reach_set_thresholds g t :
    reachable g -> reachable (set_thresholds g t).

(** ** The vocabulary of the specification

    Total readings of the adjacency dictionaries, used to state what the
    detectors compute: the predecessor and successor sets of a node and
    their sizes. *)

Definition predecessor_set (g : NetworkGraph) (n : string) : list string :=
  match get n (nx._pred (graph g)) with
  | Some p => keys p
  | None => []
  end.

Definition successor_set (g : NetworkGraph) (n : string) : list string :=
  nx.successors n (graph g).

Definition indegree (g : NetworkGraph) (n : string) : Z :=
  Z.of_nat (List.length (predecessor_set g n)).

Definition outdegree (g : NetworkGraph) (n : string) : Z :=
  Z.of_nat (List.length (successor_set g n)).

(** [threshold] if it was passed, else the configured default. *)
Definition threshold_or (threshold : option Z) (default : Z) : Z :=
  match threshold with
  | None => default
  | Some t => t
  end.

(** min(1, metric / (2 * threshold)) *)
Definition clamped_ratio (metric threshold : Z) : Q :=
  Qmin 1 (inject_Z metric / inject_Z (2 * threshold)).

(** What the specification says of a DDoS alert on node [n]. *)
Record ddos_alert_for (g : NetworkGraph) (T : Z) (n : string)
       (a : AttackAlert) : Prop := {
  ddos_kind : attack_type a = DDOS;
  ddos_sources : source_nodes a = predecessor_set g n;
  ddos_target : target_nodes a = [n];
  ddos_confidence : confidence a == clamped_ratio (indegree g n) T;
  ddos_severity :
    severity a = if 2 * T <? indegree g n then high else medium
}.

(** What the specification says of a port-scan alert on node [n]. *)
Record port_scan_alert_for (g : NetworkGraph) (T : Z) (n : string)
       (a : AttackAlert) : Prop := {
  scan_kind : attack_type a = PORT_SCAN;
  scan_source : source_nodes a = [n];
  scan_targets : target_nodes a = successor_set g n;
  scan_confidence : confidence a == clamped_ratio (outdegree g n) T;
  scan_severity : severity a = medium
}.

(** The C2 pattern: indegree at least [c2_indegree_min] and outdegree at
    most [c2_outdegree_max]. *)
Definition c2_candidate (g : NetworkGraph) (n : string) : bool :=
  (c2_indegree_min (attack_thresholds g) <=? indegree g n) &&
  (outdegree g n <=? c2_outdegree_max (attack_thresholds g)).

(** What the specification says of a C2 alert on node [n]. *)
Record c2_alert_for (g : NetworkGraph) (n : string)
       (a : AttackAlert) : Prop := {
  c2_kind : attack_type a = C2;
  c2_sources : source_nodes a = predecessor_set g n;
  c2_target : target_nodes a = [n];
  c2_confidence :
    confidence a ==
    clamped_ratio (indegree g n) (c2_indegree_min (attack_thresholds g));
  c2_severity :
    severity a =
    if 3 * c2_indegree_min (attack_thresholds g) <? indegree g n
    then high else medium
}.

(** A directed path [n0 -> n1 -> ... -> nN] with no other edge: the nodes of
    the graph are the nodes of the path, and each node has its successor on
    the path as its only neighbour. *)
Fixpoint path_links (g : NetworkGraph) (ns : list string) : Prop :=
  match ns with
  | [] => True
  | a :: tl =>
      get_neighbors g a = Ok (match tl with [] => [] | b :: _ => [b] end) /\
      path_links g tl
  end.

Record directed_path (g : NetworkGraph) (ns : list string) : Prop := {
  path_nodes : Permutation (nx.nodes (graph g)) ns;
  path_nodup : NoDup ns;
  path_edges : path_links g ns
}.

(** A star: [leaves] each have one edge into [hub], the hub has no outgoing
    edge, and there is no other node or edge. *)
Record star_graph (g : NetworkGraph) (hub : string) (leaves : list string)
  : Prop := {
  star_nodes : Permutation (nx.nodes (graph g)) (hub :: leaves);
  star_nodup : NoDup (hub :: leaves);
  star_hub_in : Permutation (predecessor_set g hub) leaves;
  star_hub_out : successor_set g hub = [];
  star_leaf_in : forall l, In l leaves -> predecessor_set g l = [];
  star_leaf_out : forall l, In l leaves -> successor_set g l = [hub]
}.

(** Counting the alerts of a history by kind, by severity and by
    confidence, as the specification of the statistics view reads. *)
Definition AttackType_eq_dec (a b : AttackType) : {a = b} + {a <> b}.
Proof. decide equality. Defined.

Definition Severity_eq_dec (a b : Severity) : {a = b} + {a <> b}.
Proof. decide equality. Defined.

Definition count_kind (k : AttackType) (history : list AttackAlert) : Z :=
  Z.of_nat (count_occ AttackType_eq_dec (map attack_type history) k).

Definition count_severity (s : Severity) (history : list AttackAlert) : Z :=
  Z.of_nat (count_occ Severity_eq_dec (map severity history) s).

Definition count_confident (history : list AttackAlert) : Z :=
  Z.of_nat (List.length
    (filter (fun a => if Qlt_le_dec (8 # 10) (confidence a)
                      then true else false) history)).

(** The count that a counter dictionary holds for a key, and the invariant
    of a [defaultdict(int)] that is only ever incremented. *)
Definition counted (d : dict string Z) (key : string) : Z :=
  match get key d with Some n => n | None => 0 end.

Definition counter_inv (d : dict string Z) : Prop :=
  forall key n, get key d = Some n -> 0 < n.

(** The entry of a counter dictionary for a count [n]: absent at zero. *)
Definition counter_entry (n : Z) : option Z :=
  if n =? 0 then None else Some n.

(** The order of an aggregate pass, as the specification words it: [a]
    may come before [b] when its severity rank is at least that of [b]
    and, at equal rank, its confidence is at least that of [b]. *)
Definition may_precede (a b : AttackAlert) : Prop :=
  severity_order (severity b) <= severity_order (severity a) /\
  (severity_order (severity a) = severity_order (severity b) ->
   (confidence b <= confidence a)%Q).

(** Two alerts tie when they have the same severity rank and the same
    confidence. *)
Definition tie (a b : AttackAlert) : bool :=
  (severity_order (severity a) =? severity_order (severity b)) &&
  Qeq_bool (confidence a) (confidence b).

(** No threshold that a confidence is divided by is zero. *)
Definition divisors_nonzero (t : Thresholds) : Prop :=
  ddos_indegree t <> 0 /\ port_scan_outdegree t <> 0 /\
  worm_reachability t <> 0 /\ c2_indegree_min t <> 0.

(** What the specification says of a botnet alert on a cycle. *)
Record botnet_alert_for (cycle : list string) (a : AttackAlert) : Prop := {
  botnet_kind : attack_type a = BOTNET;
  botnet_sources : source_nodes a = cycle;
  botnet_targets : target_nodes a = cycle;
  botnet_confidence :
    confidence a == Qmin 1 (inject_Z (Z.of_nat (List.length cycle)) / 10);
  botnet_severity :
    severity a = if 5 <=? Z.of_nat (List.length cycle) then high else medium
}.

(** The metric that triggers an alert: the indegree (number of sources) for
    DDoS and C2, the cycle length for a botnet, the outdegree (number of
    targets) for a port scan, the size of the reachable set for a worm. *)
Definition triggering_metric (a : AttackAlert) : Z :=
  match attack_type a with
  | DDOS | C2 | BOTNET => Z.of_nat (List.length (source_nodes a))
  | PORT_SCAN | WORM => Z.of_nat (List.length (target_nodes a))
  end.

(** [produced g T a]: some detector, run on [g], returned the alert [a],
    and [T] is the threshold its confidence was scaled by (the botnet
    detector divides by the constant 10 = 2 * 5). *)
Inductive produced (g : NetworkGraph) : Z -> AttackAlert -> Prop :=
| produced_ddos threshold l a :
    detect_ddos_attack g threshold = Ok l -> In a l ->
    produced g (threshold_or threshold (ddos_indegree (attack_thresholds g))) a
| produced_botnet l a :
    detect_botnet_attack g = Ok l -> In a l -> produced g 5 a
| produced_port_scan threshold l a :
    detect_port_scan_attack g threshold = Ok l -> In a l ->
    produced g
      (threshold_or threshold (port_scan_outdegree (attack_thresholds g))) a
| produced_worm start_node threshold l a :
    detect_worm_propagation g start_node threshold = Ok l -> In a l ->
    produced g
      (threshold_or threshold (worm_reachability (attack_thresholds g))) a
| produced_c2 l a :
    detect_c2_attack g = Ok l -> In a l ->
    produced g (c2_indegree_min (attack_thresholds g)) a.

(** The common shape: the alert is of kind [k], its metric exceeds the
    bound that triggered it, the divisor is not zero, and its confidence is
    the clamped ratio of the metric to twice the threshold. *)
Definition alert_shape (k : AttackType) (T : Z) (a : AttackAlert) : Prop :=
  attack_type a = k /\
  T <> 0 /\
  confidence a = py_min 1 (inject_Z (triggering_metric a) / inject_Z (T * 2)) /\
  (severity a = high \/ severity a = medium).

(** A chain of successors: every node of [l] has the next node of [l] as
    its only successor, and the last one has [final]. *)
Fixpoint chain (g : NetworkGraph) (l : list string) (final : string) : Prop :=
  match l with
  | [] => True
  | a :: tl =>
      successor_set g a = [hd final tl] /\ chain g tl final
  end.

(** A directed cycle through the nodes [ns] with no other node or edge. *)
Record directed_cycle (g : NetworkGraph) (ns : list string) : Prop := {
  cycle_nodes : Permutation (nx.nodes (graph g)) ns;
  cycle_nodup : NoDup ns;
  cycle_edges : chain g ns (hd "" ns)
}.

(** An elementary cycle of the graph: no node repeats, every node has an
    edge to the next one, and the last has an edge to the first. *)
Fixpoint linked (G : nx.DiGraph) (l : list string) (final : string) : Prop :=
  match l with
  | [] => True
  | a :: tl => has_edge a (hd final tl) G = true /\ linked G tl final
  end.

Definition elementary_cycle (G : nx.DiGraph) (c : list string) : Prop :=
  c <> [] /\ NoDup c /\ linked G c (hd "" c).

(** A cycle is rooted in a node order when its first node comes before all
    its other nodes; [c'] is a rotation of [c] when it reads the same cycle
    from another node. *)
Definition rooted (order c : list string) : Prop :=
  exists before later,
    order = before ++ hd "" c :: later /\ incl (tl c) later.

Definition rotation (c c' : list string) : Prop :=
  exists pre post, c = pre ++ post /\ c' = post ++ pre.

(** ** Edge records and the edges of the graph *)

(** [G.edges()]: the pairs (u, v) read off the successor dictionary, in its
    order. *)
Definition nx_edges (G : nx.DiGraph) : list (string * string) :=
  flat_map (fun e => map (pair (fst e)) (keys (snd e))) (nx._succ G).

(** The invariant of the two record maps: no id and no edge key is recorded
    twice, and every edge of the graph has a record. *)
Record records_inv (g : NetworkGraph) : Prop := {
  rec_nodes_nodup : NoDup (keys (nodes g));
  rec_edges_nodup : NoDup (keys (edges g));
  rec_edges_cover :
    forall u v, has_edge u v (graph g) = true ->
                contains (u, v) (edges g) = true
}.

(** The edges as the predecessor dictionary lists them. *)
Definition nx_pred_edges (G : nx.DiGraph) : list (string * string) :=
  flat_map (fun e => map (fun u => (u, fst e)) (keys (snd e))) (nx._pred G).

(** [sum(f(n) for n in l)] *)
Definition total (f : string -> Z) (l : list string) : Z :=
  fold_right (fun n acc => f n + acc) 0 l.

(** [connected G u v]: there is a directed walk from [u] to [v]. *)
Inductive connected (G : nx.DiGraph) (u : string) : string -> Prop :=
| connected_refl : connected G u u
| connected_step v w :
    connected G u v -> has_edge v w G = true -> connected G u w.

(** [sum(d.values())] of a counter dictionary *)
Definition sum_values (d : dict string Z) : Z :=
  fold_right Z.add 0 (values d).

(** ** main.py: the threshold update of the transport layer *)

(** [ThresholdUpdate]: every field is optional and defaults to [None]. *)
Module ThresholdUpdate.
Record t : Set := mk {
  ddos_indegree : option Z;
  port_scan_outdegree : option Z;
  worm_reachability : option Z;
  c2_indegree_min : option Z;
  c2_outdegree_max : option Z
}.
End ThresholdUpdate.

(** [update_thresholds]: each field that is not [None] is assigned to its
    entry of [network_graph.attack_thresholds], in this order; no value is
    checked. *)
Definition update_thresholds (network_graph : NetworkGraph)
    (thresholds : ThresholdUpdate.t) : NetworkGraph :=
  let t := attack_thresholds network_graph in
  let t :=
    match ThresholdUpdate.ddos_indegree thresholds with
    | Some v =>
        {| ddos_indegree := v;
           port_scan_outdegree := port_scan_outdegree t;
           worm_reachability := worm_reachability t;
           c2_indegree_min := c2_indegree_min t;
           c2_outdegree_max := c2_outdegree_max t |}
    | None => t
    end in
  let t :=
    match ThresholdUpdate.port_scan_outdegree thresholds with
    | Some v =>
        {| ddos_indegree := ddos_indegree t;
           port_scan_outdegree := v;
           worm_reachability := worm_reachability t;
           c2_indegree_min := c2_indegree_min t;
           c2_outdegree_max := c2_outdegree_max t |}
    | None => t
    end in
  let t :=
    match ThresholdUpdate.worm_reachability thresholds with
    | Some v =>
        {| ddos_indegree := ddos_indegree t;
           port_scan_outdegree := port_scan_outdegree t;
           worm_reachability := v;
           c2_indegree_min := c2_indegree_min t;
           c2_outdegree_max := c2_outdegree_max t |}
    | None => t
    end in
  let t :=
    match ThresholdUpdate.c2_indegree_min thresholds with
    | Some v =>
        {| ddos_indegree := ddos_indegree t;
           port_scan_outdegree := port_scan_outdegree t;
           worm_reachability := worm_reachability t;
           c2_indegree_min := v;
           c2_outdegree_max := c2_outdegree_max t |}
    | None => t
    end in
  let t :=
    match ThresholdUpdate.c2_outdegree_max thresholds with
    | Some v =>
        {| ddos_indegree := ddos_indegree t;
           port_scan_outdegree := port_scan_outdegree t;
           worm_reachability := worm_reachability t;
           c2_indegree_min := c2_indegree_min t;
           c2_outdegree_max := v |}
    | None => t
    end in
  set_thresholds network_graph t.

(** ** algorithms/simulation.py

    The simulator draws from Python's [random] module.  The generator is
    not modelled: every function takes the numbers that it draws as
    arguments, so that a statement about it is a statement for every
    outcome of the draws.  How a drawn number picks a position is the
    model's own (the number is reduced modulo the number of alternatives);
    what matters is that every result the library can return is the result
    of some draw, and that every draw gives a result the library can
    return. *)

(** What the simulator raises beyond the exceptions of the store:
    [random.sample] raises [ValueError] on a negative sample size,
    [random.choice] raises [IndexError] on an empty sequence. *)
Inductive sim_exn : Set :=
| ValueError
| IndexError
| StoreError (e : exn).

Inductive outcome (A : Type) : Type :=
| Return (a : A)
| Throw (e : sim_exn).

Arguments Return {A} a.
Arguments Throw {A} e.

Definition and_then {A B} (c : outcome A) (k : A -> outcome B) : outcome B :=
  match c with
  | Return a => k a
  | Throw e => Throw e
  end.

(** A call into the store from the simulator. *)
Definition lift {A} (c : result A) : outcome A :=
  match c with
  | Ok a => Return a
  | Raise e => Throw (StoreError e)
  end.

Notation "'let+' x ':=' c 'in' k" := (and_then c (fun x => k))
  (at level 10, x pattern, c at level 100, k at level 200) : py_scope.

Module random.

(** [random.choice(seq)]: the element at the drawn position. *)
Definition choice {A} (seq : list A) (draw : nat) : outcome A :=
  match seq with
  | [] => Throw IndexError
  | a :: _ => Return (nth (draw mod List.length seq) seq a)
  end.

(** The list without its element at position [i]. *)
Fixpoint without {A} (i : nat) (l : list A) : list A :=
  match l, i with
  | [], _ => []
  | _ :: l', O => l'
  | a :: l', S i' => a :: without i' l'
  end.

(** [k] elements taken one after the other at the drawn positions of what
    is left of the pool. *)
Fixpoint select {A} (pool : list A) (k : nat) (draws : list nat) : list A :=
  match k, pool with
  | S k', a :: _ =>
      let i := (hd O draws mod List.length pool)%nat in
      nth i pool a :: select (without i pool) k' (tl draws)
  | _, _ => []
  end.

(** [random.sample(population, k)]: [k] elements at distinct positions, in
    the order of selection; [ValueError] unless 0 <= k <= len(population). *)
Definition sample {A} (population : list A) (k : Z) (draws : list nat)
  : outcome (list A) :=
  if (k <? 0) || (Z.of_nat (List.length population) <? k)
  then Throw ValueError
  else Return (select population (Z.to_nat k) draws).

(** [random.randint(a, b)] with a <= b *)
Definition randint (a b : Z) (draw : nat) : Z :=
  a + Z.of_nat draw mod (b - a + 1).

End random.

(** [AttackSimulator]: [graph] is the store the simulator was built on, as
    it is at the time of the call. *)
Module AttackSimulator.
Record t : Type := mk {
  graph : NetworkGraph;
  simulation_id : Z
}.
End AttackSimulator.

(** [AttackSimulator.__init__] *)
Definition AttackSimulator_init (network_graph : NetworkGraph)
  : AttackSimulator.t :=
  AttackSimulator.mk network_graph 0.

(** [[node_id for node_id, node in self.graph.nodes.items()
      if node.node_type == 'server']] *)
Definition servers_of (g : NetworkGraph) : list string :=
  map fst (filter (fun item => String.eqb (NetworkNode.node_type (snd item))
                                          "server")
                  (nodes g)).

(** [[node_id for node_id in self.graph.nodes.keys() if node_id != node]] *)
Definition others_of (g : NetworkGraph) (node : string) : list string :=
  filter (fun node_id => negb (String.eqb node_id node)) (keys (nodes g)).

(** The choice of a server, or of any recorded node when there is none,
    that [simulate_ddos_attack] and [simulate_c2_attack] make when no node
    is passed. *)
Definition server_or_any (g : NetworkGraph) (node : option string)
    (draw : nat) : outcome string :=
  match node with
  | None =>
      let servers := servers_of g in
      match servers with
      | _ :: _ => random.choice servers draw
      | [] => random.choice (keys (nodes g)) draw
      end
  | Some n => Return n
  end.

Definition simulate_ddos_attack (self : AttackSimulator.t)
    (target_node : option string) (attacker_count : Z)
    (draw : nat) (draws : list nat) : outcome AttackSimulator.t :=
  let g := AttackSimulator.graph self in
  let+ target_node := server_or_any g target_node draw in
  let potential_attackers := others_of g target_node in
  let+ attackers :=
    random.sample potential_attackers
      (Z.min attacker_count (Z.of_nat (List.length potential_attackers)))
      draws in
  let+ g' :=
    lift (for_each attackers (fun attacker g =>
            add_edge g
              (NetworkEdge.mk attacker target_node 1 "TCP" 80
                 (inject_Z (AttackSimulator.simulation_id self)) [])) g) in
  Return (AttackSimulator.mk g' (AttackSimulator.simulation_id self + 1)).

(** [bots[i]] for an index of [range(len(bots))]. *)
Definition item (l : list string) (i : nat) : outcome string :=
  match nth_error l i with
  | Some x => Return x
  | None => Throw IndexError
  end.

(** The loop of [simulate_botnet_attack]: an edge from every bot to the
    next one, and from the last bot to the first. *)
Fixpoint botnet_cycle (simulation_id : Z) (bots : list string)
    (range : list nat) (g : NetworkGraph) : outcome NetworkGraph :=
  match range with
  | [] => Return g
  | i :: range' =>
      let+ current_bot := item bots i in
      let+ next_bot := item bots (Nat.modulo (i + 1) (List.length bots)) in
      let+ g' :=
        lift (add_edge g
                (NetworkEdge.mk current_bot next_bot (8 # 10) "HTTP" 8080
                   (inject_Z simulation_id) [])) in
      botnet_cycle simulation_id bots range' g'
  end.

Definition simulate_botnet_attack (self : AttackSimulator.t) (bot_count : Z)
    (draws : list nat) : outcome AttackSimulator.t :=
  let g := AttackSimulator.graph self in
  let potential_bots := keys (nodes g) in
  let+ bots :=
    random.sample potential_bots
      (Z.min bot_count (Z.of_nat (List.length potential_bots))) draws in
  let+ g' :=
    botnet_cycle (AttackSimulator.simulation_id self) bots
                 (seq 0 (List.length bots)) g in
  Return (AttackSimulator.mk g' (AttackSimulator.simulation_id self + 1)).

Definition common_ports : list Z :=
  [21; 22; 23; 25; 53; 80; 110; 143; 443; 993; 995; 3306; 5432; 6379].

(** The loop of [simulate_port_scan_attack]: one edge per target, each to
    a port drawn from [common_ports]. *)
Fixpoint scan_each_target (simulation_id : Z) (attacker_node : string)
    (targets : list string) (port_draws : list nat) (g : NetworkGraph)
  : outcome NetworkGraph :=
  match targets with
  | [] => Return g
  | target :: targets' =>
      let+ port := random.choice common_ports (hd O port_draws) in
      let+ g' :=
        lift (add_edge g
                (NetworkEdge.mk attacker_node target (3 # 10) "TCP" port
                   (inject_Z simulation_id) [])) in
      scan_each_target simulation_id attacker_node targets' (tl port_draws) g'
  end.

Definition simulate_port_scan_attack (self : AttackSimulator.t)
    (attacker_node : option string) (target_count : Z)
    (draw : nat) (draws : list nat) (port_draws : list nat)
  : outcome AttackSimulator.t :=
  let g := AttackSimulator.graph self in
  let+ attacker_node :=
    match attacker_node with
    | None => random.choice (keys (nodes g)) draw
    | Some n => Return n
    end in
  let potential_targets := others_of g attacker_node in
  let+ targets :=
    random.sample potential_targets
      (Z.min target_count (Z.of_nat (List.length potential_targets)))
      draws in
  let+ g' :=
    scan_each_target (AttackSimulator.simulation_id self) attacker_node targets
                 port_draws g in
  Return (AttackSimulator.mk g' (AttackSimulator.simulation_id self + 1)).

(** The innermost loop of [simulate_worm_propagation]: every neighbour is
    infected or not as [random.random() < 0.3] comes out, which [flips]
    lists in the order of the calls. *)
Fixpoint infect_neighbors (simulation_id : Z) (infected_node : string)
    (neighbors : list string) (flips : list bool)
    (newly_infected : list string) (g : NetworkGraph)
  : outcome (list bool * list string * NetworkGraph) :=
  match neighbors with
  | [] => Return (flips, newly_infected, g)
  | neighbor :: neighbors' =>
      if hd false flips then
        let newly_infected := (newly_infected ++ [neighbor])%list in
        let+ g' :=
          lift (add_edge g
                  (NetworkEdge.mk infected_node neighbor (9 # 10) "TCP" 445
                     (inject_Z simulation_id) [])) in
        infect_neighbors simulation_id infected_node neighbors' (tl flips)
                         newly_infected g'
      else
        infect_neighbors simulation_id infected_node neighbors' (tl flips)
                         newly_infected g
  end.

(** One propagation step: the loop over the infected nodes. *)
Fixpoint infect_from (simulation_id : Z) (current_infected : list string)
    (flips : list bool) (newly_infected : list string) (g : NetworkGraph)
  : outcome (list bool * list string * NetworkGraph) :=
  match current_infected with
  | [] => Return (flips, newly_infected, g)
  | infected_node :: rest =>
      let+ neighbors := lift (get_neighbors g infected_node) in
      let+ (flips, newly_infected, g') :=
        infect_neighbors simulation_id infected_node neighbors flips
                         newly_infected g in
      infect_from simulation_id rest flips newly_infected g'
  end.

(** [for step in range(propagation_steps)], left early when a step infects
    no node. *)
Fixpoint propagate (simulation_id : Z) (steps : nat)
    (current_infected : list string) (flips : list bool) (g : NetworkGraph)
  : outcome NetworkGraph :=
  match steps with
  | O => Return g
  | S steps' =>
      let+ (flips, newly_infected, g') :=
        infect_from simulation_id current_infected flips [] g in
      match newly_infected with
      | [] => Return g'
      | _ :: _ => propagate simulation_id steps' newly_infected flips g'
      end
  end.

Definition simulate_worm_propagation (self : AttackSimulator.t)
    (start_node : option string) (propagation_steps : Z)
    (draw : nat) (flips : list bool) : outcome AttackSimulator.t :=
  let g := AttackSimulator.graph self in
  let+ start_node :=
    match start_node with
    | None => random.choice (keys (nodes g)) draw
    | Some n => Return n
    end in
  let+ g' :=
    propagate (AttackSimulator.simulation_id self)
              (Z.to_nat propagation_steps) [start_node] flips g in
  Return (AttackSimulator.mk g' (AttackSimulator.simulation_id self + 1)).

Definition simulate_c2_attack (self : AttackSimulator.t)
    (c2_server : option string) (infected_count : Z)
    (draw : nat) (draws : list nat) : outcome AttackSimulator.t :=
  let g := AttackSimulator.graph self in
  let+ c2_server := server_or_any g c2_server draw in
  let potential_victims := others_of g c2_server in
  let+ infected_nodes :=
    random.sample potential_victims
      (Z.min infected_count (Z.of_nat (List.length potential_victims)))
      draws in
  let+ g' :=
    lift (for_each infected_nodes (fun infected g =>
            add_edge g
              (NetworkEdge.mk infected c2_server (1 # 2) "HTTPS" 443
                 (inject_Z (AttackSimulator.simulation_id self)) [])) g) in
  Return (AttackSimulator.mk g' (AttackSimulator.simulation_id self + 1)).

(** [edge_key] of [add_edge]: the key under which an edge is recorded. *)
Definition edge_key (edge : NetworkEdge.t) : string * string :=
  (NetworkEdge.source edge, NetworkEdge.target edge).

(** What one iteration of the node loop and of the edge loop of
    [generate_network_topology] draws.  [random.choices] with positive
    weights returns any element of its population, like [random.choice];
    [random.uniform] is given by the number it returns. *)
Record node_draw : Set := {
  type_draw : nat;
  ip_draws : nat * nat;
  os_draw : nat
}.

Record edge_draw : Set := {
  source_draw : nat;
  target_draw : nat;
  weight_draw : Q;
  protocol_draw : nat;
  port_draw : nat;
  timestamp_draw : Q
}.

Definition node_types : list string :=
  ["server"; "client"; "router"; "firewall"; "database"].

(** [f"node_{i}"] *)
Definition generated_id (i : nat) : string :=
  ("node_" ++ py_str (Z.of_nat i))%string.

(** The first loop of [generate_network_topology]. *)
Fixpoint generate_nodes (range : list nat) (node_draws : nat -> node_draw)
    (g : NetworkGraph) : outcome NetworkGraph :=
  match range with
  | [] => Return g
  | i :: range' =>
      let d := node_draws i in
      let+ node_type := random.choice node_types (type_draw d) in
      let ip :=
        ("192.168." ++ py_str (random.randint 1 255 (fst (ip_draws d))) ++
         "." ++ py_str (random.randint 1 254 (snd (ip_draws d))))%string in
      let+ os := random.choice ["Windows"; "Linux"; "Cisco"] (os_draw d) in
      let node :=
        NetworkNode.mk (generated_id i) ip node_type
                       [("status", "active"); ("os", os)] in
      let+ g' := lift (add_node g node) in
      generate_nodes range' node_draws g'
  end.

(** The second loop: an edge is added when the two drawn nodes differ and
    are not linked in this direction yet. *)
Fixpoint generate_edges (range : list nat) (node_ids : list string)
    (edge_draws : nat -> edge_draw) (g : NetworkGraph)
  : outcome NetworkGraph :=
  match range with
  | [] => Return g
  | i :: range' =>
      let d := edge_draws i in
      let+ source := random.choice node_ids (source_draw d) in
      let+ target := random.choice node_ids (target_draw d) in
      if negb (String.eqb source target) &&
         negb (has_edge source target (graph g))
      then
        let+ protocol :=
          random.choice ["TCP"; "UDP"; "HTTP"; "HTTPS"] (protocol_draw d) in
        let+ port :=
          random.choice [80; 443; 22; 21; 25; 53; 3306; 5432] (port_draw d) in
        let edge :=
          NetworkEdge.mk source target (weight_draw d) protocol port
                         (timestamp_draw d) [] in
        let+ g' := lift (add_edge g edge) in
        generate_edges range' node_ids edge_draws g'
      else generate_edges range' node_ids edge_draws g
  end.

(** [range(n)] *)
Definition py_range (n : Z) : list nat := seq 0 (Z.to_nat n).

Definition generate_network_topology (self : AttackSimulator.t)
    (node_count edge_count : Z)
    (node_draws : nat -> node_draw) (edge_draws : nat -> edge_draw)
  : outcome AttackSimulator.t :=
  let g := AttackSimulator.graph self in
  let g :=
    {| graph := nx.empty; nodes := []; edges := [];
       attack_thresholds := attack_thresholds g |} in
  let+ g := generate_nodes (py_range node_count) node_draws g in
  let node_ids := keys (nodes g) in
  let+ g := generate_edges (py_range edge_count) node_ids edge_draws g in
  Return (AttackSimulator.mk g (AttackSimulator.simulation_id self)).

(** What the five simulations of [simulate_mixed_attack_scenario] draw. *)
Record scenario_draws : Type := {
  topology_nodes : nat -> node_draw;
  topology_edges : nat -> edge_draw;
  ddos_draws : nat * list nat;
  botnet_draws : list nat;
  port_scan_draws : nat * list nat * list nat;
  worm_draws : nat * list bool;
  c2_draws : nat * list nat
}.

Definition simulate_mixed_attack_scenario (self : AttackSimulator.t)
    (d : scenario_draws)
  : outcome (dict string (list string) * AttackSimulator.t) :=
  let results := [] in
  let+ self :=
    generate_network_topology self 60 200
      (topology_nodes d) (topology_edges d) in
  let+ self :=
    simulate_ddos_attack self None 25
      (fst (ddos_draws d)) (snd (ddos_draws d)) in
  let results :=
    setitem "ddos" ["DDoS attack simulated with 25 attackers"] results in
  let+ self := simulate_botnet_attack self 6 (botnet_draws d) in
  let results :=
    setitem "botnet" ["Botnet communication cycle simulated with 6 bots"]
            results in
  let+ self :=
    simulate_port_scan_attack self None 40
      (fst (fst (port_scan_draws d))) (snd (fst (port_scan_draws d)))
      (snd (port_scan_draws d)) in
  let results :=
    setitem "port_scan" ["Port scan attack simulated targeting 40 nodes"]
            results in
  let+ self :=
    simulate_worm_propagation self None 4
      (fst (worm_draws d)) (snd (worm_draws d)) in
  let results :=
    setitem "worm" ["Worm propagation simulated over 4 steps"] results in
  let+ self :=
    simulate_c2_attack self None 12 (fst (c2_draws d)) (snd (c2_draws d)) in
  let results :=
    setitem "c2" ["C2 attack simulated with 12 infected nodes"] results in
  Return (results, self).

(** ** Commands of the transport layer and sample topologies *)

Inductive command : Type :=
| AddNode (node : NetworkNode.t)
| AddEdge (edge : NetworkEdge.t)
| RemoveNode (node_id : string)
| RemoveEdge (source target : string)
| SetThresholds (t : Thresholds).

Definition execute (g : NetworkGraph) (c : command) : result NetworkGraph :=
  match c with
  | AddNode node => add_node g node
  | AddEdge edge => add_edge g edge
  | RemoveNode node_id => remove_node g node_id
  | RemoveEdge source target => remove_edge g source target
  | SetThresholds t => Ok (set_thresholds g t)
  end.

Fixpoint run (cs : list command) (g : NetworkGraph) : result NetworkGraph :=
  match cs with
  | [] => Ok g
  | c :: cs' => let* g' := execute g c in run cs' g'
  end.

Definition host (id : string) : command :=
  AddNode (NetworkNode.mk id "10.0.0.1" "client" []).

Definition link (source target : string) : command :=
  AddEdge (NetworkEdge.mk source target 1 "TCP" 80 0 []).

Definition built (cs : list command) : NetworkGraph :=
  match run cs NetworkGraph_init with
  | Ok g => g
  | Raise _ => NetworkGraph_init
  end.

(** a -> b *)
Definition one_edge : NetworkGraph :=
  built [link "a" "b"].

(** a -> b -> c, every host registered first *)
Definition path_abc : NetworkGraph :=
  built [host "a"; host "b"; host "c"; link "a" "b"; link "b" "c"].

(** a -> c <- b *)
Definition fan_in : NetworkGraph :=
  built [link "a" "c"; link "b" "c"].

(** b <- a -> c *)
Definition fan_out : NetworkGraph :=
  built [link "a" "b"; link "a" "c"].

(** leaves a, b, c, each with one edge into the hub h; [c2_indegree_min]
    is lowered to 2 *)
Definition star_abc : NetworkGraph :=
  built [link "a" "h"; link "b" "h"; link "c" "h";
         SetThresholds {| ddos_indegree := 50; port_scan_outdegree := 30;
                          worm_reachability := 100;
                          c2_indegree_min := 2; c2_outdegree_max := 5 |}].

(** the star a -> b with one leaf, under [c2_indegree_min = 0] and under
    [c2_indegree_min = -1] *)
Definition star_min_zero : NetworkGraph :=
  built [link "a" "b";
         SetThresholds {| ddos_indegree := 50; port_scan_outdegree := 30;
                          worm_reachability := 100;
                          c2_indegree_min := 0; c2_outdegree_max := 5 |}].

Definition star_min_negative : NetworkGraph :=
  built [link "a" "b";
         SetThresholds {| ddos_indegree := 50; port_scan_outdegree := 30;
                          worm_reachability := 100;
                          c2_indegree_min := -1; c2_outdegree_max := 5 |}].

(** a -> b -> c built from the two edges alone: no host is registered *)
Definition path_abc_unregistered : NetworkGraph :=
  built [link "a" "b"; link "b" "c"].

(** [path_abc] after [remove_node("b")] *)
Definition path_abc_without_b : NetworkGraph :=
  built [host "a"; host "b"; host "c"; link "a" "b"; link "b" "c";
         RemoveNode "b"].

(** x and y each receive from a and b, x -> z, y -> a; the thresholds are
    lowered so that x and y are DDoS targets and z is the only C2 server *)
Definition two_ddos_one_c2 : NetworkGraph :=
  built [link "a" "x"; link "b" "x"; link "a" "y"; link "b" "y";
         link "x" "z"; link "y" "a";
         SetThresholds {| ddos_indegree := 1; port_scan_outdegree := 30;
                          worm_reachability := 100;
                          c2_indegree_min := 1; c2_outdegree_max := 0 |}].

(** a -> b -> c -> a *)
Definition triangle : NetworkGraph :=
  built [link "a" "b"; link "b" "c"; link "c" "a"].

(** a path of two nodes whose first node has the empty string as its id *)
Definition path_from_empty_id : NetworkGraph :=
  built [host ""; host "b"; link "" "b"].

(** three registered hosts without any edge, under lowered thresholds *)
Definition hosts_abc : NetworkGraph :=
  built [host "a"; host "b"; host "c";
         SetThresholds {| ddos_indegree := 1; port_scan_outdegree := 1;
                          worm_reachability := 100;
                          c2_indegree_min := 2; c2_outdegree_max := 0 |}].

(** draws that are all zero *)
Definition first_node : nat -> node_draw :=
  fun _ => {| type_draw := 0; ip_draws := (0%nat, 0%nat); os_draw := 0 |}.

Definition first_edge : nat -> edge_draw :=
  fun _ => {| source_draw := 0; target_draw := 1; weight_draw := 1;
              protocol_draw := 0; port_draw := 0; timestamp_draw := 0 |}.

Definition zero_draws : scenario_draws :=
  {| topology_nodes := first_node;
     topology_edges := first_edge;
     ddos_draws := (0%nat, []);
     botnet_draws := [];
     port_scan_draws := (0%nat, [], []);
     worm_draws := (0%nat, []);
     c2_draws := (0%nat, []) |}.

(** * Properties *)

(** ** Dictionaries *)

Section DictFacts.
Context {K V : Type} `{Hashable K}.
Implicit Types (k : K) (v : V) (d : dict K V).

Lemma key_eqb_refl k : key_eqb k k = true.
Proof. destruct (key_eqb_spec k k); congruence. Qed.

Lemma key_eqb_neq k k' : k <> k' -> key_eqb k k' = false.
Proof. destruct (key_eqb_spec k k'); congruence. Qed.

Lemma key_eqb_sym k k' : key_eqb k k' = key_eqb k' k.
Proof.
  destruct (key_eqb_spec k k'), (key_eqb_spec k' k); congruence.
Qed.

Lemma mem_In k (l : list K) : mem k l = true <-> In k l.
Proof.
  induction l as [|x l IH]; simpl.
  - split; [discriminate | tauto].
  - rewrite orb_true_iff, IH.
    destruct (key_eqb_spec k x); subst; intuition congruence.
Qed.

Lemma mem_false k (l : list K) : mem k l = false <-> ~ In k l.
Proof.
  rewrite <- mem_In. destruct (mem k l); intuition congruence.
Qed.

Lemma mem_app k (l1 l2 : list K) : mem k (l1 ++ l2) = mem k l1 || mem k l2.
Proof.
  induction l1 as [|x l1 IH]; simpl; [reflexivity|].
  now rewrite IH, orb_assoc.
Qed.

Lemma contains_get k d :
  contains k d = match get k d with Some _ => true | None => false end.
Proof.
  unfold contains.
  induction d as [|[k' v'] d IH]; simpl; [reflexivity|].
  destruct (key_eqb k k'); simpl; auto.
Qed.

Lemma contains_In k d : contains k d = true <-> In k (keys d).
Proof. apply mem_In. Qed.

Lemma get_Some_In k v d : get k d = Some v -> In k (keys d).
Proof.
  intros E. apply contains_In. now rewrite contains_get, E.
Qed.

Lemma In_get k d : In k (keys d) -> exists v, get k d = Some v.
Proof.
  intros I. apply contains_In in I. rewrite contains_get in I.
  destruct (get k d) as [v|]; [now exists v | discriminate].
Qed.

Lemma get_None k d : get k d = None <-> ~ In k (keys d).
Proof.
  rewrite <- contains_In, contains_get.
  destruct (get k d); intuition congruence.
Qed.

Lemma get_setitem k v k' d :
  get k' (setitem k v d) = if key_eqb k' k then Some v else get k' d.
Proof.
  induction d as [|[k0 v0] d IH]; simpl.
  - reflexivity.
  - destruct (key_eqb_spec k k0) as [->|N]; simpl.
    + destruct (key_eqb k' k0); reflexivity.
    + rewrite IH. destruct (key_eqb_spec k' k0) as [->|N'].
      * now rewrite key_eqb_neq by congruence.
      * reflexivity.
Qed.

Lemma keys_setitem k v d :
  keys (setitem k v d) = if contains k d then keys d else keys d ++ [k].
Proof.
  unfold contains.
  induction d as [|[k0 v0] d IH]; simpl; [reflexivity|].
  destruct (key_eqb k k0); simpl; [reflexivity|].
  rewrite IH. now destruct (mem k (keys d)).
Qed.

Lemma length_setitem k v d :
  List.length (setitem k v d) =
  if contains k d then List.length d else S (List.length d).
Proof.
  rewrite <- !(length_map fst). fold (keys (setitem k v d)) (keys d).
  rewrite keys_setitem. destruct (contains k d); [reflexivity|].
  rewrite length_app; simpl; lia.
Qed.

Lemma get_remove k k' d :
  get k' (remove k d) = if key_eqb k' k then None else get k' d.
Proof.
  induction d as [|[k0 v0] d IH]; simpl.
  - now destruct (key_eqb k' k).
  - destruct (key_eqb_spec k k0) as [->|N]; simpl.
    + rewrite IH. now destruct (key_eqb k' k0).
    + rewrite IH. destruct (key_eqb_spec k' k0) as [->|N'].
      * now rewrite key_eqb_neq by congruence.
      * reflexivity.
Qed.

Lemma keys_remove k d :
  keys (remove k d) = filter (fun x => negb (key_eqb k x)) (keys d).
Proof.
  induction d as [|[k0 v0] d IH]; simpl; [reflexivity|].
  destruct (key_eqb k k0); simpl; now rewrite IH.
Qed.

Lemma contains_setitem k v k' d :
  contains k' (setitem k v d) = key_eqb k' k || contains k' d.
Proof.
  rewrite !contains_get, get_setitem. now destruct (key_eqb k' k).
Qed.

Lemma contains_remove k k' d :
  contains k' (remove k d) = negb (key_eqb k' k) && contains k' d.
Proof.
  rewrite !contains_get, get_remove. now destruct (key_eqb k' k).
Qed.

Lemma NoDup_keys_setitem k v d : NoDup (keys d) -> NoDup (keys (setitem k v d)).
Proof.
  intros N. rewrite keys_setitem.
  destruct (contains k d) eqn:E; [assumption|].
  apply NoDup_app; [assumption | repeat constructor; intros [] |].
  intros a I [<-|[]]. apply contains_In in I. congruence.
Qed.

Lemma NoDup_keys_remove k d : NoDup (keys d) -> NoDup (keys (remove k d)).
Proof. intros N. rewrite keys_remove. now apply NoDup_filter. Qed.

Lemma remove_absent k d : contains k d = false -> remove k d = d.
Proof.
  unfold contains.
  induction d as [|[k0 v0] d IH]; simpl; [reflexivity|].
  intros E. apply orb_false_iff in E as [E1 E2].
  rewrite E1. now rewrite IH.
Qed.

End DictFacts.

(** ** The representation invariant of the directed graph *)

Ltac fields :=
  cbn [graph nodes edges attack_thresholds nx._node nx._succ nx._pred
       self_graph detection_history] in *.

Ltac key_cases :=
  repeat match goal with
  | |- context [key_eqb ?a ?b] =>
      destruct (key_eqb_spec a b); subst; simpl; try congruence
  | |- context [String.eqb ?a ?b] =>
      destruct (String.eqb_spec a b); subst; simpl; try congruence
  end.

Lemma digraph_inv_empty : digraph_inv nx.empty.
Proof.
  constructor; simpl; try reflexivity; try discriminate.
  constructor.
Qed.

Lemma in_nodes_contains n G :
  In n (nx.nodes G) <-> contains n (nx._node G) = true.
Proof. symmetry. apply contains_In. Qed.

Lemma inv_get_succ G n :
  digraph_inv G -> In n (nx.nodes G) -> exists s, get n (nx._succ G) = Some s.
Proof.
  intros I Hn. apply In_get. now rewrite (inv_succ_keys I).
Qed.

Lemma inv_get_pred G n :
  digraph_inv G -> In n (nx.nodes G) -> exists p, get n (nx._pred G) = Some p.
Proof.
  intros I Hn. apply In_get. now rewrite (inv_pred_keys I).
Qed.

Lemma inv_contains_succ G n :
  digraph_inv G -> contains n (nx._succ G) = contains n (nx._node G).
Proof.
  intros I. unfold contains. now rewrite (inv_succ_keys I).
Qed.

Lemma inv_contains_pred G n :
  digraph_inv G -> contains n (nx._pred G) = contains n (nx._node G).
Proof.
  intros I. unfold contains. now rewrite (inv_pred_keys I).
Qed.

Lemma has_edge_nodes G u v :
  digraph_inv G -> has_edge u v G = true ->
  In u (nx.nodes G) /\ In v (nx.nodes G).
Proof.
  intros I E. split.
  - unfold has_edge in E. destruct (get u (nx._succ G)) eqn:Eu; [|discriminate].
    rewrite <- (inv_succ_keys I). eapply get_Some_In; eauto.
  - rewrite (inv_sym I) in E. unfold has_pred_edge in E.
    destruct (get v (nx._pred G)) eqn:Ev; [|discriminate].
    rewrite <- (inv_pred_keys I). eapply get_Some_In; eauto.
Qed.

Lemma ensure_node_nodes n G :
  digraph_inv G ->
  nx.nodes (nx.ensure_node n G) =
  if mem n (nx.nodes G) then nx.nodes G else nx.nodes G ++ [n].
Proof.
  intros I. unfold nx.ensure_node. rewrite (inv_contains_succ _ I).
  unfold contains. fold (nx.nodes G).
  destruct (mem n (nx.nodes G)) eqn:E; [reflexivity|].
  unfold nx.nodes; simpl. rewrite keys_setitem.
  unfold contains. fold (nx.nodes G). now rewrite E.
Qed.

Lemma ensure_node_In n G :
  digraph_inv G -> In n (nx.nodes (nx.ensure_node n G)).
Proof.
  intros I. rewrite ensure_node_nodes by assumption.
  destruct (mem n (nx.nodes G)) eqn:E.
  - now apply mem_In.
  - apply in_or_app. right. now left.
Qed.

Lemma ensure_node_incl n G m :
  digraph_inv G -> In m (nx.nodes G) -> In m (nx.nodes (nx.ensure_node n G)).
Proof.
  intros I Hm. rewrite ensure_node_nodes by assumption.
  destruct (mem n (nx.nodes G)); [assumption|].
  apply in_or_app. now left.
Qed.

Lemma ensure_node_has_edge n G u v :
  digraph_inv G -> has_edge u v (nx.ensure_node n G) = has_edge u v G.
Proof.
  intros I. unfold nx.ensure_node.
  destruct (contains n (nx._succ G)) eqn:E; [reflexivity|].
  unfold has_edge; simpl. rewrite get_setitem.
  destruct (key_eqb_spec u n) as [->|N]; [|reflexivity].
  rewrite contains_get in E.
  destruct (get n (nx._succ G)); [discriminate | reflexivity].
Qed.

Lemma ensure_node_has_pred_edge n G u v :
  digraph_inv G ->
  has_pred_edge u v (nx.ensure_node n G) = has_pred_edge u v G.
Proof.
  intros I. unfold nx.ensure_node.
  destruct (contains n (nx._succ G)) eqn:E; [reflexivity|].
  unfold has_pred_edge; simpl. rewrite get_setitem.
  destruct (key_eqb_spec v n) as [->|N]; [|reflexivity].
  rewrite inv_contains_succ, <- inv_contains_pred in E by assumption.
  rewrite contains_get in E.
  destruct (get n (nx._pred G)); [discriminate | reflexivity].
Qed.

Lemma ensure_node_inv n G : digraph_inv G -> digraph_inv (nx.ensure_node n G).
Proof.
  intros I. constructor.
  - rewrite ensure_node_nodes by assumption.
    destruct (mem n (nx.nodes G)) eqn:E; [apply (inv_nodup I)|].
    apply NoDup_app; [apply (inv_nodup I) | repeat constructor; intros [] |].
    intros a Ha [<-|[]]. apply mem_false in E. contradiction.
  - unfold nx.ensure_node.
    destruct (contains n (nx._succ G)) eqn:E; [apply (inv_succ_keys I)|].
    unfold nx.nodes; simpl. rewrite !keys_setitem, E.
    rewrite <- inv_contains_succ, E by assumption.
    now rewrite (inv_succ_keys I).
  - unfold nx.ensure_node.
    destruct (contains n (nx._succ G)) eqn:E; [apply (inv_pred_keys I)|].
    unfold nx.nodes; simpl. rewrite !keys_setitem.
    rewrite inv_contains_pred, <- inv_contains_succ, E by assumption.
    now rewrite (inv_pred_keys I).
  - intros u s. unfold nx.ensure_node.
    destruct (contains n (nx._succ G)) eqn:E; [apply (inv_succ_nodup I)|].
    simpl. rewrite get_setitem.
    destruct (key_eqb u n).
    + intros [= <-]. constructor.
    + apply (inv_succ_nodup I).
  - intros u p. unfold nx.ensure_node.
    destruct (contains n (nx._succ G)) eqn:E; [apply (inv_pred_nodup I)|].
    simpl. rewrite get_setitem.
    destruct (key_eqb u n).
    + intros [= <-]. constructor.
    + apply (inv_pred_nodup I).
  - intros u v.
    rewrite ensure_node_has_edge, ensure_node_has_pred_edge by assumption.
    apply (inv_sym I).
Qed.

Lemma nx_add_node_ok n G :
  digraph_inv G -> nx.add_node n G = Ok (nx.ensure_node n G).
Proof.
  intros I. unfold nx.add_node, nx.ensure_node.
  destruct (contains n (nx._succ G)) eqn:E; [|reflexivity].
  rewrite inv_contains_succ in E by assumption.
  unfold getitem. rewrite contains_get in E.
  now destruct (get n (nx._node G)).
Qed.

Lemma nx_add_edge_ok u v G :
  digraph_inv G ->
  exists G',
    nx.add_edge u v G = Ok G' /\
    digraph_inv G' /\
    nx.nodes G' = nx.nodes (nx.ensure_node v (nx.ensure_node u G)) /\
    (forall a b,
        has_edge a b G' = (key_eqb a u && key_eqb b v) || has_edge a b G).
Proof.
  intros I.
  pose proof (ensure_node_inv u I) as I1.
  pose proof (ensure_node_inv v I1) as I2.
  set (G2 := nx.ensure_node v (nx.ensure_node u G)) in *.
  assert (Hu : In u (nx.nodes G2))
    by (apply ensure_node_incl; [assumption | now apply ensure_node_In]).
  assert (Hv : In v (nx.nodes G2)) by now apply ensure_node_In.
  destruct (inv_get_succ u I2 Hu) as [su Esu].
  destruct (inv_get_pred v I2 Hv) as [pv Epv].
  assert (Cu : contains u (nx._succ G2) = true)
    by now rewrite contains_get, Esu.
  assert (Cv : contains v (nx._pred G2) = true)
    by now rewrite contains_get, Epv.
  assert (HE : forall a b,
    has_edge a b
      {| nx._node := nx._node G2;
         nx._succ := setitem u (setitem v tt su) (nx._succ G2);
         nx._pred := setitem v (setitem u tt pv) (nx._pred G2) |} =
    (key_eqb a u && key_eqb b v) || has_edge a b G2).
  { intros a b. unfold has_edge; cbn [nx._succ]. rewrite get_setitem.
    destruct (key_eqb_spec a u) as [->|N]; cbn [andb orb]; [|reflexivity].
    rewrite contains_setitem, Esu. reflexivity. }
  assert (HP : forall a b,
    has_pred_edge a b
      {| nx._node := nx._node G2;
         nx._succ := setitem u (setitem v tt su) (nx._succ G2);
         nx._pred := setitem v (setitem u tt pv) (nx._pred G2) |} =
    (key_eqb a u && key_eqb b v) || has_pred_edge a b G2).
  { intros a b. unfold has_pred_edge; cbn [nx._pred]. rewrite get_setitem.
    destruct (key_eqb_spec b v) as [->|N].
    - rewrite contains_setitem, Epv, andb_true_r. reflexivity.
    - now rewrite andb_false_r. }
  eexists. split; [|split; [|split]].
  - unfold nx.add_edge. fold G2. unfold getitem. rewrite Esu, Epv. simpl.
    reflexivity.
  - constructor; simpl.
    + apply (inv_nodup I2).
    + rewrite keys_setitem, Cu. apply (inv_succ_keys I2).
    + rewrite keys_setitem, Cv. apply (inv_pred_keys I2).
    + intros a s. rewrite get_setitem. destruct (key_eqb a u).
      * intros [= <-]. apply NoDup_keys_setitem.
        apply (inv_succ_nodup I2 _ Esu).
      * apply (inv_succ_nodup I2).
    + intros a p. rewrite get_setitem. destruct (key_eqb a v).
      * intros [= <-]. apply NoDup_keys_setitem.
        apply (inv_pred_nodup I2 _ Epv).
      * apply (inv_pred_nodup I2).
    + intros a b. rewrite HE, HP. now rewrite (inv_sym I2).
  - reflexivity.
  - intros a b. rewrite HE. unfold G2.
    now rewrite !ensure_node_has_edge.
Qed.

Lemma del_from_each_ok n us (adj : nx.adjacency) :
  NoDup us ->
  (forall u, In u us ->
     exists au, get u adj = Some au /\ contains n au = true) ->
  exists adj',
    nx.del_from_each n us adj = Ok adj' /\
    keys adj' = keys adj /\
    forall x, get x adj' =
              if mem x us then option_map (remove n) (get x adj)
              else get x adj.
Proof.
  intros ND. revert adj.
  induction ND as [|u us Hu ND IH]; intros adj Hall.
  - exists adj. repeat split; reflexivity.
  - destruct (Hall u (or_introl eq_refl)) as (au & Eau & Cau).
    destruct (IH (setitem u (remove n au) adj)) as (adj' & E & Ek & Eg).
    { intros u' Hu'. rewrite get_setitem.
      rewrite key_eqb_neq by (intros ->; contradiction).
      apply Hall. now right. }
    exists adj'. split; [|split].
    + cbn [nx.del_from_each]. unfold getitem, delitem.
      rewrite Eau. cbn [bind]. rewrite Cau. cbn [bind]. exact E.
    + rewrite Ek, keys_setitem.
      now rewrite contains_get, Eau.
    + intros x. rewrite Eg, get_setitem. cbn [mem].
      destruct (key_eqb_spec x u) as [->|N]; cbn [orb].
      * apply mem_false in Hu. rewrite Hu, Eau. reflexivity.
      * reflexivity.
Qed.

Lemma nx_remove_node_ok n G :
  digraph_inv G -> In n (nx.nodes G) ->
  exists G',
    nx.remove_node n G = Ok G' /\
    digraph_inv G' /\
    nx.nodes G' = filter (fun x => negb (key_eqb n x)) (nx.nodes G) /\
    (forall a b,
        has_edge a b G' =
        negb (key_eqb a n) && negb (key_eqb b n) && has_edge a b G).
Proof.
  intros I Hn.
  destruct (inv_get_succ n I Hn) as [nbrs Enbrs].
  destruct (inv_get_pred n I Hn) as [p0 Ep0].
  assert (Cn : contains n (nx._node G) = true) by now apply in_nodes_contains.
  (* first loop: the predecessor entries of the successors of [n] *)
  destruct (@del_from_each_ok n (keys nbrs) (nx._pred G))
    as (pred1 & E1 & K1 & G1).
  { apply (inv_succ_nodup I _ Enbrs). }
  { intros u Hu.
    assert (has_edge n u G = true) as HE
      by (unfold has_edge; rewrite Enbrs; now apply contains_In).
    rewrite (inv_sym I) in HE. unfold has_pred_edge in HE.
    destruct (get u (nx._pred G)) as [pu|]; [|discriminate].
    now exists pu. }
  (* the entry of [n] after the first loop *)
  assert (Epn : get n pred1 = Some (remove n p0)).
  { rewrite G1, Ep0. cbn [option_map].
    destruct (mem n (keys nbrs)) eqn:M; [reflexivity|].
    f_equal. symmetry. apply remove_absent.
    assert (has_edge n n G = false) as HE
      by (unfold has_edge; now rewrite Enbrs).
    rewrite (inv_sym I) in HE. unfold has_pred_edge in HE.
    now rewrite Ep0 in HE. }
  assert (Hpn : forall u, mem u (keys (remove n p0)) =
                          negb (key_eqb u n) && contains u p0).
  { intros u. fold (contains u (remove n p0)). apply contains_remove. }
  (* second loop: the successor entries of the predecessors of [n] *)
  destruct (@del_from_each_ok n (keys (remove n p0)) (remove n (nx._succ G)))
    as (succ2 & E2 & K2 & G2).
  { apply NoDup_keys_remove. apply (inv_pred_nodup I _ Ep0). }
  { intros u Hu. apply mem_In in Hu. rewrite Hpn in Hu.
    apply andb_true_iff in Hu as [Hne Hc].
    rewrite get_remove. destruct (key_eqb u n); [discriminate|].
    assert (has_pred_edge u n G = true) as HE
      by (unfold has_pred_edge; now rewrite Ep0).
    rewrite <- (inv_sym I) in HE. unfold has_edge in HE.
    destruct (get u (nx._succ G)) as [su|]; [|discriminate].
    now exists su. }
  assert (C1 : contains n pred1 = true) by now rewrite contains_get, Epn.
  assert (HE : forall a b,
    has_edge a b {| nx._node := remove n (nx._node G);
                    nx._succ := succ2;
                    nx._pred := remove n pred1 |} =
    negb (key_eqb a n) && negb (key_eqb b n) && has_edge a b G).
  { intros a b. unfold has_edge; cbn [nx._succ].
    rewrite G2, get_remove, Hpn.
    destruct (key_eqb_spec a n) as [->|Na]; cbn [negb andb]; [reflexivity|].
    destruct (contains a p0) eqn:Ca.
    - assert (has_pred_edge a n G = true) as HX
        by (unfold has_pred_edge; now rewrite Ep0).
      rewrite <- (inv_sym I) in HX. unfold has_edge in HX.
      destruct (get a (nx._succ G)) as [sa|]; [|discriminate].
      cbn [option_map]. apply contains_remove.
    - destruct (key_eqb_spec b n) as [->|Nb]; cbn [negb andb]; [|reflexivity].
      assert (has_pred_edge a n G = false) as HX
        by (unfold has_pred_edge; now rewrite Ep0).
      rewrite <- (inv_sym I) in HX. exact HX. }
  assert (HP : forall a b,
    has_pred_edge a b {| nx._node := remove n (nx._node G);
                         nx._succ := succ2;
                         nx._pred := remove n pred1 |} =
    negb (key_eqb a n) && negb (key_eqb b n) && has_pred_edge a b G).
  { intros a b. unfold has_pred_edge; cbn [nx._pred].
    rewrite get_remove, G1.
    destruct (key_eqb_spec b n) as [->|Nb]; cbn [negb andb];
      [now rewrite andb_false_r|].
    rewrite andb_true_r.
    destruct (mem b (keys nbrs)) eqn:Mb.
    - destruct (get b (nx._pred G)) as [pb|]; cbn [option_map].
      + apply contains_remove.
      + now rewrite andb_false_r.
    - destruct (key_eqb_spec a n) as [->|Na]; cbn [negb andb]; [|reflexivity].
      assert (has_edge n b G = false) as HX
        by (unfold has_edge; now rewrite Enbrs).
      rewrite (inv_sym I) in HX. exact HX. }
  eexists. split; [|split; [|split]].
  - unfold nx.remove_node. rewrite Enbrs, Cn, E1. cbn [bind].
    unfold getitem. rewrite Epn. cbn [bind]. rewrite E2. cbn [bind].
    unfold delitem. rewrite C1. cbn [bind]. reflexivity.
  - constructor; unfold nx.nodes; cbn [nx._node nx._succ nx._pred].
    + apply NoDup_keys_remove. apply (inv_nodup I).
    + rewrite K2, !keys_remove. f_equal. apply (inv_succ_keys I).
    + rewrite !keys_remove, K1. f_equal. apply (inv_pred_keys I).
    + intros u s. rewrite G2, get_remove.
      destruct (key_eqb u n);
        [destruct (mem u (keys (remove n p0))); discriminate|].
      destruct (mem u (keys (remove n p0))).
      * destruct (get u (nx._succ G)) as [su|] eqn:Eu; [|discriminate].
        intros [= <-]. apply NoDup_keys_remove.
        apply (inv_succ_nodup I _ Eu).
      * apply (inv_succ_nodup I).
    + intros u p. rewrite get_remove, G1.
      destruct (key_eqb u n); [discriminate|].
      destruct (mem u (keys nbrs)).
      * destruct (get u (nx._pred G)) as [pu|] eqn:Eu; [|discriminate].
        intros [= <-]. apply NoDup_keys_remove.
        apply (inv_pred_nodup I _ Eu).
      * apply (inv_pred_nodup I).
    + intros a b. rewrite HE, HP. now rewrite (inv_sym I).
  - unfold nx.nodes; cbn [nx._node]. apply keys_remove.
  - exact HE.
Qed.

Lemma nx_remove_edge_ok u v G :
  digraph_inv G -> has_edge u v G = true ->
  exists G',
    nx.remove_edge u v G = Ok G' /\
    digraph_inv G' /\
    nx.nodes G' = nx.nodes G /\
    (forall a b,
        has_edge a b G' =
        negb (key_eqb a u && key_eqb b v) && has_edge a b G).
Proof.
  intros I HE.
  assert (HP := HE). rewrite (inv_sym I) in HP.
  unfold has_edge in HE. unfold has_pred_edge in HP.
  destruct (get u (nx._succ G)) as [su|] eqn:Esu; [|discriminate].
  destruct (get v (nx._pred G)) as [pv|] eqn:Epv; [|discriminate].
  assert (HE' : forall a b,
    has_edge a b {| nx._node := nx._node G;
                    nx._succ := setitem u (remove v su) (nx._succ G);
                    nx._pred := setitem v (remove u pv) (nx._pred G) |} =
    negb (key_eqb a u && key_eqb b v) && has_edge a b G).
  { intros a b. unfold has_edge; cbn [nx._succ]. rewrite get_setitem.
    destruct (key_eqb_spec a u) as [->|N]; cbn [andb negb]; [|reflexivity].
    rewrite Esu. apply contains_remove. }
  assert (HP' : forall a b,
    has_pred_edge a b {| nx._node := nx._node G;
                         nx._succ := setitem u (remove v su) (nx._succ G);
                         nx._pred := setitem v (remove u pv) (nx._pred G) |} =
    negb (key_eqb a u && key_eqb b v) && has_pred_edge a b G).
  { intros a b. unfold has_pred_edge; cbn [nx._pred]. rewrite get_setitem.
    destruct (key_eqb_spec b v) as [->|N].
    - rewrite Epv, andb_true_r. apply contains_remove.
    - now rewrite andb_false_r. }
  eexists. split; [|split; [|split]].
  - unfold nx.remove_edge. rewrite Esu, HE, Epv, HP. reflexivity.
  - constructor; unfold nx.nodes; cbn [nx._node nx._succ nx._pred].
    + apply (inv_nodup I).
    + rewrite keys_setitem, contains_get, Esu. apply (inv_succ_keys I).
    + rewrite keys_setitem, contains_get, Epv. apply (inv_pred_keys I).
    + intros a s. rewrite get_setitem. destruct (key_eqb a u).
      * intros [= <-]. apply NoDup_keys_remove.
        apply (inv_succ_nodup I _ Esu).
      * apply (inv_succ_nodup I).
    + intros a p. rewrite get_setitem. destruct (key_eqb a v).
      * intros [= <-]. apply NoDup_keys_remove.
        apply (inv_pred_nodup I _ Epv).
      * apply (inv_pred_nodup I).
    + intros a b. rewrite HE', HP'. now rewrite (inv_sym I).
  - reflexivity.
  - exact HE'.
Qed.

Lemma nx_remove_node_inv n G G' :
  digraph_inv G -> nx.remove_node n G = Ok G' ->
  digraph_inv G' /\
  nx.nodes G' = filter (fun x => negb (key_eqb n x)) (nx.nodes G).
Proof.
  intros I E.
  assert (Hn : In n (nx.nodes G)).
  { unfold nx.remove_node in E.
    destruct (get n (nx._succ G)); [|discriminate].
    destruct (contains n (nx._node G)) eqn:C; [|discriminate].
    now apply in_nodes_contains. }
  destruct (nx_remove_node_ok n I Hn) as (G'' & E' & I' & N' & _).
  rewrite E in E'. injection E' as <-. now split.
Qed.

Lemma nx_remove_edge_inv u v G G' :
  digraph_inv G -> nx.remove_edge u v G = Ok G' ->
  digraph_inv G' /\ nx.nodes G' = nx.nodes G.
Proof.
  intros I E.
  assert (HE : has_edge u v G = true).
  { unfold nx.remove_edge in E. unfold has_edge.
    destruct (get u (nx._succ G)); [|discriminate].
    now destruct (contains v d). }
  destruct (nx_remove_edge_ok u v I HE) as (G'' & E' & I' & N' & _).
  rewrite E in E'. injection E' as <-. now split.
Qed.

(** ** Every state of the store satisfies the invariant *)

Lemma graph_inv_init : graph_inv NetworkGraph_init.
Proof.
  constructor; [apply digraph_inv_empty | discriminate].
Qed.

Lemma add_node_ok g node :
  graph_inv g ->
  exists g', add_node g node = Ok g' /\ graph_inv g' /\
             graph g' = nx.ensure_node (NetworkNode.id node) (graph g) /\
             nodes g' = setitem (NetworkNode.id node) node (nodes g) /\
             edges g' = edges g /\
             attack_thresholds g' = attack_thresholds g.
Proof.
  intros [I R]. eexists. split.
  - unfold add_node. rewrite nx_add_node_ok by assumption. reflexivity.
  - split; [|fields; auto]. constructor; fields.
    + now apply ensure_node_inv.
    + intros n C. rewrite contains_setitem in C.
      apply orb_true_iff in C as [C|C].
      * destruct (key_eqb_spec n (NetworkNode.id node)); [|discriminate].
        subst. now apply ensure_node_In.
      * apply ensure_node_incl; auto.
Qed.

Lemma add_edge_ok g edge :
  graph_inv g ->
  exists g', add_edge g edge = Ok g' /\ graph_inv g' /\
             nx.add_edge (NetworkEdge.source edge) (NetworkEdge.target edge)
                         (graph g) = Ok (graph g') /\
             nodes g' = nodes g /\
             edges g' = setitem (NetworkEdge.source edge,
                                 NetworkEdge.target edge) edge (edges g) /\
             attack_thresholds g' = attack_thresholds g.
Proof.
  intros [I R].
  destruct (nx_add_edge_ok (NetworkEdge.source edge)
              (NetworkEdge.target edge) I) as (G' & E & I' & N & _).
  eexists. split.
  - unfold add_edge. rewrite E. reflexivity.
  - split; [|fields; auto]. constructor; fields; [assumption|].
    intros n C. rewrite N.
    do 2 (apply ensure_node_incl; [auto using ensure_node_inv|]). auto.
Qed.

Lemma reachable_inv g : reachable g -> graph_inv g.
Proof.
  induction 1 as [ | g node g' _ IH E | g edge g' _ IH E
                 | g n g' _ IH E | g s t g' _ IH E | g t _ IH ].
  - apply graph_inv_init.
  - destruct (add_node_ok node IH) as (g'' & E' & I' & _).
    congruence.
  - destruct (add_edge_ok edge IH) as (g'' & E' & I' & _).
    congruence.
  - destruct IH as [I R]. unfold remove_node in E.
    destruct (contains n (nodes g)) eqn:C.
    + destruct (nx.remove_node n (graph g)) as [G'|] eqn:EG; [|discriminate].
      injection E as <-.
      destruct (nx_remove_node_inv n I EG) as [I' N'].
      constructor; fields; [assumption|].
      intros m Cm. rewrite contains_remove in Cm.
      apply andb_true_iff in Cm as [Cm1 Cm2].
      rewrite N'. apply filter_In. split; [auto|].
      now rewrite key_eqb_sym.
    + injection E as <-. now constructor.
  - destruct IH as [I R]. unfold remove_edge in E.
    destruct (contains (s, t) (edges g)) eqn:C.
    + destruct (nx.remove_edge s t (graph g)) as [G'|] eqn:EG; [|discriminate].
      injection E as <-.
      destruct (nx_remove_edge_inv s t I EG) as [I' N'].
      constructor; fields; [assumption|].
      intros m Cm. rewrite N'. auto.
    + injection E as <-. now constructor.
  - destruct IH as [I R]. now constructor.
Qed.

(** ** Loops that append to a list of alerts *)

Lemma bind_Ok_inv {A B} (c : result A) (k : A -> result B) b :
  bind c k = Ok b -> exists a, c = Ok a /\ k a = Ok b.
Proof. destruct c as [a|e]; [now exists a | discriminate]. Qed.

Section ForEach.
Context {A B : Type} (body : A -> list B -> result (list B)).
Hypothesis body_app :
  forall x acc, body x acc = bind (body x []) (fun r => Ok (acc ++ r)).

Lemma for_each_app xs acc :
  for_each xs body acc = bind (for_each xs body []) (fun r => Ok (acc ++ r)).
Proof.
  revert acc. induction xs as [|x xs IH]; intros acc; cbn [for_each].
  - cbn. now rewrite app_nil_r.
  - rewrite (body_app x acc).
    destruct (body x []) as [r|e]; cbn [bind]; [|reflexivity].
    rewrite (IH (acc ++ r)), (IH r).
    destruct (for_each xs body []) as [rs|e]; cbn [bind]; [|reflexivity].
    now rewrite app_assoc.
Qed.

Lemma for_each_Forall2 xs rs :
  Forall2 (fun x r => body x [] = Ok r) xs rs ->
  for_each xs body [] = Ok (List.concat rs).
Proof.
  induction 1 as [|x r xs rs E _ IH]; cbn [for_each List.concat].
  - reflexivity.
  - rewrite E. cbn [bind]. rewrite for_each_app, IH. reflexivity.
Qed.

Lemma for_each_inv xs l :
  for_each xs body [] = Ok l ->
  exists rs, Forall2 (fun x r => body x [] = Ok r) xs rs /\ l = List.concat rs.
Proof.
  revert l. induction xs as [|x xs IH]; intros l E; cbn [for_each] in E.
  - injection E as <-. exists []. split; [constructor | reflexivity].
  - apply bind_Ok_inv in E as (r & Er & E).
    rewrite for_each_app in E.
    apply bind_Ok_inv in E as (l' & El' & E). injection E as <-.
    destruct (IH _ El') as (rs & F & ->).
    exists (r :: rs). split; [now constructor | reflexivity].
Qed.
End ForEach.

Lemma Forall2_concat_filter {A B} (P : A -> B -> Prop) (f : A -> bool) xs rs :
  Forall2 (fun x r => if f x then exists a, r = [a] /\ P x a else r = [])
          xs rs ->
  Forall2 P (filter f xs) (List.concat rs).
Proof.
  induction 1 as [|x r xs rs Hx _ IH]; cbn [filter List.concat].
  - constructor.
  - destruct (f x).
    + destruct Hx as (a & -> & Pa). now constructor.
    + subst r. exact IH.
Qed.

Lemma Forall2_of_forall {A B} (R : A -> B -> Prop) (f : A -> B) xs :
  (forall x, In x xs -> R x (f x)) -> Forall2 R xs (map f xs).
Proof.
  induction xs as [|x xs IH]; intros Hf; cbn [map]; constructor.
  - apply Hf. now left.
  - apply IH. intros y Hy. apply Hf. now right.
Qed.

(** ** Arithmetic of the confidence *)

Lemma py_min_Qmin a b : py_min a b = Qmin a b.
Proof.
  unfold py_min, Qmin, GenericMinMax.gmin.
  destruct (Qle_bool a b) eqn:E.
  - apply Qle_bool_iff in E.
    destruct (a ?= b)%Q eqn:C; try reflexivity.
    apply Qgt_alt in C. now apply Qlt_not_le in C.
  - destruct (a ?= b)%Q eqn:C; [| |reflexivity].
    + apply Qeq_alt in C.
      assert (Qle_bool a b = true); [|congruence].
      apply Qle_bool_iff. rewrite C. apply Qle_refl.
    + apply Qlt_alt in C.
      assert (Qle_bool a b = true); [|congruence].
      apply Qle_bool_iff. now apply Qlt_le_weak.
Qed.

Lemma py_truediv_Ok a b :
  b <> 0 -> py_truediv a b = Ok (inject_Z a / inject_Z b)%Q.
Proof.
  intros N. unfold py_truediv. now rewrite (proj2 (Z.eqb_neq b 0) N).
Qed.

Lemma clamped_ratio_le_1 m T : (clamped_ratio m T <= 1)%Q.
Proof. unfold clamped_ratio. apply Q.le_min_l. Qed.

Lemma ratio_nonneg m d : 0 <= m -> 0 <= d -> (0 <= inject_Z m / inject_Z d)%Q.
Proof.
  intros Hm Hd. unfold Qdiv.
  apply Qmult_le_0_compat.
  - change 0%Q with (inject_Z 0). now rewrite <- Zle_Qle.
  - apply Qinv_le_0_compat.
    change 0%Q with (inject_Z 0). now rewrite <- Zle_Qle.
Qed.

Lemma clamped_ratio_nonneg m T :
  0 <= m -> 0 <= T -> (0 <= clamped_ratio m T)%Q.
Proof.
  intros Hm HT. unfold clamped_ratio.
  apply Q.min_glb; [discriminate|].
  apply ratio_nonneg; lia.
Qed.

Lemma clamped_ratio_mono m m' T :
  0 < T -> m <= m' -> (clamped_ratio m T <= clamped_ratio m' T)%Q.
Proof.
  intros HT Hm. unfold clamped_ratio.
  apply Q.min_le_compat_l.
  unfold Qdiv. apply Qmult_le_compat_r.
  - now rewrite <- Zle_Qle.
  - apply Qinv_le_0_compat.
    change 0%Q with (inject_Z 0). rewrite <- Zle_Qle. lia.
Qed.

(** ** Degree and adjacency queries on a node of the graph *)

Lemma length_keys {K V} (d : dict K V) : List.length (keys d) = List.length d.
Proof. apply length_map. Qed.

Lemma pred_queries g n :
  graph_inv g -> In n (nx.nodes (graph g)) ->
  get_indegree g n = Ok (indegree g n) /\
  get_predecessors g n = Ok (predecessor_set g n).
Proof.
  intros [I _] Hn.
  destruct (inv_get_pred n I Hn) as [p Ep].
  unfold get_indegree, nx.in_degree, get_predecessors, nx.predecessors,
    indegree, predecessor_set, getitem.
  apply in_nodes_contains in Hn. rewrite Hn, Ep. cbn [bind].
  now rewrite length_keys.
Qed.

Lemma succ_queries g n :
  graph_inv g -> In n (nx.nodes (graph g)) ->
  get_outdegree g n = Ok (outdegree g n) /\
  get_neighbors g n = Ok (successor_set g n).
Proof.
  intros [I _] Hn.
  destruct (inv_get_succ n I Hn) as [s Es].
  unfold get_outdegree, nx.out_degree, get_neighbors, nx.neighbors,
    outdegree, successor_set, nx.successors, getitem.
  apply in_nodes_contains in Hn. rewrite Hn, Es. cbn [bind].
  now rewrite length_keys.
Qed.

Lemma Forall2_exists {A B} (R : A -> B -> Prop) xs :
  (forall x, In x xs -> exists r, R x r) -> exists rs, Forall2 R xs rs.
Proof.
  induction xs as [|x xs IH]; intros H.
  - exists []. constructor.
  - destruct (H x (or_introl eq_refl)) as [r Hr].
    destruct IH as [rs Hrs]; [intros y Hy; apply H; now right|].
    exists (r :: rs). now constructor.
Qed.

Lemma Forall2_and_inv {A B} (R S : A -> B -> Prop) xs rs :
  Forall2 (fun x r => R x r /\ S x r) xs rs ->
  Forall2 R xs rs /\ Forall2 S xs rs.
Proof.
  induction 1 as [|x r xs rs [HR HS] _ [IH1 IH2]]; split; constructor; auto.
Qed.

(** A loop whose body emits, for each element, the alerts [emit x]. *)
Lemma for_each_emits {A B} (body : A -> list B -> result (list B))
      (R : A -> list B -> Prop) xs :
  (forall x acc, body x acc = bind (body x []) (fun r => Ok (acc ++ r))) ->
  (forall x, In x xs -> exists r, body x [] = Ok r /\ R x r) ->
  exists rs, for_each xs body [] = Ok (List.concat rs) /\ Forall2 R xs rs.
Proof.
  intros BA H.
  destruct (Forall2_exists _ xs H) as [rs F].
  apply Forall2_and_inv in F as [F1 F2].
  exists rs. split; [now apply for_each_Forall2 | assumption].
Qed.

Ltac body_app_step :=
  match goal with
  | |- bind ?c _ = _ => destruct c; cbn [bind]
  | |- (if ?b then _ else _) = _ => destruct b; cbn [bind]
  end.

Ltac body_app_tac :=
  let x := fresh "x" in
  let acc := fresh "acc" in
  intros x acc; cbv zeta;
  repeat body_app_step;
  try reflexivity;
  try (now rewrite app_nil_r).

(** ** DDoS detection *)

Ltac name_body body :=
  match goal with
  | |- context [for_each _ ?b _] => set (body := b) in *
  | H : context [for_each _ ?b _] |- _ => set (body := b) in *
  end.

Lemma gtb_ltb a b : (a >? b) = (b <? a).
Proof. now rewrite Z.gtb_ltb. Qed.

Lemma confidence_eq m T :
  (py_min 1 (inject_Z m / inject_Z (T * 2)) == clamped_ratio m T)%Q.
Proof.
  rewrite py_min_Qmin. unfold clamped_ratio. now rewrite (Z.mul_comm T 2).
Qed.

Lemma detect_ddos_attack_emits g T :
  graph_inv g ->
  (T <> 0 \/ forall n, In n (nx.nodes (graph g)) -> indegree g n <= T) ->
  exists alerts,
    detect_ddos_attack g (Some T) = Ok alerts /\
    Forall2 (ddos_alert_for g T)
            (filter (fun n => T <? indegree g n) (nx.nodes (graph g)))
            alerts.
Proof.
  intros I HT. unfold detect_ddos_attack. name_body body.
  assert (BA : forall x acc,
             body x acc = bind (body x []) (fun r => Ok (acc ++ r)))
    by (unfold body; body_app_tac).
  destruct (@for_each_emits _ _ body
              (fun x r => if T <? indegree g x
                          then exists a, r = [a] /\ ddos_alert_for g T x a
                          else r = [])
              (nx.nodes (graph g)) BA) as (rs & E & F).
  { intros x Hx. destruct (pred_queries x I Hx) as [Ed Ep].
    unfold body. rewrite Ed. cbn [bind]. rewrite gtb_ltb.
    destruct (T <? indegree g x) eqn:C; [|now eexists].
    assert (T <> 0) as N.
    { destruct HT as [N|HT]; [assumption|].
      specialize (HT x Hx). apply Z.ltb_lt in C. lia. }
    rewrite Ep. cbn [bind]. rewrite py_truediv_Ok by lia. cbn [bind app].
    eexists. split; [reflexivity|]. eexists. split; [reflexivity|].
    constructor; cbn [attack_type source_nodes target_nodes confidence severity];
      try reflexivity.
    - apply confidence_eq.
    - now rewrite gtb_ltb, (Z.mul_comm T 2). }
  exists (List.concat rs). split; [exact E|].
  now apply Forall2_concat_filter.
Qed.

Lemma detect_ddos_attack_threshold g threshold :
  detect_ddos_attack g threshold =
  detect_ddos_attack g
    (Some (threshold_or threshold (ddos_indegree (attack_thresholds g)))).
Proof. now destruct threshold. Qed.

(** ** Port-scan detection *)

Lemma detect_port_scan_attack_emits g T :
  graph_inv g ->
  (T <> 0 \/ forall n, In n (nx.nodes (graph g)) -> outdegree g n <= T) ->
  exists alerts,
    detect_port_scan_attack g (Some T) = Ok alerts /\
    Forall2 (port_scan_alert_for g T)
            (filter (fun n => T <? outdegree g n) (nx.nodes (graph g)))
            alerts.
Proof.
  intros I HT. unfold detect_port_scan_attack. name_body body.
  assert (BA : forall x acc,
             body x acc = bind (body x []) (fun r => Ok (acc ++ r)))
    by (unfold body; body_app_tac).
  destruct (@for_each_emits _ _ body
              (fun x r => if T <? outdegree g x
                          then exists a, r = [a] /\ port_scan_alert_for g T x a
                          else r = [])
              (nx.nodes (graph g)) BA) as (rs & E & F).
  { intros x Hx. destruct (succ_queries x I Hx) as [Ed Ep].
    unfold body. rewrite Ed. cbn [bind]. rewrite gtb_ltb.
    destruct (T <? outdegree g x) eqn:C; [|now eexists].
    assert (T <> 0) as N.
    { destruct HT as [N|HT]; [assumption|].
      specialize (HT x Hx). apply Z.ltb_lt in C. lia. }
    rewrite Ep. cbn [bind]. rewrite py_truediv_Ok by lia. cbn [bind app].
    eexists. split; [reflexivity|]. eexists. split; [reflexivity|].
    constructor; cbn [attack_type source_nodes target_nodes confidence severity];
      try reflexivity.
    apply confidence_eq. }
  exists (List.concat rs). split; [exact E|].
  now apply Forall2_concat_filter.
Qed.

Lemma detect_port_scan_attack_threshold g threshold :
  detect_port_scan_attack g threshold =
  detect_port_scan_attack g
    (Some (threshold_or threshold (port_scan_outdegree (attack_thresholds g)))).
Proof. now destruct threshold. Qed.

(** ** C2 detection *)

Lemma detect_c2_attack_emits g :
  graph_inv g ->
  (c2_indegree_min (attack_thresholds g) <> 0 \/
   forall n, In n (nx.nodes (graph g)) -> c2_candidate g n = false) ->
  exists alerts,
    detect_c2_attack g = Ok alerts /\
    Forall2 (c2_alert_for g)
            (filter (c2_candidate g) (nx.nodes (graph g))) alerts.
Proof.
  intros I HT. unfold detect_c2_attack. name_body body.
  assert (BA : forall x acc,
             body x acc = bind (body x []) (fun r => Ok (acc ++ r)))
    by (unfold body; body_app_tac).
  destruct (@for_each_emits _ _ body
              (fun x r => if c2_candidate g x
                          then exists a, r = [a] /\ c2_alert_for g x a
                          else r = [])
              (nx.nodes (graph g)) BA) as (rs & E & F).
  { intros x Hx. destruct (pred_queries x I Hx) as [Ed Ep].
    destruct (succ_queries x I Hx) as [Eo _].
    unfold body. rewrite Ed, Eo. cbn [bind]. cbv zeta.
    rewrite Z.geb_leb. fold (c2_candidate g x).
    destruct (c2_candidate g x) eqn:C; [|now eexists].
    assert (c2_indegree_min (attack_thresholds g) <> 0) as N.
    { destruct HT as [N|HT]; [assumption|].
      specialize (HT x Hx). congruence. }
    rewrite Ep. cbn [bind]. rewrite py_truediv_Ok by lia. cbn [bind app].
    eexists. split; [reflexivity|]. eexists. split; [reflexivity|].
    constructor; cbn [attack_type source_nodes target_nodes confidence severity];
      try reflexivity.
    - apply confidence_eq.
    - now rewrite gtb_ltb, (Z.mul_comm _ 3). }
  exists (List.concat rs). split; [exact E|].
  now apply Forall2_concat_filter.
Qed.

(** ** Breadth-first search *)

Lemma bfs_expand_spec neighbors visited queue :
  exists fresh,
    bfs_expand neighbors visited queue = (visited ++ fresh, queue ++ fresh) /\
    (NoDup visited -> NoDup (visited ++ fresh)) /\
    (forall x, In x fresh -> In x neighbors).
Proof.
  revert visited queue.
  induction neighbors as [|n rest IH]; intros visited queue; cbn [bfs_expand].
  - exists []. rewrite !app_nil_r. repeat split; auto.
  - destruct (mem n visited) eqn:M.
    + destruct (IH visited queue) as (fresh & E & ND & Hin).
      exists fresh. repeat split; auto. intros x Hx. right. auto.
    + destruct (IH (visited ++ [n]) (queue ++ [n])) as (fresh & E & ND & Hin).
      exists (n :: fresh). rewrite E, <- !app_assoc. cbn [app].
      repeat split.
      * intros NDv. rewrite <- !app_assoc in ND. cbn [app] in ND.
        apply ND. apply NoDup_app; [assumption | repeat constructor; intros [] |].
        intros a Ha [<-|[]]. apply mem_false in M. contradiction.
      * intros x [<-|Hx]; [now left | right; auto].
Qed.

(** The budget of [_bfs_reachable] is never exhausted: every iteration
    takes one node off the queue, and a node enters the queue only when it
    is marked for the first time. *)
Lemma bfs_budget_enough g budget visited queue :
  graph_inv g ->
  NoDup visited ->
  incl visited (nx.nodes (graph g)) ->
  incl queue visited ->
  (List.length queue + List.length (nx.nodes (graph g))
   <= budget + List.length visited)%nat ->
  exists r, bfs_while budget g visited queue = Ok r /\
            incl visited r /\ NoDup r /\ incl r (nx.nodes (graph g)).
Proof.
  intros I. revert visited queue.
  induction budget as [|budget IH]; intros visited queue ND Hv Hq Hb.
  - destruct queue as [|c queue].
    + exists visited. cbn. repeat split; auto. apply incl_refl.
    + exfalso. pose proof (NoDup_incl_length ND Hv). cbn in Hb. lia.
  - destruct queue as [|c queue].
    + exists visited. cbn. repeat split; auto. apply incl_refl.
    + cbn [bfs_while].
      assert (Hc : In c (nx.nodes (graph g))) by (apply Hv, Hq; now left).
      destruct (succ_queries c I Hc) as [_ En]. rewrite En. cbn [bind].
      destruct (bfs_expand_spec (successor_set g c) visited queue)
        as (fresh & E & NDf & Hin).
      rewrite E.
      destruct (IH (visited ++ fresh) (queue ++ fresh)) as (r & Er & Hr).
      * auto.
      * intros x Hx. apply in_app_or in Hx as [Hx|Hx]; [auto|].
        apply Hin in Hx.
        assert (has_edge c x (graph g) = true) as HE.
        { unfold has_edge. unfold successor_set, nx.successors in Hx.
          destruct (get c (nx._succ (graph g))); [|contradiction].
          now apply contains_In. }
        apply (has_edge_nodes _ _ (inv_graph I) HE).
      * intros x Hx. apply in_or_app.
        apply in_app_or in Hx as [Hx|Hx]; [left | now right].
        apply Hq. now right.
      * rewrite !length_app. cbn [List.length] in Hb. lia.
      * exists r. split; [exact Er|]. destruct Hr as (Hi & NDr & Hn).
        repeat split; auto.
        intros x Hx. apply Hi. apply in_or_app. now left.
Qed.

Lemma _bfs_reachable_ok g start :
  graph_inv g -> In start (nx.nodes (graph g)) ->
  exists r, _bfs_reachable g start = Ok r /\
            In start r /\ NoDup r /\ incl r (nx.nodes (graph g)).
Proof.
  intros I Hs. unfold _bfs_reachable.
  destruct (@bfs_budget_enough g (List.length (nx.nodes (graph g)))
              [start] [start] I) as (r & E & Hi & ND & Hn).
  - repeat constructor. intros [].
  - intros x [<-|[]]. assumption.
  - apply incl_refl.
  - cbn. lia.
  - exists r. repeat split; auto. apply Hi. now left.
Qed.

(** On a directed path the search marks the nodes in path order. *)
Lemma bfs_while_path g tl : forall pre a budget,
  path_links g (a :: tl) ->
  NoDup (pre ++ a :: tl) ->
  (List.length tl < budget)%nat ->
  bfs_while budget g (pre ++ [a]) [a] = Ok (pre ++ a :: tl).
Proof.
  induction tl as [|b tl IH]; intros pre a budget [En L] ND Hb;
    (destruct budget as [|budget]; [cbn in Hb; lia|]);
    cbn [bfs_while]; rewrite En; cbn [bind bfs_expand].
  - now destruct budget.
  - assert (M : mem b (pre ++ [a]) = false).
    { apply mem_false. intros Hin.
      replace (pre ++ a :: b :: tl) with ((pre ++ [a]) ++ b :: tl) in ND
        by (rewrite <- app_assoc; reflexivity).
      apply NoDup_remove_2 in ND. apply ND. apply in_or_app. now left. }
    rewrite M. cbn [app].
    rewrite (IH (pre ++ [a]) b budget L).
    + now rewrite <- app_assoc.
    + now rewrite <- app_assoc.
    + cbn in Hb. lia.
Qed.

Lemma _bfs_reachable_path g n0 tl :
  directed_path g (n0 :: tl) -> _bfs_reachable g n0 = Ok (n0 :: tl).
Proof.
  intros [P ND L]. unfold _bfs_reachable.
  rewrite (Permutation_length P).
  apply (@bfs_while_path g tl [] n0); auto.
Qed.

Lemma detect_worm_propagation_threshold g start_node threshold :
  detect_worm_propagation g start_node threshold =
  detect_worm_propagation g start_node
    (Some (threshold_or threshold (worm_reachability (attack_thresholds g)))).
Proof. now destruct threshold. Qed.

(** ** Sample topologies are states of the store *)

Lemma run_reachable cs : forall g g',
  reachable g -> run cs g = Ok g' -> reachable g'.
Proof.
  induction cs as [|c cs IH]; intros g g' R E; cbn [run] in E.
  - now injection E as <-.
  - apply bind_Ok_inv in E as (g1 & E1 & E).
    apply (IH g1 g'); [|exact E].
    destruct c; cbn [execute] in E1.
    + eapply reach_add_node; eauto.
    + eapply reach_add_edge; eauto.
    + eapply reach_remove_node; eauto.
    + eapply reach_remove_edge; eauto.
    + injection E1 as <-. now apply reach_set_thresholds.
Qed.

Lemma built_reachable cs : reachable (built cs).
Proof.
  unfold built. destruct (run cs NetworkGraph_init) as [g|e] eqn:E.
  - eapply run_reachable; [apply reach_init | exact E].
  - apply reach_init.
Qed.

(** ** Worm propagation on a directed path *)

(** C1 (amended): on a directed path of N+1 nodes n0 -> ... -> nN with no
    other edge, worm detection started at a non-empty id n0 with a non-zero
    threshold T emits exactly one alert when T < N+1, whose target list
    holds, in some order, the N+1 nodes of the path (the start node
    included) and so has length N+1, with confidence min(1, (N+1)/(2T)) and
    severity high iff N+1 > 2T; it emits no alert when T >= N+1. *)
Theorem worm_on_directed_path (g : NetworkGraph) (n0 : string)
    (tl : list string) (threshold : option Z) :
  let N := Z.of_nat (List.length tl) in
  let T := threshold_or threshold (worm_reachability (attack_thresholds g)) in
  directed_path g (n0 :: tl) ->
  n0 <> "" ->
  T <> 0 ->
  (T < N + 1 ->
   exists alert,
     detect_worm_propagation g (Some n0) threshold = Ok [alert] /\
     attack_type alert = WORM /\
     source_nodes alert = [n0] /\
     Permutation (target_nodes alert) (n0 :: tl) /\
     Z.of_nat (List.length (target_nodes alert)) = N + 1 /\
     (confidence alert == clamped_ratio (N + 1) T)%Q /\
     severity alert = if 2 * T <? N + 1 then high else medium) /\
  (N + 1 <= T ->
   detect_worm_propagation g (Some n0) threshold = Ok []).
Proof.
  intros N T P Hn0 HT.
  rewrite detect_worm_propagation_threshold. fold T.
  assert (Hmem : mem n0 (nx.nodes (graph g)) = true).
  { apply mem_In. apply (Permutation_in _ (Permutation_sym (path_nodes P))).
    now left. }
  assert (Hlen : Z.of_nat (List.length (n0 :: tl)) = N + 1)
    by (cbn [List.length]; unfold N; lia).
  assert (E : detect_worm_propagation g (Some n0) (Some T) =
              if T <? N + 1 then
                Ok [ {| attack_type := WORM;
                        source_nodes := [n0];
                        target_nodes := n0 :: tl;
                        confidence :=
                          py_min 1 (inject_Z (N + 1) / inject_Z (T * 2));
                        timestamp := 0;
                        description :=
                          ("Worm propagation detected: " ++ py_str (N + 1) ++
                           " nodes reachable from " ++ n0)%string;
                        severity :=
                          if N + 1 >? T * 2 then high else medium |} ]
              else Ok []).
  { unfold detect_worm_propagation.
    destruct n0 as [|c s]; [congruence|].
    cbn [bind for_each]. rewrite Hmem. cbn [negb].
    rewrite (_bfs_reachable_path P). cbn [bind]. rewrite Hlen.
    rewrite gtb_ltb. destruct (T <? N + 1); [|reflexivity].
    rewrite py_truediv_Ok by lia. reflexivity. }
  rewrite E. split.
  - intros Hlt. rewrite (proj2 (Z.ltb_lt _ _) Hlt).
    eexists. split; [reflexivity|].
    cbn [attack_type source_nodes target_nodes confidence severity].
    split; [reflexivity|]. split; [reflexivity|].
    split; [apply Permutation_refl|]. split; [exact Hlen|]. split.
    + apply confidence_eq.
    + now rewrite gtb_ltb, (Z.mul_comm T 2).
  - intros Hge. now rewrite (proj2 (Z.ltb_ge _ _) Hge).
Qed.

Lemma path_abc_is_path : directed_path path_abc ["a"; "b"; "c"].
Proof.
  constructor.
  - apply Permutation_refl.
  - repeat constructor; cbn; intuition discriminate.
  - cbn. repeat split; reflexivity.
Qed.

Lemma worm_on_directed_path_witness :
  directed_path path_abc ["a"; "b"; "c"] /\
  "a" <> "" /\
  1 <> 0 /\
  exists alert,
    detect_worm_propagation path_abc (Some "a") (Some 1) = Ok [alert] /\
    Permutation (target_nodes alert) ["a"; "b"; "c"] /\
    List.length (target_nodes alert) = 3%nat.
Proof.
  split; [exact path_abc_is_path|].
  split; [discriminate|].
  split; [discriminate|].
  destruct (@worm_on_directed_path path_abc "a" ["b"; "c"] (Some 1)
              path_abc_is_path) as [H _]; try discriminate.
  destruct H as (alert & E & _ & _ & Ht & _); [reflexivity|].
  exists alert. split; [exact E|]. split; [exact Ht|].
  exact (Permutation_length Ht).
Defined.

(** C1 as stated fails on the path a -> b -> c (N = 2): with T = 1 < N the
    alert lists 3 reachable nodes, not 2, and with T = 2 >= N an alert is
    still emitted. *)
Lemma worm_on_directed_path_counterexample :
  (exists alert,
     detect_worm_propagation path_abc (Some "a") (Some 1) = Ok [alert] /\
     List.length (target_nodes alert) = 3%nat) /\
  (exists alert,
     detect_worm_propagation path_abc (Some "a") (Some 2) = Ok [alert]).
Proof.
  split; eexists; [split|]; reflexivity.
Qed.

(** ** DDoS detection: one alert per node above the threshold *)

Lemma Forall2_nil_l {A B} (R : A -> B -> Prop) l : Forall2 R [] l -> l = [].
Proof. now inversion 1. Qed.

Lemma filter_nil_forall {A} (f : A -> bool) l :
  filter f l = [] -> forall x, In x l -> f x = false.
Proof.
  intros E x Hx. destruct (f x) eqn:F; [|reflexivity].
  assert (In x (filter f l)) as H by (apply filter_In; now split).
  rewrite E in H. destruct H.
Qed.

(** C4 (amended): for every state of the store and every non-zero threshold
    T, DDoS detection returns exactly one alert per node with indegree
    strictly greater than T, in node order (sources = the predecessor set
    of the node, target = the node, confidence = min(1, indegree/(2T)),
    severity high iff indegree > 2T); for every threshold, zero included, it
    returns the empty list when no node exceeds T, in particular on the
    empty graph. *)
Theorem ddos_one_alert_per_node (g : NetworkGraph) (threshold : option Z) :
  let T := threshold_or threshold (ddos_indegree (attack_thresholds g)) in
  let hot := filter (fun n => T <? indegree g n) (nx.nodes (graph g)) in
  reachable g ->
  NoDup hot /\
  (T <> 0 ->
   exists alerts,
     detect_ddos_attack g threshold = Ok alerts /\
     Forall2 (ddos_alert_for g T) hot alerts) /\
  (hot = [] -> detect_ddos_attack g threshold = Ok []) /\
  (nx.nodes (graph g) = [] -> detect_ddos_attack g threshold = Ok []).
Proof.
  intros T hot R. apply reachable_inv in R.
  rewrite detect_ddos_attack_threshold. fold T.
  assert (Hempty : hot = [] -> detect_ddos_attack g (Some T) = Ok []).
  { intros E.
    destruct (@detect_ddos_attack_emits g T R) as (alerts & Ea & F).
    - right. intros n Hn.
      pose proof (filter_nil_forall _ _ E n Hn) as H. cbv beta in H.
      apply Z.ltb_ge in H. exact H.
    - fold hot in F. rewrite E in F. apply Forall2_nil_l in F. now subst. }
  split; [|split; [|split]].
  - apply NoDup_filter. apply (inv_nodup (inv_graph R)).
  - intros HT. apply detect_ddos_attack_emits; auto.
  - exact Hempty.
  - intros E. apply Hempty. unfold hot. now rewrite E.
Qed.

Lemma ddos_one_alert_per_node_witness :
  reachable fan_in /\
  exists alerts,
    detect_ddos_attack fan_in (Some 1) = Ok alerts /\
    Forall2 (ddos_alert_for fan_in 1) ["c"] alerts.
Proof.
  split; [apply built_reachable|].
  destruct (@ddos_one_alert_per_node fan_in (Some 1) (built_reachable _))
    as (_ & H & _).
  apply H. discriminate.
Defined.

(** C4 as stated fails at T = 0: on the graph a -> b, node b has indegree
    1 > 0, and the detector raises [ZeroDivisionError] instead of returning
    an alert for it. *)
Lemma ddos_one_alert_per_node_counterexample :
  filter (fun n => 0 <? indegree one_edge n) (nx.nodes (graph one_edge))
    = ["b"] /\
  detect_ddos_attack one_edge (Some 0) = Raise ZeroDivisionError.
Proof. split; reflexivity. Qed.

(** ** Port-scan detection: one medium alert per node above the threshold *)

(** C7 (amended): for every state of the store and every non-zero threshold
    T, port-scan detection returns exactly one alert per node with
    outdegree strictly greater than T, in node order, with source = that
    node, targets = its successor set, confidence = min(1, outdegree/(2T))
    and severity medium; no alert of this detector is ever of high
    severity. *)
Theorem port_scan_one_alert_per_node (g : NetworkGraph)
    (threshold : option Z) :
  let T :=
    threshold_or threshold (port_scan_outdegree (attack_thresholds g)) in
  let hot := filter (fun n => T <? outdegree g n) (nx.nodes (graph g)) in
  reachable g ->
  NoDup hot /\
  (T <> 0 ->
   exists alerts,
     detect_port_scan_attack g threshold = Ok alerts /\
     Forall2 (port_scan_alert_for g T) hot alerts) /\
  (forall alerts a,
     detect_port_scan_attack g threshold = Ok alerts -> In a alerts ->
     severity a = medium).
Proof.
  intros T hot R. apply reachable_inv in R.
  rewrite detect_port_scan_attack_threshold. fold T.
  split; [|split].
  - apply NoDup_filter. apply (inv_nodup (inv_graph R)).
  - intros HT. apply detect_port_scan_attack_emits; auto.
  - intros alerts a E Ha. unfold detect_port_scan_attack in E.
    name_body body.
    assert (BA : forall x acc,
               body x acc = bind (body x []) (fun r => Ok (acc ++ r)))
      by (unfold body; body_app_tac).
    destruct (for_each_inv body BA _ E) as (rs & F & ->).
    apply in_concat in Ha as (r & Hr & Ha).
    assert (exists x, body x [] = Ok r) as [x Ex].
    { clear -F Hr. induction F as [|x r' xs rs Hx _ IH].
      - destruct Hr.
      - destruct Hr as [<-|Hr]; [now exists x | auto]. }
    unfold body in Ex.
    destruct (get_outdegree g x) as [d|]; cbn [bind] in Ex; [|discriminate].
    destruct (d >? T).
    + destruct (get_neighbors g x); cbn [bind] in Ex; [|discriminate].
      destruct (py_truediv d (T * 2)); cbn [bind] in Ex; [|discriminate].
      injection Ex as <-. destruct Ha as [<-|[]]. reflexivity.
    + injection Ex as <-. destruct Ha.
Qed.

Lemma port_scan_one_alert_per_node_witness :
  reachable fan_out /\
  exists alerts,
    detect_port_scan_attack fan_out (Some 1) = Ok alerts /\
    Forall2 (port_scan_alert_for fan_out 1) ["a"] alerts.
Proof.
  split; [apply built_reachable|].
  destruct (@port_scan_one_alert_per_node fan_out (Some 1)
              (built_reachable _)) as (_ & H & _).
  apply H. discriminate.
Defined.

(** C7 as stated fails at T = 0: on the graph a -> b, node a has outdegree
    1 > 0, and the detector raises [ZeroDivisionError] instead of returning
    an alert for it. *)
Lemma port_scan_one_alert_per_node_counterexample :
  filter (fun n => 0 <? outdegree one_edge n) (nx.nodes (graph one_edge))
    = ["a"] /\
  detect_port_scan_attack one_edge (Some 0) = Raise ZeroDivisionError.
Proof. split; reflexivity. Qed.

(** ** C2 detection on a star *)

Lemma filter_unique {A} (f : A -> bool) (x : A) l :
  NoDup l -> In x l -> f x = true ->
  (forall y, In y l -> y <> x -> f y = false) ->
  filter f l = [x].
Proof.
  induction 1 as [|a l Ha ND IH]; intros Hx Fx Hy; [destruct Hx|].
  cbn [filter]. destruct Hx as [->|Hx].
  - rewrite Fx. f_equal.
    assert (forall y, In y l -> f y = false) as Hall.
    { intros y Yl. apply Hy; [now right|]. intros ->. contradiction. }
    clear -Hall. induction l as [|b l IH]; [reflexivity|].
    cbn [filter]. rewrite (Hall b (or_introl eq_refl)).
    apply IH. intros y Yl. apply Hall. now right.
  - rewrite (Hy a (or_introl eq_refl)) by (intros ->; contradiction).
    apply IH; auto. intros y Yl. apply Hy. now right.
Qed.

(** C6 (amended): on a star whose M leaves each have one edge into a hub
    with no outgoing edge, with 1 <= c2_indegree_min <= M and the hub's
    outdegree <= c2_outdegree_max, C2 detection yields exactly one alert:
    its sources are the M leaves, its target is the hub, its confidence is
    min(1, M/(2*c2_indegree_min)) and its severity is high iff
    M > 3*c2_indegree_min. *)
Theorem c2_on_star (g : NetworkGraph) (hub : string) (leaves : list string) :
  let M := Z.of_nat (List.length leaves) in
  let min_indegree := c2_indegree_min (attack_thresholds g) in
  let max_outdegree := c2_outdegree_max (attack_thresholds g) in
  reachable g ->
  star_graph g hub leaves ->
  1 <= min_indegree ->
  min_indegree <= M ->
  outdegree g hub <= max_outdegree ->
  exists alert,
    detect_c2_attack g = Ok [alert] /\
    attack_type alert = C2 /\
    Permutation (source_nodes alert) leaves /\
    target_nodes alert = [hub] /\
    (confidence alert == clamped_ratio M min_indegree)%Q /\
    severity alert = if 3 * min_indegree <? M then high else medium.
Proof.
  intros M min_indegree max_outdegree R S Hmin HM Hout.
  apply reachable_inv in R.
  assert (Hin : indegree g hub = M).
  { unfold indegree, M. now rewrite (Permutation_length (star_hub_in S)). }
  assert (ND : NoDup (nx.nodes (graph g))) by apply (inv_nodup (inv_graph R)).
  assert (Hf : filter (c2_candidate g) (nx.nodes (graph g)) = [hub]).
  { apply filter_unique; auto.
    - apply (Permutation_in _ (Permutation_sym (star_nodes S))). now left.
    - unfold c2_candidate. rewrite Hin. fold min_indegree max_outdegree.
      apply andb_true_iff. split; apply Z.leb_le; assumption.
    - intros y Hy Ny.
      apply (Permutation_in _ (star_nodes S)) in Hy.
      destruct Hy as [->|Hy]; [congruence|].
      unfold c2_candidate, indegree. rewrite (star_leaf_in S _ Hy).
      fold min_indegree. cbn [List.length Z.of_nat].
      rewrite (proj2 (Z.leb_gt _ _)) by lia. reflexivity. }
  destruct (@detect_c2_attack_emits g R) as (alerts & E & F).
  { left. fold min_indegree. lia. }
  rewrite Hf in F. inversion F as [|x a xs alerts' Ha F' ]; subst.
  apply Forall2_nil_l in F'. subst alerts'.
  exists a. split; [exact E|].
  destruct Ha as [Hk Hs Ht Hc Hv].
  repeat split; auto.
  - rewrite Hs. apply (star_hub_in S).
  - rewrite Hc, Hin. reflexivity.
  - rewrite Hv, Hin. reflexivity.
Qed.

Lemma star_abc_is_star : star_graph star_abc "h" ["a"; "b"; "c"].
Proof.
  constructor.
  - change (nx.nodes (graph star_abc)) with ["a"; "h"; "b"; "c"].
    apply perm_swap.
  - repeat constructor; cbn; intuition discriminate.
  - apply Permutation_refl.
  - reflexivity.
  - intros l [<-|[<-|[<-|[]]]]; reflexivity.
  - intros l [<-|[<-|[<-|[]]]]; reflexivity.
Qed.

Lemma c2_on_star_witness :
  reachable star_abc /\
  star_graph star_abc "h" ["a"; "b"; "c"] /\
  1 <= 2 /\
  2 <= 3 /\
  outdegree star_abc "h" <= 5 /\
  exists alert,
    detect_c2_attack star_abc = Ok [alert] /\
    Permutation (source_nodes alert) ["a"; "b"; "c"] /\
    target_nodes alert = ["h"].
Proof.
  split; [apply built_reachable|].
  split; [exact star_abc_is_star|].
  split; [discriminate|].
  split; [discriminate|].
  split; [discriminate|].
  destruct (@c2_on_star star_abc "h" ["a"; "b"; "c"]
              (built_reachable _) star_abc_is_star)
    as (alert & E & _ & Hs & Ht & _); try discriminate.
  exists alert. repeat split; assumption.
Defined.

(** C6 as stated fails when [c2_indegree_min] is not positive.  On the star
    a -> b (M = 1, hub outdegree 0 <= 5): with [c2_indegree_min = 0] the
    detector raises [ZeroDivisionError]; with [c2_indegree_min = -1] the
    leaf qualifies as well and two alerts are returned. *)
Lemma c2_on_star_counterexample :
  detect_c2_attack star_min_zero = Raise ZeroDivisionError /\
  exists alerts,
    detect_c2_attack star_min_negative = Ok alerts /\
    map target_nodes alerts = [["a"]; ["b"]].
Proof.
  split; [reflexivity|]. eexists. split; reflexivity.
Qed.

(** ** Removing a node *)

Lemma remove_node_present g node_id :
  graph_inv g -> contains node_id (nodes g) = true ->
  exists g',
    remove_node g node_id = Ok g' /\
    graph_inv g' /\
    nx.nodes (graph g') =
      filter (fun x => negb (key_eqb node_id x)) (nx.nodes (graph g)) /\
    nodes g' = remove node_id (nodes g) /\
    (forall a b,
        has_edge a b (graph g') =
        negb (key_eqb a node_id) && negb (key_eqb b node_id) &&
        has_edge a b (graph g)).
Proof.
  intros I C. pose proof (inv_records I _ C) as Hn.
  destruct (nx_remove_node_ok node_id (inv_graph I) Hn)
    as (G' & E & I' & N & HE).
  eexists. split; [|split; [|split; [|split]]].
  - unfold remove_node. rewrite C, E. reflexivity.
  - constructor; fields; [assumption|].
    intros m Cm. rewrite contains_remove in Cm.
    apply andb_true_iff in Cm as [Cm1 Cm2].
    rewrite N. apply filter_In. split.
    + now apply (inv_records I).
    + now rewrite key_eqb_sym.
  - exact N.
  - reflexivity.
  - exact HE.
Qed.

Lemma remove_node_absent g node_id :
  contains node_id (nodes g) = false -> remove_node g node_id = Ok g.
Proof. intros C. unfold remove_node. now rewrite C. Qed.

Lemma ltb_nonneg_false T : 0 <= T -> (T <? 0) = false.
Proof. intros H. apply Z.ltb_ge. exact H. Qed.

(** What [remove_node] does to the adjacency graph: for every state of the
    store, removing a node whose id is in the node-record map removes that
    node and every edge incident to it in either direction from the graph,
    keeps every other node and edge of it, and is a no-op (not an error)
    when the id is not in the node-record map; on the path a -> b -> c
    whose nodes were registered with add_node, removing b leaves zero edges
    in the graph and no DDoS or port-scan alert for every threshold
    T >= 0. *)
Lemma remove_node_in_graph (g : NetworkGraph)
    (node_id : string) :
  reachable g ->
  (contains node_id (nodes g) = true ->
   exists g',
     remove_node g node_id = Ok g' /\
     ~ In node_id (nx.nodes (graph g')) /\
     contains node_id (nodes g') = false /\
     (forall u, has_edge u node_id (graph g') = false /\
                has_edge node_id u (graph g') = false) /\
     (forall m, m <> node_id ->
                (In m (nx.nodes (graph g')) <-> In m (nx.nodes (graph g)))) /\
     (forall a b, a <> node_id -> b <> node_id ->
                  has_edge a b (graph g') = has_edge a b (graph g))) /\
  (contains node_id (nodes g) = false -> remove_node g node_id = Ok g) /\
  (remove_node path_abc "b" = Ok path_abc_without_b /\
   nx.number_of_edges (graph path_abc_without_b) = 0 /\
   forall T, 0 <= T ->
     detect_ddos_attack path_abc_without_b (Some T) = Ok [] /\
     detect_port_scan_attack path_abc_without_b (Some T) = Ok []).
Proof.
  intros R. apply reachable_inv in R. split; [|split; [|split; [|split]]].
  - intros C.
    destruct (remove_node_present node_id R C) as (g' & E & I' & N & M & HE).
    exists g'. split; [exact E|]. split; [|split; [|split; [|split]]].
    + rewrite N. intros H. apply filter_In in H as [_ H].
      now rewrite key_eqb_refl in H.
    + rewrite M, contains_remove, key_eqb_refl. reflexivity.
    + intros u. rewrite !HE, key_eqb_refl. cbn [negb andb].
      now rewrite andb_false_r.
    + intros m Hm. rewrite N, filter_In.
      rewrite (key_eqb_neq (k := node_id) (k' := m)) by congruence.
      cbn [negb]. tauto.
    + intros a b Ha Hb. rewrite HE.
      now rewrite !key_eqb_neq by assumption.
  - apply remove_node_absent.
  - reflexivity.
  - reflexivity.
  - intros T HT.
    assert (I : graph_inv path_abc_without_b)
      by (apply reachable_inv, built_reachable).
    split.
    + destruct (@detect_ddos_attack_emits path_abc_without_b T I)
        as (alerts & E & F).
      * right. intros n [<-|[<-|[]]]; cbn; assumption.
      * change (nx.nodes (graph path_abc_without_b)) with ["a"; "c"] in F.
        cbn [filter] in F.
        change (indegree path_abc_without_b "a") with 0 in F.
        change (indegree path_abc_without_b "c") with 0 in F.
        rewrite (ltb_nonneg_false HT) in F.
        apply Forall2_nil_l in F. now subst.
    + destruct (@detect_port_scan_attack_emits path_abc_without_b T I)
        as (alerts & E & F).
      * right. intros n [<-|[<-|[]]]; cbn; assumption.
      * change (nx.nodes (graph path_abc_without_b)) with ["a"; "c"] in F.
        cbn [filter] in F.
        change (outdegree path_abc_without_b "a") with 0 in F.
        change (outdegree path_abc_without_b "c") with 0 in F.
        rewrite (ltb_nonneg_false HT) in F.
        apply Forall2_nil_l in F. now subst.
Qed.

(** [remove_node] never touches the edge records: the edges of a removed
    node stay in [self.edges] and in the [edges] entry of [to_dict], while
    the edge count of the graph drops. *)
Lemma remove_node_keeps_edge_records g node_id g' :
  remove_node g node_id = Ok g' -> edges g' = edges g.
Proof.
  unfold remove_node. destruct (contains node_id (nodes g)).
  - destruct (nx.remove_node node_id (graph g)); cbn [bind]; [|discriminate].
    now intros [= <-].
  - now intros [= <-].
Qed.

(** C8: the claim holds of the graph but not of the store.  On the path
    a -> b -> c whose three nodes were registered with add_node,
    [remove_node("b")] returns, the node b and both edges are gone from the
    graph and the edge count is 0, but the edge records (a, b) and (b, c)
    are still in [self.edges] and [to_dict] still lists both edges;
    [remove_edge], the sibling operation, does delete the record of the
    edge that it removes. *)
Theorem remove_node_leaves_edge_records :
  remove_node path_abc "b" = Ok path_abc_without_b /\
  ~ In "b" (nx.nodes (graph path_abc_without_b)) /\
  has_edge "a" "b" (graph path_abc_without_b) = false /\
  has_edge "b" "c" (graph path_abc_without_b) = false /\
  edge_count (dict_stats (to_dict path_abc_without_b)) = 0 /\
  keys (edges path_abc_without_b) = [("a", "b"); ("b", "c")] /\
  map (fun e => (NetworkEdge.source e, NetworkEdge.target e))
      (dict_edges (to_dict path_abc_without_b)) = [("a", "b"); ("b", "c")] /\
  exists g',
    remove_edge path_abc "a" "b" = Ok g' /\
    keys (edges g') = [("b", "c")] /\
    edge_count (dict_stats (to_dict g')) = 1.
Proof.
  split; [reflexivity|].
  split; [cbn; intuition discriminate|].
  repeat (split; [reflexivity|]).
  eexists. split; [reflexivity|]. split; reflexivity.
Qed.

(** ** Nodes that only [add_edge] created *)

Lemma execute_keeps_unrecorded c g g' u :
  execute g c = Ok g' ->
  (forall node, c = AddNode node -> NetworkNode.id node <> u) ->
  contains u (nodes g) = false -> contains u (nodes g') = false.
Proof.
  intros E Hc C. destruct c; cbn [execute] in E.
  - unfold add_node in E. apply bind_Ok_inv in E as (G' & _ & E).
    injection E as <-. fields. rewrite contains_setitem, C.
    rewrite key_eqb_neq; [reflexivity|].
    intros ->. now apply (Hc node).
  - unfold add_edge in E. apply bind_Ok_inv in E as (G' & _ & E).
    now injection E as <-.
  - unfold remove_node in E. destruct (contains node_id (nodes g)).
    + apply bind_Ok_inv in E as (G' & _ & E). injection E as <-. fields.
      rewrite contains_remove, C. apply andb_false_r.
    + now injection E as <-.
  - unfold remove_edge in E. destruct (contains (source, target) (edges g)).
    + apply bind_Ok_inv in E as (G' & _ & E). now injection E as <-.
    + now injection E as <-.
  - now injection E as <-.
Qed.

(** A node id that no [add_node] command carried has no node record. *)
Lemma never_added_unrecorded cs u : forall g g',
  run cs g = Ok g' ->
  (forall node, In (AddNode node) cs -> NetworkNode.id node <> u) ->
  contains u (nodes g) = false -> contains u (nodes g') = false.
Proof.
  induction cs as [|c cs IH]; intros g g' E Hc C; cbn [run] in E.
  - now injection E as <-.
  - apply bind_Ok_inv in E as (g1 & E1 & E).
    apply (IH g1 g' E).
    + intros node Hn. apply Hc. now right.
    + apply (@execute_keeps_unrecorded c g g1 u E1); [|exact C].
      intros node ->. apply Hc. now left.
Qed.

Lemma has_edge_outdegree g u v :
  has_edge u v (graph g) = true -> 1 <= outdegree g u.
Proof.
  unfold has_edge, outdegree, successor_set, nx.successors.
  destruct (get u (nx._succ (graph g))) as [s|]; [|discriminate].
  intros C. apply contains_In in C.
  destruct (keys s); [destruct C | cbn [List.length]; lia].
Qed.

Lemma has_pred_edge_indegree g u v :
  has_pred_edge u v (graph g) = true -> 1 <= indegree g v.
Proof.
  unfold has_pred_edge, indegree, predecessor_set.
  destruct (get v (nx._pred (graph g))) as [p|]; [|discriminate].
  intros C. apply contains_In in C.
  destruct (keys p); [destruct C | cbn [List.length]; lia].
Qed.

(** C10: when an edge is added whose endpoint ids no add_node command ever
    carried, both endpoints become nodes of the graph that every detector
    iterates over, the degree queries count the new edge, and a later
    remove_node on either endpoint is a silent no-op that returns the store
    unchanged, node and incident edges included: removal is guarded by the
    node-record map, and the endpoints have no record. *)
Theorem edge_only_nodes_survive_remove_node (cs : list command)
    (g : NetworkGraph) (edge : NetworkEdge.t) :
  let u := NetworkEdge.source edge in
  let v := NetworkEdge.target edge in
  run cs NetworkGraph_init = Ok g ->
  (forall node, In (AddNode node) cs ->
                NetworkNode.id node <> u /\ NetworkNode.id node <> v) ->
  exists g',
    add_edge g edge = Ok g' /\
    In u (nx.nodes (graph g')) /\
    In v (nx.nodes (graph g')) /\
    has_edge u v (graph g') = true /\
    get_outdegree g' u = Ok (outdegree g' u) /\ 1 <= outdegree g' u /\
    get_indegree g' v = Ok (indegree g' v) /\ 1 <= indegree g' v /\
    contains u (nodes g') = false /\
    contains v (nodes g') = false /\
    remove_node g' u = Ok g' /\
    remove_node g' v = Ok g'.
Proof.
  intros u v E Hc.
  assert (R : reachable g) by (eapply run_reachable; [apply reach_init | eauto]).
  assert (Cu : contains u (nodes g) = false).
  { apply (@never_added_unrecorded cs u NetworkGraph_init g E); [|reflexivity].
    intros node Hn. apply (Hc node Hn). }
  assert (Cv : contains v (nodes g) = false).
  { apply (@never_added_unrecorded cs v NetworkGraph_init g E); [|reflexivity].
    intros node Hn. apply (Hc node Hn). }
  pose proof (reachable_inv R) as I.
  destruct (add_edge_ok edge I) as (g' & E' & I' & EG & En & _).
  destruct (nx_add_edge_ok u v (inv_graph I)) as (G' & EG' & _ & _ & HE).
  fold u v in EG. rewrite EG in EG'. injection EG' as <-.
  assert (Huv : has_edge u v (graph g') = true)
    by (rewrite HE, !key_eqb_refl; reflexivity).
  destruct (has_edge_nodes _ _ (inv_graph I') Huv) as [Hu Hv].
  exists g'. split; [exact E'|].
  repeat match goal with |- _ /\ _ => split end; auto.
  - apply (succ_queries u I' Hu).
  - apply (has_edge_outdegree _ _ _ Huv).
  - apply (pred_queries v I' Hv).
  - apply (has_pred_edge_indegree g' u v).
    now rewrite <- (inv_sym (inv_graph I')).
  - now rewrite En.
  - now rewrite En.
  - apply remove_node_absent. now rewrite En.
  - apply remove_node_absent. now rewrite En.
Qed.

Lemma edge_only_nodes_survive_remove_node_witness :
  run [host "x"] NetworkGraph_init = Ok (built [host "x"]) /\
  (forall node, In (AddNode node) [host "x"] ->
                NetworkNode.id node <> "a" /\ NetworkNode.id node <> "b") /\
  exists g',
    add_edge (built [host "x"])
             (NetworkEdge.mk "a" "b" 1 "TCP" 80 0 []) = Ok g' /\
    In "a" (nx.nodes (graph g')) /\
    remove_node g' "a" = Ok g'.
Proof.
  assert (H : forall node, In (AddNode node) [host "x"] ->
                NetworkNode.id node <> "a" /\ NetworkNode.id node <> "b").
  { intros node [E|[]]. injection E as <-. split; discriminate. }
  split; [reflexivity|]. split; [exact H|].
  destruct (@edge_only_nodes_survive_remove_node [host "x"]
              (built [host "x"]) (NetworkEdge.mk "a" "b" 1 "TCP" 80 0 [])
              eq_refl H)
    as (g' & E & Hu & _ & _ & _ & _ & _ & _ & _ & _ & Hr & _).
  exists g'. repeat split; assumption.
Defined.

(** ** Statistics *)

Lemma get_increment k key (d : dict string Z) :
  get key (increment k d) =
  if key_eqb key k
  then Some (match get k d with Some n => n | None => 0 end + 1)
  else get key d.
Proof. unfold increment. apply get_setitem. Qed.

Lemma counter_inv_entry d key :
  counter_inv d -> get key d = counter_entry (counted d key).
Proof.
  intros I. unfold counter_entry, counted.
  destruct (get key d) as [n|] eqn:E; [|reflexivity].
  apply I in E. now rewrite (proj2 (Z.eqb_neq n 0)) by lia.
Qed.

Lemma increment_inv k d : counter_inv d -> counter_inv (increment k d).
Proof.
  intros I key n. rewrite get_increment.
  destruct (key_eqb key k).
  - intros [= <-]. destruct (get k d) as [m|] eqn:E; [|lia].
    apply I in E. lia.
  - apply I.
Qed.

Lemma counted_increment k d key :
  counted (increment k d) key =
  counted d key + (if string_dec k key then 1 else 0).
Proof.
  unfold counted. rewrite get_increment.
  destruct (key_eqb_spec key k) as [->|N].
  - destruct (string_dec k k); [reflexivity | congruence].
  - destruct (string_dec k key); [congruence | lia].
Qed.

Lemma count_alerts_spec history : forall ac sc,
  counter_inv ac -> counter_inv sc ->
  counter_inv (fst (count_alerts history ac sc)) /\
  counter_inv (snd (count_alerts history ac sc)) /\
  (forall key,
     counted (fst (count_alerts history ac sc)) key =
     counted ac key +
     Z.of_nat (count_occ string_dec
                 (map (fun a => AttackType_value (attack_type a)) history)
                 key)) /\
  (forall key,
     counted (snd (count_alerts history ac sc)) key =
     counted sc key +
     Z.of_nat (count_occ string_dec
                 (map (fun a => Severity_value (severity a)) history) key)).
Proof.
  induction history as [|a h IH]; intros ac sc Ia Is; cbn [count_alerts].
  - cbn. repeat split; auto; intros; lia.
  - destruct (IH _ _ (increment_inv (AttackType_value (attack_type a)) Ia)
                     (increment_inv (Severity_value (severity a)) Is))
      as (I1 & I2 & H1 & H2).
    repeat split; auto.
    + intros key. rewrite H1, counted_increment. cbn [map count_occ].
      destruct (string_dec _ key); lia.
    + intros key. rewrite H2, counted_increment. cbn [map count_occ].
      destruct (string_dec _ key); lia.
Qed.

Lemma AttackType_value_inj a b :
  AttackType_value a = AttackType_value b -> a = b.
Proof. destruct a, b; cbn; congruence. Qed.

Lemma Severity_value_inj a b : Severity_value a = Severity_value b -> a = b.
Proof. destruct a, b; cbn; congruence. Qed.

Lemma count_occ_inj {A B} (decA : forall x y : A, {x = y} + {x <> y})
      (decB : forall x y : B, {x = y} + {x <> y}) (f : A -> B) l x :
  (forall a b, f a = f b -> a = b) ->
  count_occ decB (map f l) (f x) = count_occ decA l x.
Proof.
  intros Inj. induction l as [|a l IH]; cbn [map count_occ]; [reflexivity|].
  destruct (decB (f a) (f x)) as [E|N], (decA a x) as [E'|N'].
  - now rewrite IH.
  - apply Inj in E. contradiction.
  - subst. congruence.
  - exact IH.
Qed.

Lemma count_occ_not_in_range {A B} (decB : forall x y : B, {x = y} + {x <> y})
      (f : A -> B) (l : list A) key :
  (forall a, f a <> key) -> count_occ decB (map f l) key = 0%nat.
Proof.
  intros N. induction l as [|a l IH]; cbn [map count_occ]; [reflexivity|].
  destruct (decB (f a) key); [now apply N in e | exact IH].
Qed.

Lemma high_confidence_filter history :
  filter (fun alert => negb (Qle_bool (confidence alert) (8 # 10))) history =
  filter (fun a => if Qlt_le_dec (8 # 10) (confidence a) then true else false)
         history.
Proof.
  apply filter_ext. intros a.
  destruct (Qlt_le_dec (8 # 10) (confidence a)) as [L|L].
  - destruct (Qle_bool (confidence a) (8 # 10)) eqn:E; [|reflexivity].
    apply Qle_bool_iff in E. now apply Qlt_not_le in L.
  - apply Qle_bool_iff in L. now rewrite L.
Qed.

Lemma detect_all_attacks_inv self alerts self' :
  detect_all_attacks self = Ok (alerts, self') ->
  exists l1 l2 l3 l4 l5,
    detect_ddos_attack (self_graph self) None = Ok l1 /\
    detect_botnet_attack (self_graph self) = Ok l2 /\
    detect_port_scan_attack (self_graph self) None = Ok l3 /\
    detect_worm_propagation (self_graph self) None None = Ok l4 /\
    detect_c2_attack (self_graph self) = Ok l5 /\
    alerts = sort_reverse (l1 ++ l2 ++ l3 ++ l4 ++ l5) /\
    self' = {| self_graph := self_graph self;
               detection_history := detection_history self ++ alerts |}.
Proof.
  unfold detect_all_attacks. intros E.
  apply bind_Ok_inv in E as (l1 & E1 & E).
  apply bind_Ok_inv in E as (l2 & E2 & E).
  apply bind_Ok_inv in E as (l3 & E3 & E).
  apply bind_Ok_inv in E as (l4 & E4 & E).
  apply bind_Ok_inv in E as (l5 & E5 & E).
  injection E as <- <-.
  exists l1, l2, l3, l4, l5. cbn [app].
  rewrite <- !app_assoc. repeat split; assumption.
Qed.

Lemma count_kind_total history :
  Z.of_nat (List.length history) =
  count_kind DDOS history + count_kind BOTNET history +
  count_kind PORT_SCAN history + count_kind WORM history +
  count_kind C2 history.
Proof.
  unfold count_kind.
  induction history as [|a h IH]; [reflexivity|].
  cbn [List.length map count_occ].
  destruct (attack_type a);
    repeat match goal with
    | |- context [AttackType_eq_dec ?x ?y] =>
        destruct (AttackType_eq_dec x y); try congruence
    end; lia.
Qed.

Lemma get_attack_statistics_spec self :
  detection_history self <> [] ->
  exists s,
    get_attack_statistics self = Some s /\
    total_attacks s = Z.of_nat (List.length (detection_history self)) /\
    (forall k, get (AttackType_value k) (attack_types s) =
               counter_entry (count_kind k (detection_history self))) /\
    (forall key, (forall k, AttackType_value k <> key) ->
                 get key (attack_types s) = None) /\
    (forall v, get (Severity_value v) (severity_distribution s) =
               counter_entry (count_severity v (detection_history self))) /\
    (forall key, (forall v, Severity_value v <> key) ->
                 get key (severity_distribution s) = None) /\
    high_confidence_attacks s = count_confident (detection_history self).
Proof.
  intros Hne. unfold get_attack_statistics.
  destruct (detection_history self) as [|a0 h0] eqn:Eh; [congruence|].
  rewrite <- Eh. clear Hne.
  assert (I0 : counter_inv []) by (intros key n; discriminate).
  destruct (count_alerts_spec (detection_history self) I0 I0)
    as (Ia & Is & Ha & Hs).
  destruct (count_alerts (detection_history self) [] [])
    as [attack_counts severity_counts].
  cbn [fst snd] in *.
  eexists. split; [reflexivity|].
  cbn [total_attacks attack_types severity_distribution
       high_confidence_attacks].
  repeat split.
  - intros k. rewrite (counter_inv_entry _ Ia), Ha. f_equal.
    unfold count_kind, counted. cbn [get].
    rewrite <- (map_map attack_type AttackType_value).
    rewrite (count_occ_inj AttackType_eq_dec string_dec AttackType_value
               _ _ AttackType_value_inj).
    reflexivity.
  - intros key Hk. rewrite (counter_inv_entry _ Ia), Ha.
    rewrite <- (map_map attack_type AttackType_value).
    rewrite (count_occ_not_in_range string_dec AttackType_value _ Hk).
    reflexivity.
  - intros v. rewrite (counter_inv_entry _ Is), Hs. f_equal.
    unfold count_severity, counted. cbn [get].
    rewrite <- (map_map severity Severity_value).
    rewrite (count_occ_inj Severity_eq_dec string_dec Severity_value
               _ _ Severity_value_inj).
    reflexivity.
  - intros key Hk. rewrite (counter_inv_entry _ Is), Hs.
    rewrite <- (map_map severity Severity_value).
    rewrite (count_occ_not_in_range string_dec Severity_value _ Hk).
    reflexivity.
  - unfold count_confident. now rewrite high_confidence_filter.
Qed.

(** C9: the statistics operation returns the empty result exactly when the
    detection history is empty; on a non-empty history it reports the
    total alert count, the count of every kind and of every severity that
    occurs (and no entry for one that does not), and the number of alerts
    with confidence strictly above 0.8; after one aggregate pass on a fresh
    detector that yields 2 DDoS alerts and 1 C2 alert it reports a total of
    3 with kind counts ddos:2 and c2:1 and no other kind. *)
Theorem statistics_report (self : AttackDetector) :
  (get_attack_statistics self = None <-> detection_history self = []) /\
  (detection_history self <> [] ->
   exists s,
     get_attack_statistics self = Some s /\
     total_attacks s = Z.of_nat (List.length (detection_history self)) /\
     (forall k, get (AttackType_value k) (attack_types s) =
                counter_entry (count_kind k (detection_history self))) /\
     (forall key, (forall k, AttackType_value k <> key) ->
                  get key (attack_types s) = None) /\
     (forall v, get (Severity_value v) (severity_distribution s) =
                counter_entry (count_severity v (detection_history self))) /\
     (forall key, (forall v, Severity_value v <> key) ->
                  get key (severity_distribution s) = None) /\
     high_confidence_attacks s = count_confident (detection_history self)) /\
  (forall g alerts,
     detect_all_attacks (AttackDetector_init g) = Ok (alerts, self) ->
     count_kind DDOS alerts = 2 ->
     count_kind C2 alerts = 1 ->
     List.length alerts = 3%nat ->
     exists s,
       get_attack_statistics self = Some s /\
       total_attacks s = 3 /\
       get "ddos" (attack_types s) = Some 2 /\
       get "c2" (attack_types s) = Some 1 /\
       forall key, key <> "ddos" -> key <> "c2" ->
                   get key (attack_types s) = None).
Proof.
  split; [|split].
  - unfold get_attack_statistics.
    destruct (detection_history self) as [|a h]; [tauto|].
    destruct (count_alerts (a :: h) [] []). split; discriminate.
  - apply get_attack_statistics_spec.
  - intros g alerts E Hd Hc Hl.
    apply detect_all_attacks_inv in E
      as (l1 & l2 & l3 & l4 & l5 & _ & _ & _ & _ & _ & _ & ->).
    cbn [AttackDetector_init detection_history app] in *.
    destruct (@get_attack_statistics_spec
                {| self_graph := self_graph (AttackDetector_init g);
                   detection_history := alerts |})
      as (s & Es & Ht & Hk & Hnk & _).
    { cbn [detection_history]. intros ->. discriminate. }
    cbn [detection_history] in *.
    pose proof (count_kind_total alerts) as Tot.
    rewrite Hl, Hd, Hc in Tot.
    assert (0 <= count_kind BOTNET alerts /\ 0 <= count_kind PORT_SCAN alerts
            /\ 0 <= count_kind WORM alerts) as (P1 & P2 & P3)
      by (unfold count_kind; lia).
    exists s. split; [exact Es|]. split; [now rewrite Ht, Hl|].
    split; [|split].
    + rewrite (Hk DDOS : get "ddos" (attack_types s) = _), Hd. reflexivity.
    + rewrite (Hk C2 : get "c2" (attack_types s) = _), Hc. reflexivity.
    + intros key N1 N2.
      destruct (string_dec key "botnet") as [->|N3];
        [rewrite (Hk BOTNET : get "botnet" (attack_types s) = _); replace (count_kind BOTNET alerts) with 0 by lia;
         reflexivity|].
      destruct (string_dec key "port_scan") as [->|N4];
        [rewrite (Hk PORT_SCAN : get "port_scan" (attack_types s) = _);
         replace (count_kind PORT_SCAN alerts) with 0 by lia; reflexivity|].
      destruct (string_dec key "worm") as [->|N5];
        [rewrite (Hk WORM : get "worm" (attack_types s) = _); replace (count_kind WORM alerts) with 0 by lia;
         reflexivity|].
      apply Hnk. intros []; cbn; congruence.
Qed.

Lemma statistics_report_witness :
  exists alerts self,
    detect_all_attacks (AttackDetector_init two_ddos_one_c2)
      = Ok (alerts, self) /\
    count_kind DDOS alerts = 2 /\
    count_kind C2 alerts = 1 /\
    List.length alerts = 3%nat /\
    exists s,
      get_attack_statistics self = Some s /\
      total_attacks s = 3 /\
      get "ddos" (attack_types s) = Some 2 /\
      get "c2" (attack_types s) = Some 1.
Proof.
  destruct (detect_all_attacks (AttackDetector_init two_ddos_one_c2))
    as [[alerts self]|] eqn:E; [|discriminate E].
  exists alerts, self.
  assert (Ea : alerts =
               fst (match detect_all_attacks
                            (AttackDetector_init two_ddos_one_c2) with
                    | Ok r => r
                    | Raise _ => ([], AttackDetector_init two_ddos_one_c2)
                    end)) by now rewrite E.
  vm_compute in Ea.
  assert (Hd : count_kind DDOS alerts = 2) by (subst alerts; reflexivity).
  assert (Hc : count_kind C2 alerts = 1) by (subst alerts; reflexivity).
  assert (Hl : List.length alerts = 3%nat) by (subst alerts; reflexivity).
  split; [reflexivity|]. split; [exact Hd|]. split; [exact Hc|].
  split; [exact Hl|].
  destruct (statistics_report self) as (_ & _ & H).
  destruct (H two_ddos_one_c2 alerts E Hd Hc Hl)
    as (s & Es & Ht & H1 & H2 & _).
  exists s. repeat split; assumption.
Defined.

(** ** The sort of the aggregate pass *)

Lemma key_ltb_false_iff a b :
  key_ltb (sort_key a) (sort_key b) = false <-> may_precede a b.
Proof.
  unfold key_ltb, sort_key, may_precede. cbn [fst snd].
  set (ra := severity_order (severity a)).
  set (rb := severity_order (severity b)).
  rewrite orb_false_iff, Z.ltb_ge, andb_false_iff, Z.eqb_neq, negb_false_iff,
    Qle_bool_iff.
  split.
  - intros [H1 [H2|H2]]; split; auto; intros; congruence.
  - intros [H1 H2]. split; [exact H1|].
    destruct (Z.eq_dec ra rb) as [E|N]; [right; auto | left; exact N].
Qed.

Lemma key_ltb_true_iff a b :
  key_ltb (sort_key a) (sort_key b) = true <->
  severity_order (severity a) < severity_order (severity b) \/
  (severity_order (severity a) = severity_order (severity b) /\
   (confidence a < confidence b)%Q).
Proof.
  unfold key_ltb, sort_key. cbn [fst snd].
  rewrite orb_true_iff, Z.ltb_lt, andb_true_iff, Z.eqb_eq, negb_true_iff.
  split; (intros [H|[H1 H2]]; [left; exact H | right; split; [exact H1|]]).
  - apply Qnot_le_lt. intros L. apply Qle_bool_iff in L. congruence.
  - destruct (Qle_bool (confidence b) (confidence a)) eqn:E; [|reflexivity].
    apply Qle_bool_iff in E. now apply Qlt_not_le in H2.
Qed.

Lemma may_precede_trans a b c :
  may_precede a b -> may_precede b c -> may_precede a c.
Proof.
  unfold may_precede. intros [H1 H2] [H3 H4]. split; [lia|].
  intros E. apply Qle_trans with (confidence b); [apply H4 | apply H2]; lia.
Qed.

Lemma tie_iff a b : tie a b = true <-> may_precede a b /\ may_precede b a.
Proof.
  unfold tie, may_precede. rewrite andb_true_iff, Z.eqb_eq, Qeq_bool_iff.
  split.
  - intros [E Q]. rewrite E, Q. repeat split; try lia; intros; apply Qle_refl.
  - intros [[H1 H2] [H3 H4]].
    assert (E : severity_order (severity a) = severity_order (severity b))
      by lia.
    split; [exact E|]. apply Qle_antisym; auto.
Qed.

Lemma insert_reverse_perm x l : Permutation (x :: l) (insert_reverse x l).
Proof.
  induction l as [|y l IH]; cbn [insert_reverse]; [apply Permutation_refl|].
  destruct (key_ltb (sort_key x) (sort_key y)); [|apply Permutation_refl].
  apply perm_trans with (y :: x :: l); [apply perm_swap|].
  now apply perm_skip.
Qed.

Lemma sort_reverse_perm l : Permutation l (sort_reverse l).
Proof.
  induction l as [|x l IH]; cbn; [constructor|].
  apply perm_trans with (x :: sort_reverse l); [now apply perm_skip|].
  apply insert_reverse_perm.
Qed.

Lemma insert_reverse_sorted x l :
  StronglySorted may_precede l ->
  StronglySorted may_precede (insert_reverse x l).
Proof.
  induction 1 as [|y l S IH F]; cbn [insert_reverse].
  - repeat constructor.
  - destruct (key_ltb (sort_key x) (sort_key y)) eqn:E.
    + constructor; [exact IH|].
      apply Forall_forall. intros z Hz.
      apply (Permutation_in _ (Permutation_sym (insert_reverse_perm x l)))
        in Hz.
      destruct Hz as [<-|Hz].
      * apply key_ltb_false_iff.
        apply key_ltb_true_iff in E.
        destruct (key_ltb (sort_key y) (sort_key x)) eqn:E'; [|reflexivity].
        apply key_ltb_true_iff in E'.
        destruct E as [E|[E1 E2]], E' as [E'|[E1' E2']]; try lia.
        exfalso. apply (Qlt_irrefl (confidence x)).
        now apply Qlt_trans with (confidence y).
      * rewrite Forall_forall in F. now apply F.
    + apply key_ltb_false_iff in E.
      constructor; [now constructor|].
      constructor; [exact E|].
      apply Forall_forall. intros z Hz. rewrite Forall_forall in F.
      apply may_precede_trans with y; auto.
Qed.

Lemma sort_reverse_sorted l : StronglySorted may_precede (sort_reverse l).
Proof.
  induction l as [|x l IH]; cbn; [constructor|].
  now apply insert_reverse_sorted.
Qed.

(** Stability: inserting [x] leaves it in front of the alerts it ties
    with, and the alerts it passes over are in no tie with it. *)
Lemma insert_reverse_stable t x l :
  filter (tie t) (insert_reverse x l) = filter (tie t) (x :: l).
Proof.
  induction l as [|y l IH]; cbn [insert_reverse]; [reflexivity|].
  destruct (key_ltb (sort_key x) (sort_key y)) eqn:E; [|reflexivity].
  cbn [filter] in *. rewrite IH.
  destruct (tie t x) eqn:Tx, (tie t y) eqn:Ty; try reflexivity.
  exfalso. apply tie_iff in Tx as [X1 X2]. apply tie_iff in Ty as [Y1 Y2].
  assert (may_precede x y) as P by (eapply may_precede_trans; eauto).
  apply key_ltb_false_iff in P. congruence.
Qed.

Lemma sort_reverse_stable t l :
  filter (tie t) (sort_reverse l) = filter (tie t) l.
Proof.
  induction l as [|x l IH]; [reflexivity|].
  change (sort_reverse (x :: l)) with (insert_reverse x (sort_reverse l)).
  rewrite insert_reverse_stable. cbn [filter]. now rewrite IH.
Qed.

(** ** The shape of every alert a detector returns *)

Lemma for_each_In {A B} (body : A -> list B -> result (list B)) xs l a :
  (forall x acc, body x acc = bind (body x []) (fun r => Ok (acc ++ r))) ->
  for_each xs body [] = Ok l -> In a l ->
  exists x r, In x xs /\ body x [] = Ok r /\ In a r.
Proof.
  intros BA E Ha.
  destruct (for_each_inv body BA _ E) as (rs & F & ->).
  apply in_concat in Ha as (r & Hr & Ha).
  clear E. revert Hr.
  induction F as [|x r' xs rs Hx _ IH]; intros Hr; [destruct Hr|].
  destruct Hr as [<-|Hr].
  - exists x, r'. repeat split; auto. now left.
  - destruct (IH Hr) as (x' & r'' & H1 & H2 & H3).
    exists x', r''. repeat split; auto. now right.
Qed.

Lemma py_truediv_inv a b q :
  py_truediv a b = Ok q -> b <> 0 /\ q = (inject_Z a / inject_Z b)%Q.
Proof.
  unfold py_truediv. destruct (Z.eqb_spec b 0); [discriminate|].
  intros [= <-]. now split.
Qed.

Lemma pred_queries_agree g x d ps :
  get_indegree g x = Ok d -> get_predecessors g x = Ok ps ->
  d = Z.of_nat (List.length ps).
Proof.
  unfold get_indegree, nx.in_degree, get_predecessors, nx.predecessors,
    getitem.
  destruct (contains x (nx._node (graph g))); [|discriminate].
  destruct (get x (nx._pred (graph g))) as [p|]; [|discriminate].
  cbn [bind]. intros [= <-] [= <-]. now rewrite length_keys.
Qed.

Lemma succ_queries_agree g x d ss :
  get_outdegree g x = Ok d -> get_neighbors g x = Ok ss ->
  d = Z.of_nat (List.length ss).
Proof.
  unfold get_outdegree, nx.out_degree, get_neighbors, nx.neighbors, getitem.
  destruct (contains x (nx._node (graph g))); [|discriminate].
  destruct (get x (nx._succ (graph g))) as [s|]; [|discriminate].
  cbn [bind]. intros [= <-] [= <-]. now rewrite length_keys.
Qed.

Ltac open_body E body BA :=
  name_body body;
  assert (BA : forall x acc,
             body x acc = bind (body x []) (fun r => Ok (acc ++ r)))
    by (unfold body; body_app_tac).

Ltac severity_cases :=
  match goal with
  | |- context [if ?b then high else medium] => destruct b; auto
  | _ => auto
  end.

Lemma ddos_alert_shape g T l a :
  detect_ddos_attack g (Some T) = Ok l -> In a l -> alert_shape DDOS T a.
Proof.
  unfold detect_ddos_attack. intros E Ha. open_body E body BA.
  destruct (@for_each_In _ _ body _ _ _ BA E Ha) as (x & r & _ & Ex & Hr).
  unfold body in Ex.
  destruct (get_indegree g x) as [d|] eqn:Ed; cbn [bind] in Ex; [|discriminate].
  destruct (d >? T); [|injection Ex as <-; destruct Hr].
  destruct (get_predecessors g x) as [ps|] eqn:Ep; cbn [bind] in Ex;
    [|discriminate].
  destruct (py_truediv d (T * 2)) as [q|] eqn:Eq; cbn [bind] in Ex;
    [|discriminate].
  injection Ex as <-. destruct Hr as [<-|[]].
  apply py_truediv_inv in Eq as [N ->].
  pose proof (pred_queries_agree _ _ Ed Ep) as ->.
  unfold alert_shape, triggering_metric.
  cbn [attack_type source_nodes target_nodes confidence severity].
  repeat split; try reflexivity; [lia | severity_cases].
Qed.

Lemma port_scan_alert_shape g T l a :
  detect_port_scan_attack g (Some T) = Ok l -> In a l ->
  alert_shape PORT_SCAN T a.
Proof.
  unfold detect_port_scan_attack. intros E Ha. open_body E body BA.
  destruct (@for_each_In _ _ body _ _ _ BA E Ha) as (x & r & _ & Ex & Hr).
  unfold body in Ex.
  destruct (get_outdegree g x) as [d|] eqn:Ed; cbn [bind] in Ex;
    [|discriminate].
  destruct (d >? T); [|injection Ex as <-; destruct Hr].
  destruct (get_neighbors g x) as [ss|] eqn:Ep; cbn [bind] in Ex;
    [|discriminate].
  destruct (py_truediv d (T * 2)) as [q|] eqn:Eq; cbn [bind] in Ex;
    [|discriminate].
  injection Ex as <-. destruct Hr as [<-|[]].
  apply py_truediv_inv in Eq as [N ->].
  pose proof (succ_queries_agree _ _ Ed Ep) as ->.
  unfold alert_shape, triggering_metric.
  cbn [attack_type source_nodes target_nodes confidence severity].
  repeat split; try reflexivity; [lia | auto].
Qed.

Lemma c2_alert_shape g l a :
  detect_c2_attack g = Ok l -> In a l ->
  alert_shape C2 (c2_indegree_min (attack_thresholds g)) a.
Proof.
  unfold detect_c2_attack. intros E Ha. open_body E body BA.
  destruct (@for_each_In _ _ body _ _ _ BA E Ha) as (x & r & _ & Ex & Hr).
  unfold body in Ex.
  destruct (get_indegree g x) as [d|] eqn:Ed; cbn [bind] in Ex; [|discriminate].
  destruct (get_outdegree g x) as [o|] eqn:Eo; cbn [bind] in Ex;
    [|discriminate].
  cbv zeta in Ex.
  destruct (_ && _); [|injection Ex as <-; destruct Hr].
  destruct (get_predecessors g x) as [ps|] eqn:Ep; cbn [bind] in Ex;
    [|discriminate].
  destruct (py_truediv d _) as [q|] eqn:Eq; cbn [bind] in Ex; [|discriminate].
  injection Ex as <-. destruct Hr as [<-|[]].
  apply py_truediv_inv in Eq as [N ->].
  pose proof (pred_queries_agree _ _ Ed Ep) as ->.
  unfold alert_shape, triggering_metric.
  cbn [attack_type source_nodes target_nodes confidence severity].
  repeat split; try reflexivity; [lia | severity_cases].
Qed.

Lemma worm_alert_shape g start_node T l a :
  detect_worm_propagation g start_node (Some T) = Ok l -> In a l ->
  alert_shape WORM T a.
Proof.
  unfold detect_worm_propagation. intros E Ha.
  apply bind_Ok_inv in E as (candidates & _ & E).
  open_body E body BA.
  destruct (@for_each_In _ _ body _ _ _ BA E Ha) as (x & r & _ & Ex & Hr).
  unfold body in Ex.
  destruct (negb _); [injection Ex as <-; destruct Hr|].
  destruct (_bfs_reachable g x) as [rs|] eqn:Er; cbn [bind] in Ex;
    [|discriminate].
  cbv zeta in Ex.
  destruct (_ >? T); [|injection Ex as <-; destruct Hr].
  destruct (py_truediv _ (T * 2)) as [q|] eqn:Eq; cbn [bind] in Ex;
    [|discriminate].
  injection Ex as <-. destruct Hr as [<-|[]].
  apply py_truediv_inv in Eq as [N ->].
  unfold alert_shape, triggering_metric.
  cbn [attack_type source_nodes target_nodes confidence severity].
  repeat split; try reflexivity; [lia | severity_cases].
Qed.

Lemma detect_botnet_attack_emits g :
  exists alerts,
    detect_botnet_attack g = Ok alerts /\
    Forall2 botnet_alert_for
            (filter (fun c => 3 <=? Z.of_nat (List.length c))
                    (nx.simple_cycles (graph g)))
            alerts.
Proof.
  unfold detect_botnet_attack. cbv zeta. name_body body.
  assert (BA : forall x acc,
             body x acc = bind (body x []) (fun r => Ok (acc ++ r)))
    by (unfold body; body_app_tac).
  destruct (@for_each_emits _ _ body
              (fun c r => if 3 <=? Z.of_nat (List.length c)
                          then exists a, r = [a] /\ botnet_alert_for c a
                          else r = [])
              (nx.simple_cycles (graph g)) BA) as (rs & E & F).
  { intros c _. unfold body. rewrite Z.geb_leb.
    destruct (3 <=? Z.of_nat (List.length c)); [|now eexists].
    eexists. split; [reflexivity|]. eexists. split; [reflexivity|].
    constructor; cbn [attack_type source_nodes target_nodes confidence severity];
      try reflexivity.
    - now rewrite py_min_Qmin.
    - now rewrite Z.geb_leb. }
  exists (List.concat rs). split; [exact E|].
  now apply Forall2_concat_filter.
Qed.

Lemma botnet_alert_shape g l a :
  detect_botnet_attack g = Ok l -> In a l -> alert_shape BOTNET 5 a.
Proof.
  intros E Ha.
  unfold detect_botnet_attack in E. cbv zeta in E. open_body E body BA.
  destruct (@for_each_In _ _ body _ _ _ BA E Ha) as (x & r & _ & Ex & Hr).
  unfold body in Ex. destruct (_ >=? 3); [|injection Ex as <-; destruct Hr].
  injection Ex as <-. destruct Hr as [<-|[]].
  unfold alert_shape, triggering_metric.
  cbn [attack_type source_nodes target_nodes confidence severity].
  repeat split; try reflexivity; [lia | severity_cases].
Qed.

(** ** Confidence is bounded and monotone *)

Lemma produced_shape g T a :
  produced g T a -> alert_shape (attack_type a) T a.
Proof.
  intros [threshold l a' E Ha | l a' E Ha | threshold l a' E Ha
         | start threshold l a' E Ha | l a' E Ha].
  - rewrite detect_ddos_attack_threshold in E.
    pose proof (@ddos_alert_shape _ _ _ _ E Ha) as S.
    now rewrite (proj1 S).
  - pose proof (@botnet_alert_shape _ _ _ E Ha) as S. now rewrite (proj1 S).
  - rewrite detect_port_scan_attack_threshold in E.
    pose proof (@port_scan_alert_shape _ _ _ _ E Ha) as S.
    now rewrite (proj1 S).
  - rewrite detect_worm_propagation_threshold in E.
    pose proof (@worm_alert_shape _ _ _ _ _ E Ha) as S.
    now rewrite (proj1 S).
  - pose proof (@c2_alert_shape _ _ _ E Ha) as S. now rewrite (proj1 S).
Qed.

Lemma triggering_metric_nonneg a : 0 <= triggering_metric a.
Proof. unfold triggering_metric. destruct (attack_type a); lia. Qed.

(** C3 (amended): for every graph and every threshold T >= 0 that a
    detector scales its confidence by, every alert that any of the five
    detectors returns has confidence min(1, metric/(2T)) in [0,1], where
    the metric is the indegree, outdegree, cycle length or reachable-set
    size that triggered it; for a fixed such threshold the confidence is
    non-decreasing in that metric, across alerts and across graphs. *)
Theorem confidence_bounded_and_monotone (g g' : NetworkGraph) (T : Z)
    (a a' : AttackAlert) :
  0 <= T ->
  produced g T a ->
  ((0 <= confidence a)%Q /\ (confidence a <= 1)%Q /\
   (confidence a == clamped_ratio (triggering_metric a) T)%Q) /\
  (produced g' T a' ->
   triggering_metric a <= triggering_metric a' ->
   (confidence a <= confidence a')%Q).
Proof.
  intros HT P.
  destruct (produced_shape P) as (_ & N & C & _).
  assert (E : (confidence a == clamped_ratio (triggering_metric a) T)%Q)
    by (rewrite C; apply confidence_eq).
  split.
  - split; [|split].
    + rewrite E.
      apply clamped_ratio_nonneg; [apply triggering_metric_nonneg | exact HT].
    + rewrite E. apply clamped_ratio_le_1.
    + exact E.
  - intros P' Hm.
    destruct (produced_shape P') as (_ & _ & C' & _).
    rewrite E, C', confidence_eq.
    apply clamped_ratio_mono; [lia | exact Hm].
Qed.

Lemma confidence_bounded_and_monotone_witness :
  exists a,
    0 <= 1 /\
    produced fan_in 1 a /\
    (0 <= confidence a)%Q /\ (confidence a <= 1)%Q.
Proof.
  assert (P : exists a, produced fan_in 1 a).
  { eexists. eapply (@produced_ddos fan_in (Some 1)).
    - vm_compute. reflexivity.
    - left. reflexivity. }
  destruct P as [a P]. exists a.
  split; [discriminate|]. split; [exact P|].
  destruct (@confidence_bounded_and_monotone fan_in fan_in 1 a a) as [H _].
  - discriminate.
  - exact P.
  - destruct H as (H0 & H1 & _). now split.
Defined.

(** C3 as stated fails for a negative threshold.  On the graph a -> b with
    the DDoS threshold -1, node a (indegree 0) gets confidence 0 and node b
    (indegree 1) gets confidence -1/2: below 0, and lower for the larger
    indegree. *)
Lemma confidence_bounded_and_monotone_counterexample :
  exists a a',
    produced one_edge (-1) a /\
    produced one_edge (-1) a' /\
    triggering_metric a <= triggering_metric a' /\
    (confidence a' < 0)%Q /\
    (confidence a' < confidence a)%Q.
Proof.
  eexists. eexists. split; [|split].
  - eapply (@produced_ddos one_edge (Some (-1))).
    + vm_compute. reflexivity.
    + left. reflexivity.
  - eapply (@produced_ddos one_edge (Some (-1))).
    + vm_compute. reflexivity.
    + right. left. reflexivity.
  - repeat split.
    + vm_compute. discriminate.
Qed.

(** ** The aggregate pass *)

Lemma comprehension_total {A} (test : A -> result bool) xs :
  (forall x, In x xs -> exists b, test x = Ok b) ->
  exists r, comprehension test xs = Ok r /\ incl r xs.
Proof.
  induction xs as [|x xs IH]; intros H; cbn [comprehension].
  - exists []. split; [reflexivity | apply incl_refl].
  - destruct (H x (or_introl eq_refl)) as [b Eb].
    destruct IH as (r & Er & Hi); [intros y Hy; apply H; now right|].
    rewrite Eb, Er. cbn [bind]. eexists. split; [reflexivity|].
    destruct b.
    + intros y [<-|Hy]; [now left | right; auto].
    + intros y Hy. right. auto.
Qed.

Lemma detect_worm_propagation_total g start_node T :
  graph_inv g -> T <> 0 ->
  exists l, detect_worm_propagation g start_node (Some T) = Ok l.
Proof.
  intros I HT. unfold detect_worm_propagation.
  assert (exists cs,
    match start_node with
    | Some (String _ _ as s) => Ok [s]
    | _ =>
        comprehension
          (fun node => let* d := get_outdegree g node in Ok (d >? 5))
          (nx.nodes (graph g))
    end = Ok cs) as [cs Ecs].
  { assert (exists r,
      comprehension
        (fun node => let* d := get_outdegree g node in Ok (d >? 5))
        (nx.nodes (graph g)) = Ok r) as [r Er].
    { destruct (@comprehension_total _
                  (fun node => let* d := get_outdegree g node in Ok (d >? 5))
                  (nx.nodes (graph g))) as (r & Er & _).
      - intros x Hx. destruct (succ_queries x I Hx) as [-> _].
        cbn [bind]. now eexists.
      - now exists r. }
    destruct start_node as [[|c s]|]; eauto. }
  rewrite Ecs. cbn [bind]. name_body body.
  assert (BA : forall x acc,
             body x acc = bind (body x []) (fun r => Ok (acc ++ r)))
    by (unfold body; body_app_tac).
  destruct (@for_each_emits _ _ body (fun _ _ => True) cs BA) as (rs & E & _).
  - intros x _. unfold body.
    destruct (mem x (nx.nodes (graph g))) eqn:M; cbn [negb]; [|now eexists].
    apply mem_In in M.
    destruct (_bfs_reachable_ok x I M) as (r & Er & _).
    rewrite Er. cbn [bind]. cbv zeta.
    destruct (_ >? T); [|now eexists].
    rewrite py_truediv_Ok by lia. cbn [bind].
    eexists. split; [reflexivity | exact Logic.I].
  - eexists. exact E.
Qed.

Lemma detect_all_attacks_total self :
  graph_inv (self_graph self) ->
  divisors_nonzero (attack_thresholds (self_graph self)) ->
  exists alerts self', detect_all_attacks self = Ok (alerts, self').
Proof.
  intros I (N1 & N2 & N3 & N4). unfold detect_all_attacks. cbv zeta.
  destruct (@detect_ddos_attack_emits (self_graph self) _ I (or_introl N1))
    as (l1 & E1 & _).
  destruct (detect_botnet_attack_emits (self_graph self)) as (l2 & E2 & _).
  destruct (@detect_port_scan_attack_emits (self_graph self) _ I
              (or_introl N2)) as (l3 & E3 & _).
  destruct (@detect_worm_propagation_total (self_graph self) None _ I N3)
    as (l4 & E4).
  destruct (@detect_c2_attack_emits (self_graph self) I (or_introl N4))
    as (l5 & E5 & _).
  change (detect_ddos_attack (self_graph self) None) with
    (detect_ddos_attack (self_graph self)
       (Some (ddos_indegree (attack_thresholds (self_graph self))))).
  change (detect_port_scan_attack (self_graph self) None) with
    (detect_port_scan_attack (self_graph self)
       (Some (port_scan_outdegree (attack_thresholds (self_graph self))))).
  change (detect_worm_propagation (self_graph self) None None) with
    (detect_worm_propagation (self_graph self) None
       (Some (worm_reachability (attack_thresholds (self_graph self))))).
  rewrite E1, E2, E3, E4, E5. cbn [bind]. now eexists; eexists.
Qed.

(** C2: an aggregate pass runs on every state of the store whose divisor
    thresholds are not zero; the list it returns is the concatenation of
    the alerts of the five detectors (DDoS, botnet, port scan, worm, C2, in
    that order), rearranged so that severity rank is descending and, at
    equal rank, confidence is descending, with alerts that tie on both kept
    in their emission order; the detection history is extended by exactly
    that list. *)
Theorem aggregate_pass_order (self : AttackDetector) :
  (reachable (self_graph self) ->
   divisors_nonzero (attack_thresholds (self_graph self)) ->
   exists alerts self', detect_all_attacks self = Ok (alerts, self')) /\
  (forall alerts self',
     detect_all_attacks self = Ok (alerts, self') ->
     exists ddos botnet port_scan worm c2,
       detect_ddos_attack (self_graph self) None = Ok ddos /\
       detect_botnet_attack (self_graph self) = Ok botnet /\
       detect_port_scan_attack (self_graph self) None = Ok port_scan /\
       detect_worm_propagation (self_graph self) None None = Ok worm /\
       detect_c2_attack (self_graph self) = Ok c2 /\
       let emitted := ddos ++ botnet ++ port_scan ++ worm ++ c2 in
       Permutation emitted alerts /\
       StronglySorted may_precede alerts /\
       (forall t, filter (tie t) alerts = filter (tie t) emitted) /\
       detection_history self' = detection_history self ++ alerts /\
       self_graph self' = self_graph self).
Proof.
  split.
  - intros R N. apply detect_all_attacks_total; [|exact N].
    now apply reachable_inv.
  - intros alerts self' E.
    apply detect_all_attacks_inv in E
      as (l1 & l2 & l3 & l4 & l5 & E1 & E2 & E3 & E4 & E5 & -> & ->).
    exists l1, l2, l3, l4, l5. repeat split; auto.
    + apply sort_reverse_perm.
    + apply sort_reverse_sorted.
    + intros t. apply sort_reverse_stable.
Qed.

Lemma aggregate_pass_order_witness :
  reachable (self_graph (AttackDetector_init two_ddos_one_c2)) /\
  divisors_nonzero
    (attack_thresholds (self_graph (AttackDetector_init two_ddos_one_c2))) /\
  exists alerts self',
    detect_all_attacks (AttackDetector_init two_ddos_one_c2)
      = Ok (alerts, self') /\
    StronglySorted may_precede alerts /\
    detection_history self' = alerts.
Proof.
  assert (R : reachable (self_graph (AttackDetector_init two_ddos_one_c2)))
    by apply built_reachable.
  assert (N : divisors_nonzero
                (attack_thresholds
                   (self_graph (AttackDetector_init two_ddos_one_c2))))
    by (repeat split; discriminate).
  split; [exact R|]. split; [exact N|].
  destruct (aggregate_pass_order (AttackDetector_init two_ddos_one_c2))
    as [Htotal Horder].
  destruct (Htotal R N) as (alerts & self' & E).
  exists alerts, self'. split; [exact E|].
  destruct (Horder alerts self' E)
    as (l1 & l2 & l3 & l4 & l5 & _ & _ & _ & _ & _ & _ & S & _ & H & _).
  split; [exact S | exact H].
Defined.

(** ** Cycle enumeration on a directed cycle *)

Lemma chain_app g l1 l2 final :
  chain g (l1 ++ l2) final <-> chain g l1 (hd final l2) /\ chain g l2 final.
Proof.
  induction l1 as [|a l1 IH]; cbn [app chain]; [tauto|].
  rewrite IH. destruct l1; cbn [app hd]; tauto.
Qed.

(** Reading a cycle from any of its nodes. *)
Lemma chain_rotate g pre s post :
  chain g (pre ++ s :: post) (hd "" (pre ++ s :: post)) ->
  chain g (s :: post ++ pre) s.
Proof.
  intros C. destruct pre as [|p pre].
  - rewrite app_nil_r. exact C.
  - cbn [app hd] in C. change (p :: pre ++ s :: post)
      with ((p :: pre) ++ s :: post) in C.
    apply chain_app in C as [C1 C2]. cbn [hd] in C1.
    change (s :: post ++ p :: pre) with ((s :: post) ++ p :: pre).
    apply chain_app. cbn [hd]. split; assumption.
Qed.

(** The search from [root] follows the chain: it finds the cycle when all
    of the remaining nodes are later in the node order, and nothing
    otherwise. *)
Lemma cycles_through_chain g root later todo : forall depth path current,
  chain g (current :: todo) root ->
  NoDup (path ++ todo) ->
  ~ In root todo ->
  (forallb (fun w => mem w later) todo = true ->
   (List.length todo < depth)%nat) ->
  nx.cycles_through depth (graph g) root later path current =
  if forallb (fun w => mem w later) todo
  then [rev path ++ todo] else [].
Proof.
  induction todo as [|b todo IH]; intros depth path current [Es C] ND Hr Hd.
  - cbn [forallb] in *. destruct depth as [|depth]; [specialize (Hd eq_refl);
      cbn in Hd; lia|].
    cbn [nx.cycles_through]. unfold successor_set in Es. rewrite Es.
    cbn [hd flat_map]. rewrite key_eqb_refl. now rewrite !app_nil_r.
  - cbn [forallb] in *. destruct depth as [|depth].
    + cbn [nx.cycles_through].
      destruct (mem b later && forallb (fun w => mem w later) todo) eqn:F;
        [|reflexivity].
      specialize (Hd eq_refl). cbn in Hd. lia.
    + cbn [nx.cycles_through]. unfold successor_set in Es. rewrite Es.
      cbn [hd flat_map]. rewrite app_nil_r.
      rewrite key_eqb_neq by (intros ->; apply Hr; now left).
      assert (Mb : mem b path = false).
      { apply mem_false. intros Hb. apply NoDup_remove_2 in ND.
        apply ND. apply in_or_app. now left. }
      rewrite Mb. cbn [negb]. rewrite andb_true_r.
      destruct (mem b later) eqn:Ml; cbn [andb]; [|reflexivity].
      rewrite (IH depth (b :: path) b).
      * cbn [rev]. now rewrite <- app_assoc.
      * exact C.
      * cbn [app]. apply NoDup_cons_iff. split.
        -- apply NoDup_remove_2 in ND. exact ND.
        -- apply NoDup_remove_1 in ND. exact ND.
      * intros H. apply Hr. now right.
      * intros F. cbn [andb] in Hd. specialize (Hd F).
        cbn [List.length] in Hd. lia.
Qed.

Lemma forallb_mem_incl (later todo : list string) :
  forallb (fun w => mem w later) todo = true <-> incl todo later.
Proof.
  rewrite forallb_forall. unfold incl.
  split; intros H x Hx; [apply mem_In | apply mem_In]; auto.
Qed.

(** The search rooted at a node [s] of the cycle, with [later] the nodes
    after [s] in the node order. *)
Lemma cycles_through_root g ns s later :
  directed_cycle g ns -> In s ns ->
  exists rot,
    Permutation (s :: rot) ns /\
    nx.cycles_through (S (List.length later)) (graph g) s later [s] s =
    if forallb (fun w => mem w later) rot then [s :: rot] else [].
Proof.
  intros [P ND C] Hs.
  destruct (in_split _ _ Hs) as (pre & post & ->).
  exists (post ++ pre).
  assert (Pr : Permutation (s :: post ++ pre) (pre ++ s :: post)).
  { apply perm_trans with (s :: pre ++ post).
    - apply perm_skip. apply Permutation_app_comm.
    - apply Permutation_middle. }
  split; [exact Pr|].
  assert (ND' : NoDup (s :: post ++ pre))
    by (apply (Permutation_NoDup (Permutation_sym Pr) ND)).
  rewrite (@cycles_through_chain g s later (post ++ pre)).
  - reflexivity.
  - now apply chain_rotate.
  - exact ND'.
  - now apply NoDup_cons_iff in ND'.
  - intros F. apply forallb_mem_incl in F.
    apply NoDup_cons_iff in ND' as [_ ND'].
    pose proof (NoDup_incl_length ND' F). lia.
Qed.

Lemma cycles_from_none g ns v0 l :
  directed_cycle g ns -> In v0 ns -> incl l ns -> ~ In v0 l ->
  nx.cycles_from (graph g) l = [].
Proof.
  intros D Hv. induction l as [|s l IH]; intros Hl Hn; [reflexivity|].
  cbn [nx.cycles_from].
  destruct (@cycles_through_root g ns s l D) as (rot & P & ->).
  { apply Hl. now left. }
  rewrite IH.
  - destruct (forallb (fun w => mem w l) rot) eqn:F; [|reflexivity].
    exfalso. apply forallb_mem_incl in F.
    apply (Permutation_in _ (Permutation_sym P)) in Hv.
    destruct Hv as [<-|Hv]; [apply Hn; now left|].
    apply Hn. right. now apply F.
  - intros x Hx. apply Hl. now right.
  - intros H. apply Hn. now right.
Qed.

(** On a directed cycle the enumeration yields the cycle once, read from
    the first node in node order. *)
Lemma simple_cycles_directed_cycle g ns :
  directed_cycle g ns -> ns <> [] ->
  exists rot,
    nx.simple_cycles (graph g) = [rot] /\ Permutation rot ns.
Proof.
  intros D Hne. unfold nx.simple_cycles.
  pose proof (cycle_nodes D) as P.
  assert (NDv : NoDup (nx.nodes (graph g)))
    by (apply (Permutation_NoDup (Permutation_sym P) (cycle_nodup D))).
  destruct (nx.nodes (graph g)) as [|v0 rest] eqn:Ev.
  - apply Permutation_nil in P. congruence.
  - assert (Hv : In v0 ns) by (apply (Permutation_in _ P); now left).
    cbn [nx.cycles_from].
    destruct (@cycles_through_root g ns v0 rest D Hv) as (rot & Pr & ->).
    rewrite (@cycles_from_none g ns v0 rest D Hv).
    + assert (F : forallb (fun w => mem w rest) rot = true).
      { apply forallb_mem_incl. intros x Hx.
        assert (In x (v0 :: rest)) as [<-|H].
        { apply (Permutation_in _ (Permutation_sym P)).
          apply (Permutation_in _ Pr). now right. }
        - exfalso.
          pose proof (Permutation_NoDup (Permutation_sym Pr) (cycle_nodup D))
            as N.
          apply NoDup_cons_iff in N. tauto.
        - exact H. }
      rewrite F. exists (v0 :: rot). split; [reflexivity | exact Pr].
    + intros x Hx. apply (Permutation_in _ P). now right.
    + now apply NoDup_cons_iff in NDv.
Qed.

(** ** The cycle enumeration meets its contract *)

Lemma linked_app G l1 l2 final :
  linked G (l1 ++ l2) final <-> linked G l1 (hd final l2) /\ linked G l2 final.
Proof.
  induction l1 as [|a l1 IH]; cbn [app linked]; [tauto|].
  rewrite IH. destruct l1; cbn [app hd]; tauto.
Qed.

Lemma successors_has_edge G u w :
  In w (nx.successors u G) <-> has_edge u w G = true.
Proof.
  unfold nx.successors, has_edge.
  destruct (get u (nx._succ G)) as [s|].
  - symmetry. apply contains_In.
  - split; [intros [] | discriminate].
Qed.

Lemma hd_app_cons {A} (d : A) l x : hd d (l ++ [x]) = hd x l.
Proof. now destruct l. Qed.

Lemma cycles_through_sound G root later depth : forall path current c pre,
  rev path = pre ++ [current] ->
  hd current pre = root ->
  NoDup path ->
  linked G pre current ->
  incl path (root :: later) ->
  In c (nx.cycles_through depth G root later path current) ->
  elementary_cycle G c /\ hd "" c = root /\ incl c (root :: later).
Proof.
  induction depth as [|depth IH]; intros path current c pre Er Hh ND L Hi Hc;
    cbn [nx.cycles_through] in Hc; [destruct Hc|].
  apply in_flat_map in Hc as (w & Hw & Hc).
  apply successors_has_edge in Hw.
  destruct (key_eqb_spec w root) as [->|Nw].
  - destruct Hc as [<-|[]]. rewrite Er. split; [|split].
    + split; [now destruct pre|]. split.
      * rewrite <- Er. now apply NoDup_rev.
      * apply linked_app. cbn [hd linked].
        rewrite hd_app_cons, Hh. repeat split; assumption.
    + now rewrite hd_app_cons.
    + rewrite <- Er. intros x Hx. apply Hi. now apply in_rev.
  - destruct (mem w later) eqn:Ml; cbn [andb] in Hc; [|destruct Hc].
    destruct (mem w path) eqn:Mp; cbn [negb] in Hc; [destruct Hc|].
    apply (IH (w :: path) w c (pre ++ [current])); auto.
    + cbn [rev]. now rewrite Er.
    + now rewrite hd_app_cons.
    + constructor; [now apply mem_false | assumption].
    + apply linked_app. cbn [hd linked]. repeat split; assumption.
    + intros x [<-|Hx]; [right; now apply mem_In | now apply Hi].
Qed.

Lemma cycles_through_complete G root later todo : forall depth path current,
  linked G (current :: todo) root ->
  NoDup (path ++ todo) ->
  ~ In root todo ->
  incl todo later ->
  (List.length todo < depth)%nat ->
  In (rev path ++ todo)
     (nx.cycles_through depth G root later path current).
Proof.
  induction todo as [|b todo IH]; intros depth path current [He L] ND Hr Hi Hd;
    (destruct depth as [|depth]; [cbn in Hd; lia|]);
    cbn [nx.cycles_through]; apply in_flat_map; cbn [hd] in He.
  - exists root. split; [now apply successors_has_edge|].
    rewrite key_eqb_refl, app_nil_r. now left.
  - exists b. split; [now apply successors_has_edge|].
    rewrite key_eqb_neq by (intros ->; apply Hr; now left).
    assert (Ml : mem b later = true) by (apply mem_In, Hi; now left).
    assert (Mp : mem b path = false).
    { apply mem_false. intros Hb. apply NoDup_remove_2 in ND.
      apply ND. apply in_or_app. now left. }
    rewrite Ml, Mp. cbn [andb negb].
    replace (rev path ++ b :: todo) with (rev (b :: path) ++ todo)
      by (cbn [rev]; now rewrite <- app_assoc).
    apply IH.
    + exact L.
    + cbn [app]. apply NoDup_cons_iff. split.
      * apply NoDup_remove_2 in ND. exact ND.
      * apply NoDup_remove_1 in ND. exact ND.
    + intros H. apply Hr. now right.
    + intros x Hx. apply Hi. now right.
    + cbn [List.length] in Hd. lia.
Qed.

Lemma elementary_cycle_cons G c :
  elementary_cycle G c -> c = hd "" c :: tl c.
Proof. intros [N _]. now destruct c. Qed.

Lemma cycles_from_sound G : forall order c,
  In c (nx.cycles_from G order) ->
  elementary_cycle G c /\ rooted order c.
Proof.
  induction order as [|s l IH]; intros c Hc; cbn [nx.cycles_from] in Hc;
    [destruct Hc|].
  apply in_app_or in Hc as [Hc|Hc].
  - destruct (@cycles_through_sound G s l (S (List.length l)) [s] s c [])
      as (E & Hh & Hi); auto.
    + repeat constructor. intros [].
    + exact Logic.I.
    + intros x [<-|[]]. now left.
    + split; [exact E|]. exists [], l. rewrite Hh. split; [reflexivity|].
      pose proof (elementary_cycle_cons E) as Ec.
      destruct E as (_ & ND & _). rewrite Ec, Hh in ND, Hi.
      apply NoDup_cons_iff in ND as [Hn _].
      intros x Hx. destruct (Hi x (or_intror Hx)) as [<-|H]; [contradiction|].
      exact H.
  - destruct (IH c Hc) as (E & before & later & -> & Hi).
    split; [exact E|]. exists (s :: before), later. split; [reflexivity|].
    exact Hi.
Qed.

Lemma cycles_from_app G l1 l2 c :
  In c (nx.cycles_from G l2) -> In c (nx.cycles_from G (l1 ++ l2)).
Proof.
  induction l1 as [|a l1 IH]; intros H; [exact H|].
  cbn [app nx.cycles_from]. apply in_or_app. right. auto.
Qed.

Lemma cycles_from_complete G order c :
  elementary_cycle G c -> rooted order c -> In c (nx.cycles_from G order).
Proof.
  intros E (before & later & -> & Hi).
  apply cycles_from_app. cbn [nx.cycles_from]. apply in_or_app. left.
  pose proof (elementary_cycle_cons E) as Ec.
  destruct E as (_ & ND & L).
  set (root := hd "" c) in *. set (todo := tl c) in *.
  rewrite Ec in ND, L. rewrite Ec at 1.
  change (root :: todo) with (rev [root] ++ todo).
  apply cycles_through_complete; auto.
  - now apply NoDup_cons_iff in ND.
  - apply NoDup_cons_iff in ND as [_ ND].
    pose proof (NoDup_incl_length ND Hi). lia.
Qed.

(** The enumeration returns exactly the elementary cycles that are rooted
    in the node order of the graph. *)
Lemma simple_cycles_spec G c :
  In c (nx.simple_cycles G) <->
  elementary_cycle G c /\ rooted (nx.nodes G) c.
Proof.
  split.
  - apply cycles_from_sound.
  - intros [E R]. now apply cycles_from_complete.
Qed.

Lemma NoDup_flat_map {A B} (f : A -> list B) l :
  NoDup l ->
  (forall x, In x l -> NoDup (f x)) ->
  (forall x y c, In x l -> In y l -> x <> y -> In c (f x) -> ~ In c (f y)) ->
  NoDup (flat_map f l).
Proof.
  induction 1 as [|a l Ha ND IH]; intros Hf Hd; cbn [flat_map]; [constructor|].
  apply NoDup_app.
  - apply Hf. now left.
  - apply IH.
    + intros x Hx. apply Hf. now right.
    + intros x y c Hx Hy. apply Hd; now right.
  - intros c Hc Hc'. apply in_flat_map in Hc' as (y & Hy & Hc').
    apply (Hd a y c); auto; [now left | now right | congruence].
Qed.

(** Every cycle the search returns extends the path it was called with. *)
Lemma cycles_through_prefix G root later depth : forall path current c,
  In c (nx.cycles_through depth G root later path current) ->
  exists t, c = rev path ++ t.
Proof.
  induction depth as [|depth IH]; intros path current c Hc;
    cbn [nx.cycles_through] in Hc; [destruct Hc|].
  apply in_flat_map in Hc as (w & _ & Hc).
  destruct (key_eqb w root).
  - destruct Hc as [<-|[]]. exists []. now rewrite app_nil_r.
  - destruct (mem w later && negb (mem w path)); [|destruct Hc].
    destruct (IH _ _ _ Hc) as [t ->]. exists (w :: t).
    cbn [rev]. now rewrite <- app_assoc.
Qed.

Lemma cycles_through_NoDup G root later depth : forall path current,
  (forall u, NoDup (nx.successors u G)) ->
  NoDup (nx.cycles_through depth G root later path current).
Proof.
  induction depth as [|depth IH]; intros path current HS;
    cbn [nx.cycles_through]; [constructor|].
  apply NoDup_flat_map.
  - apply HS.
  - intros w _. destruct (key_eqb w root); [repeat constructor; intros []|].
    destruct (mem w later && negb (mem w path)); [now apply IH | constructor].
  - intros x y c _ _ Nxy Hx Hy.
    assert (Hshape : forall w,
      In c (if key_eqb w root then [rev path]
            else if mem w later && negb (mem w path)
                 then nx.cycles_through depth G root later (w :: path) w
                 else []) ->
      (w = root /\ c = rev path) \/
      (w <> root /\ exists t, c = rev path ++ w :: t)).
    { intros w. destruct (key_eqb_spec w root) as [Ew|Nw]; intros Hw.
      - destruct Hw as [<-|[]]. now left.
      - right. split; [exact Nw|].
        destruct (mem w later && negb (mem w path)); [|destruct Hw].
        apply cycles_through_prefix in Hw as [t ->]. exists t.
        cbn [rev]. now rewrite <- app_assoc. }
    destruct (Hshape x Hx) as [[-> Ex]|[Nx [t Ex]]],
             (Hshape y Hy) as [[-> Ey]|[Ny [t' Ey]]].
    + congruence.
    + rewrite Ex in Ey. apply (f_equal (@List.length string)) in Ey.
      rewrite length_app in Ey. cbn [List.length] in Ey. lia.
    + rewrite Ey in Ex. apply (f_equal (@List.length string)) in Ex.
      rewrite length_app in Ex. cbn [List.length] in Ex. lia.
    + rewrite Ex in Ey. apply app_inv_head in Ey. congruence.
Qed.

Lemma successors_NoDup G u : digraph_inv G -> NoDup (nx.successors u G).
Proof.
  intros I. unfold nx.successors.
  destruct (get u (nx._succ G)) as [s|] eqn:E; [|constructor].
  apply (inv_succ_nodup I _ E).
Qed.

(** No cycle is enumerated twice. *)
Lemma simple_cycles_NoDup G : digraph_inv G -> NoDup (nx.simple_cycles G).
Proof.
  intros I. unfold nx.simple_cycles.
  pose proof (inv_nodup I) as ND.
  induction ND as [|s l Hs ND IH]; cbn [nx.cycles_from]; [constructor|].
  apply NoDup_app.
  - apply cycles_through_NoDup. intros u. now apply successors_NoDup.
  - exact IH.
  - intros c Hc Hc'.
    destruct (@cycles_through_sound G s l (S (List.length l)) [s] s c [])
      as (_ & Hh & _); auto.
    + repeat constructor. intros [].
    + exact Logic.I.
    + intros x [<-|[]]. now left.
    + apply cycles_from_sound in Hc' as (_ & before & later & El & _).
      apply Hs. rewrite El, Hh. apply in_or_app. right. now left.
Qed.

Lemma linked_nodes G l final :
  digraph_inv G -> linked G l final -> incl l (nx.nodes G).
Proof.
  intros I. induction l as [|a l IH]; intros L x Hx; [destruct Hx|].
  destruct L as [He L]. destruct Hx as [<-|Hx].
  - apply (has_edge_nodes _ _ I He).
  - now apply IH.
Qed.

Lemma first_hit (order c : list string) :
  (exists x, In x order /\ In x c) ->
  exists before s later,
    order = before ++ s :: later /\ In s c /\
    forall x, In x before -> ~ In x c.
Proof.
  induction order as [|a order IH]; intros (x & Hx & Hc); [destruct Hx|].
  destruct (in_dec string_dec a c) as [Ha|Ha].
  - exists [], a, order. repeat split; auto.
  - destruct IH as (before & s & later & -> & Hs & Hb).
    + destruct Hx as [<-|Hx]; [contradiction | now exists x].
    + exists (a :: before), s, later. repeat split; auto.
      intros y [<-|Hy]; auto.
Qed.

Lemma linked_rotate G pre s post :
  linked G (pre ++ s :: post) (hd "" (pre ++ s :: post)) ->
  linked G (s :: post ++ pre) s.
Proof.
  intros C. destruct pre as [|p pre].
  - rewrite app_nil_r. exact C.
  - cbn [app hd] in C. change (p :: pre ++ s :: post)
      with ((p :: pre) ++ s :: post) in C.
    apply linked_app in C as [C1 C2]. cbn [hd] in C1.
    change (s :: post ++ p :: pre) with ((s :: post) ++ p :: pre).
    apply linked_app. cbn [hd]. split; assumption.
Qed.

(** Every elementary cycle of the graph has a rotation that is rooted in
    the node order, and so is enumerated. *)
Lemma rooted_rotation_exists G c :
  digraph_inv G -> elementary_cycle G c ->
  exists c', rotation c c' /\ In c' (nx.simple_cycles G).
Proof.
  intros I E. pose proof (elementary_cycle_cons E) as Ec.
  destruct E as (Hne & ND & L).
  pose proof (linked_nodes _ _ I L) as Hin.
  destruct (@first_hit (nx.nodes G) c) as (before & s & later & Ev & Hs & Hb).
  { exists (hd "" c). split; [apply Hin|]; rewrite Ec; now left. }
  destruct (in_split _ _ Hs) as (pre & post & ->).
  assert (Pr : Permutation (s :: post ++ pre) (pre ++ s :: post)).
  { apply perm_trans with (s :: pre ++ post).
    - apply perm_skip. apply Permutation_app_comm.
    - apply Permutation_middle. }
  assert (ND' : NoDup (s :: post ++ pre))
    by (apply (Permutation_NoDup (Permutation_sym Pr) ND)).
  exists (s :: post ++ pre). split.
  - exists pre, (s :: post). split; reflexivity.
  - apply simple_cycles_spec. split.
    + split; [discriminate|]. split; [exact ND'|].
      cbn [hd]. now apply linked_rotate.
    + exists before, later. cbn [hd tl]. split; [exact Ev|].
      intros x Hx.
      assert (Hxc : In x (pre ++ s :: post))
        by (apply (Permutation_in _ Pr); now right).
      pose proof (Hin x Hxc) as Hxv. rewrite Ev in Hxv.
      apply in_app_or in Hxv as [Hxv|[<-|Hxv]].
      * exfalso. now apply (Hb x).
      * exfalso. apply NoDup_cons_iff in ND'. tauto.
      * exact Hxv.
Qed.

Lemma NoDup_split_unique {A} (y : A) a : forall b a' b',
  NoDup (a ++ y :: b) -> a ++ y :: b = a' ++ y :: b' -> a = a' /\ b = b'.
Proof.
  induction a as [|x a IH]; intros b a' b' ND E.
  - destruct a' as [|x' a']; cbn [app] in E.
    + injection E as <-. now split.
    + injection E as <- E. cbn [app] in ND.
      apply NoDup_cons_iff in ND as [Hn _]. exfalso. apply Hn.
      rewrite E. apply in_or_app. right. now left.
  - destruct a' as [|x' a']; cbn [app] in E.
    + injection E as -> E. cbn [app] in ND.
      apply NoDup_cons_iff in ND as [Hn _]. exfalso. apply Hn.
      apply in_or_app. right. now left.
    + injection E as <- E. cbn [app] in ND.
      apply NoDup_cons_iff in ND as [_ ND].
      destruct (IH _ _ _ ND E) as [-> ->]. now split.
Qed.

Lemma order_antisym {A} (x y : A) b1 l1 b2 l2 :
  NoDup (b1 ++ x :: l1) ->
  b1 ++ x :: l1 = b2 ++ y :: l2 ->
  In y l1 -> In x l2 -> False.
Proof.
  intros ND E Hy Hx.
  destruct (in_split _ _ Hy) as (m & n & ->).
  replace (b1 ++ x :: m ++ y :: n) with ((b1 ++ x :: m) ++ y :: n) in *
    by (rewrite <- app_assoc; reflexivity).
  destruct (NoDup_split_unique _ _ _ _ _ ND E) as [<- <-].
  rewrite <- app_assoc in ND. cbn [app] in ND.
  apply NoDup_remove_2 in ND. apply ND.
  apply in_or_app. right. apply in_or_app. right. now right.
Qed.

(** No cycle is enumerated under two different rotations. *)
Lemma simple_cycles_one_rotation G c1 c2 :
  digraph_inv G ->
  In c1 (nx.simple_cycles G) -> In c2 (nx.simple_cycles G) ->
  rotation c1 c2 -> c1 = c2.
Proof.
  intros I H1 H2 (pre & post & -> & ->).
  destruct pre as [|p pre]; [now rewrite app_nil_r|].
  destruct post as [|q post]; [now rewrite app_nil_r|].
  exfalso.
  apply simple_cycles_spec in H1 as (_ & b1 & l1 & E1 & T1).
  apply simple_cycles_spec in H2 as (_ & b2 & l2 & E2 & T2).
  cbn [app hd tl] in *.
  apply (@order_antisym _ p q b1 l1 b2 l2).
  - rewrite <- E1. apply (inv_nodup I).
  - congruence.
  - apply T1. apply in_or_app. right. now left.
  - apply T2. apply in_or_app. right. now left.
Qed.

(** ** Botnet detection: one alert per cycle of three or more nodes *)

(** C5: botnet detection returns exactly one alert for every enumerated
    cycle with at least 3 nodes, in enumeration order and with no
    deduplication across cycles; sources and targets are both the node
    sequence of the cycle, the confidence is min(1, length/10) and the
    severity is high iff length >= 5.  On a state of the store the
    enumeration lists elementary cycles only, lists every elementary cycle
    of the graph under one of its rotations, and lists none twice.  On a
    directed cycle through k >= 3 nodes with no other edge there is exactly
    one alert, whose source and target lists are a rotation of the k
    nodes. *)
Theorem botnet_one_alert_per_cycle (g : NetworkGraph) :
  (exists alerts,
     detect_botnet_attack g = Ok alerts /\
     Forall2 botnet_alert_for
             (filter (fun c => 3 <=? Z.of_nat (List.length c))
                     (nx.simple_cycles (graph g)))
             alerts) /\
  (reachable g ->
   NoDup (nx.simple_cycles (graph g)) /\
   (forall c, In c (nx.simple_cycles (graph g)) ->
              elementary_cycle (graph g) c) /\
   (forall c, elementary_cycle (graph g) c ->
              exists c', rotation c c' /\ In c' (nx.simple_cycles (graph g))) /\
   (forall c1 c2,
      In c1 (nx.simple_cycles (graph g)) ->
      In c2 (nx.simple_cycles (graph g)) ->
      rotation c1 c2 -> c1 = c2)) /\
  (forall ns,
     directed_cycle g ns ->
     3 <= Z.of_nat (List.length ns) ->
     exists alert rot,
       detect_botnet_attack g = Ok [alert] /\
       Permutation rot ns /\
       source_nodes alert = rot /\
       target_nodes alert = rot /\
       List.length (source_nodes alert) = List.length ns /\
       List.length (target_nodes alert) = List.length ns /\
       (confidence alert ==
        Qmin 1 (inject_Z (Z.of_nat (List.length ns)) / 10))%Q /\
       severity alert =
         if 5 <=? Z.of_nat (List.length ns) then high else medium).
Proof.
  split; [apply detect_botnet_attack_emits|]. split.
  - intros R. apply reachable_inv in R. destruct R as [I _].
    split; [now apply simple_cycles_NoDup|]. split; [|split].
    + intros c Hc. now apply simple_cycles_spec in Hc.
    + intros c. now apply rooted_rotation_exists.
    + intros c1 c2. now apply simple_cycles_one_rotation.
  - intros ns D Hk.
    destruct (@simple_cycles_directed_cycle g ns D) as (rot & Es & P).
    { intros ->. cbn in Hk. lia. }
    destruct (detect_botnet_attack_emits g) as (alerts & E & F).
    rewrite Es in F. cbn [filter] in F.
    pose proof (Permutation_length P) as Hl.
    rewrite Hl, (proj2 (Z.leb_le _ _) Hk) in F.
    inversion F as [|c a cs alerts' Ha F']; subst.
    apply Forall2_nil_l in F'. subst alerts'.
    destruct Ha as [Hkind Hs Ht Hc Hv].
    exists a, rot. rewrite Hs, Ht, Hl in *. repeat split; auto.
Qed.

Lemma triangle_is_cycle : directed_cycle triangle ["a"; "b"; "c"].
Proof.
  constructor.
  - apply Permutation_refl.
  - repeat constructor; cbn; intuition discriminate.
  - cbn. repeat split; reflexivity.
Qed.

Lemma botnet_one_alert_per_cycle_witness :
  reachable triangle /\
  directed_cycle triangle ["a"; "b"; "c"] /\
  3 <= Z.of_nat (List.length ["a"; "b"; "c"]) /\
  NoDup (nx.simple_cycles (graph triangle)) /\
  exists alert,
    detect_botnet_attack triangle = Ok [alert] /\
    List.length (source_nodes alert) = 3%nat /\
    List.length (target_nodes alert) = 3%nat /\
    severity alert = medium.
Proof.
  split; [apply built_reachable|].
  split; [exact triangle_is_cycle|].
  split; [discriminate|].
  destruct (botnet_one_alert_per_cycle triangle) as (_ & Hreach & Hring).
  split; [apply (Hreach (built_reachable _))|].
  destruct (Hring ["a"; "b"; "c"] triangle_is_cycle)
    as (alert & rot & E & _ & _ & _ & Hs & Ht & _ & Hv); [discriminate|].
  exists alert. repeat split; assumption.
Defined.

(** ** The record maps on every state of the store *)

Lemma add_edge_has_edge g edge g' :
  graph_inv g -> add_edge g edge = Ok g' ->
  forall a b,
    has_edge a b (graph g') =
    (key_eqb a (NetworkEdge.source edge) &&
     key_eqb b (NetworkEdge.target edge)) || has_edge a b (graph g).
Proof.
  intros I E.
  destruct (add_edge_ok edge I) as (g1 & E1 & _ & EG & _).
  rewrite E in E1. injection E1 as <-.
  destruct (nx_add_edge_ok (NetworkEdge.source edge)
              (NetworkEdge.target edge) (inv_graph I))
    as (G' & EG' & _ & _ & HE).
  rewrite EG in EG'. injection EG' as <-. exact HE.
Qed.

Lemma remove_edge_cases g s t g' :
  graph_inv g -> remove_edge g s t = Ok g' ->
  (contains (s, t) (edges g) = false /\ g' = g) \/
  (contains (s, t) (edges g) = true /\
   has_edge s t (graph g) = true /\
   edges g' = remove (s, t) (edges g) /\
   nodes g' = nodes g /\
   attack_thresholds g' = attack_thresholds g /\
   nx.nodes (graph g') = nx.nodes (graph g) /\
   forall a b,
     has_edge a b (graph g') =
     negb (key_eqb a s && key_eqb b t) && has_edge a b (graph g)).
Proof.
  intros I E. unfold remove_edge in E.
  destruct (contains (s, t) (edges g)) eqn:C.
  - right. apply bind_Ok_inv in E as (G' & EG & E). injection E as <-.
    assert (HE : has_edge s t (graph g) = true).
    { unfold nx.remove_edge in EG. unfold has_edge.
      destruct (get s (nx._succ (graph g))); [|discriminate].
      now destruct (contains t d). }
    destruct (nx_remove_edge_ok s t (inv_graph I) HE)
      as (G'' & EG' & _ & N & H).
    rewrite EG in EG'. injection EG' as <-.
    repeat split; auto.
  - left. injection E as <-. now split.
Qed.

Lemma records_inv_init : records_inv NetworkGraph_init.
Proof. constructor; cbn; try constructor. discriminate. Qed.

Lemma reachable_records_inv g : reachable g -> records_inv g.
Proof.
  induction 1 as [ | g node g' R IH E | g edge g' R IH E
                 | g n g' R IH E | g s t g' R IH E | g t R IH ].
  - apply records_inv_init.
  - pose proof (reachable_inv R) as I.
    destruct (add_node_ok node I) as (g1 & E1 & _ & EG & En & Ee & _).
    rewrite E in E1. injection E1 as <-.
    destruct IH as [N1 N2 C]. constructor.
    + rewrite En. now apply NoDup_keys_setitem.
    + now rewrite Ee.
    + intros u v. rewrite EG, Ee, ensure_node_has_edge by apply (inv_graph I).
      apply C.
  - pose proof (reachable_inv R) as I.
    pose proof (add_edge_has_edge _ I E) as HE.
    destruct (add_edge_ok edge I) as (g1 & E1 & _ & _ & En & Ee & _).
    rewrite E in E1. injection E1 as <-.
    destruct IH as [N1 N2 C]. constructor.
    + now rewrite En.
    + rewrite Ee. now apply NoDup_keys_setitem.
    + intros u v. rewrite HE, Ee, contains_setitem.
      intros H. apply orb_true_iff in H as [H|H].
      * apply orb_true_iff. left. exact H.
      * apply orb_true_iff. right. now apply C.
  - pose proof (reachable_inv R) as I. destruct IH as [N1 N2 C].
    destruct (contains n (nodes g)) eqn:Cn.
    + destruct (remove_node_present n I Cn) as (g1 & E1 & _ & _ & En & HE).
      rewrite E in E1. injection E1 as <-.
      pose proof (remove_node_keeps_edge_records _ _ E) as Ee.
      constructor.
      * rewrite En. now apply NoDup_keys_remove.
      * now rewrite Ee.
      * intros u v. rewrite HE, Ee. intros H.
        apply andb_true_iff in H as [_ H]. now apply C.
    + rewrite (remove_node_absent _ _ Cn) in E. injection E as <-.
      now constructor.
  - pose proof (reachable_inv R) as I. destruct IH as [N1 N2 C].
    destruct (remove_edge_cases _ _ I E)
      as [[_ ->]|(_ & _ & Ee & En & _ & _ & HE)]; [now constructor|].
    constructor.
    + now rewrite En.
    + rewrite Ee. now apply NoDup_keys_remove.
    + intros u v. rewrite HE, Ee, contains_remove. intros H.
      apply andb_true_iff in H as [H1 H2].
      apply andb_true_iff. split; [exact H1 | now apply C].
  - destruct IH as [N1 N2 C]. now constructor.
Qed.

(** ** Counting edges *)

Lemma In_get_iff {K V} `{Hashable K} (d : dict K V) k v :
  NoDup (keys d) -> (In (k, v) d <-> get k d = Some v).
Proof.
  induction d as [|[k0 v0] d IH]; cbn [keys map fst get]; intros ND.
  - split; [intros [] | discriminate].
  - apply NoDup_cons_iff in ND as [Hn ND]. fold (keys d) in *.
    destruct (key_eqb_spec k k0) as [->|N].
    + split.
      * intros [E|I]; [now injection E as <- |].
        exfalso. apply Hn. change k0 with (fst (k0, v)). now apply in_map.
      * intros [= <-]. now left.
    + rewrite <- (IH ND). split; [intros [E|I] | intros I]; auto.
      * injection E as -> _. congruence.
      * now right.
Qed.

Lemma NoDup_entries {K V} (d : dict K V) : NoDup (keys d) -> NoDup d.
Proof. apply NoDup_map_inv. Qed.

Lemma number_of_edges_length G :
  nx.number_of_edges G = Z.of_nat (List.length (nx_edges G)).
Proof.
  unfold nx.number_of_edges, nx_edges.
  induction (nx._succ G) as [|[u s] d IH]; cbn [fold_right flat_map];
    [reflexivity|].
  rewrite IH, length_app, length_map, length_keys. cbn [snd]. lia.
Qed.

Lemma nx_edges_In G u v :
  digraph_inv G -> (In (u, v) (nx_edges G) <-> has_edge u v G = true).
Proof.
  intros I. unfold nx_edges, has_edge. rewrite in_flat_map.
  assert (ND : NoDup (keys (nx._succ G)))
    by (rewrite (inv_succ_keys I); apply (inv_nodup I)).
  split.
  - intros ([u' s] & He & Hp). cbn [fst snd] in Hp.
    apply in_map_iff in Hp as (w & [= <- <-] & Hw).
    apply (In_get_iff _ _ _ ND) in He. rewrite He. now apply contains_In.
  - destruct (get u (nx._succ G)) as [s|] eqn:E; [|discriminate].
    intros C. exists (u, s). split; [now apply In_get_iff|].
    cbn [fst snd]. apply in_map. now apply contains_In.
Qed.

Lemma nx_pred_edges_In G u v :
  digraph_inv G -> (In (u, v) (nx_pred_edges G) <-> has_pred_edge u v G = true).
Proof.
  intros I. unfold nx_pred_edges, has_pred_edge. rewrite in_flat_map.
  assert (ND : NoDup (keys (nx._pred G)))
    by (rewrite (inv_pred_keys I); apply (inv_nodup I)).
  split.
  - intros ([v' p] & He & Hp). cbn [fst snd] in Hp.
    apply in_map_iff in Hp as (w & [= <- <-] & Hw).
    apply (In_get_iff _ _ _ ND) in He. rewrite He. now apply contains_In.
  - destruct (get v (nx._pred G)) as [p|] eqn:E; [|discriminate].
    intros C. exists (v, p). split; [now apply In_get_iff|].
    cbn [fst snd]. apply in_map_iff. exists u. split; [reflexivity|].
    now apply contains_In.
Qed.

Lemma nx_edges_NoDup G : digraph_inv G -> NoDup (nx_edges G).
Proof.
  intros I. unfold nx_edges.
  assert (ND : NoDup (keys (nx._succ G)))
    by (rewrite (inv_succ_keys I); apply (inv_nodup I)).
  apply NoDup_flat_map.
  - now apply NoDup_entries.
  - intros [u s] He. cbn [fst snd].
    apply Finite.Injective_map_NoDup; [intros a b; congruence|].
    apply (inv_succ_nodup I u). now apply In_get_iff.
  - intros [u s] [u' s'] [a b] Hx Hy Nxy H1 H2. cbn [fst snd] in *.
    apply in_map_iff in H1 as (w & [= <- <-] & _).
    apply in_map_iff in H2 as (w' & [= <- <-] & _).
    apply (In_get_iff _ _ _ ND) in Hx, Hy. congruence.
Qed.

Lemma nx_pred_edges_NoDup G : digraph_inv G -> NoDup (nx_pred_edges G).
Proof.
  intros I. unfold nx_pred_edges.
  assert (ND : NoDup (keys (nx._pred G)))
    by (rewrite (inv_pred_keys I); apply (inv_nodup I)).
  apply NoDup_flat_map.
  - now apply NoDup_entries.
  - intros [v p] He. cbn [fst snd].
    apply Finite.Injective_map_NoDup; [intros a b; congruence|].
    apply (inv_pred_nodup I v). now apply In_get_iff.
  - intros [v p] [v' p'] [a b] Hx Hy Nxy H1 H2. cbn [fst snd] in *.
    apply in_map_iff in H1 as (w & [= <- <-] & _).
    apply in_map_iff in H2 as (w' & [= <- <-] & _).
    apply (In_get_iff _ _ _ ND) in Hx, Hy. congruence.
Qed.

Lemma total_map_entries {V} (d : dict string V) (f : option V -> Z) :
  NoDup (keys d) ->
  total (fun n => f (get n d)) (keys d) =
  fold_right (fun e acc => f (Some (snd e)) + acc) 0 d.
Proof.
  unfold total.
  induction d as [|[k v] d IH]; cbn [keys map fst fold_right get];
    [reflexivity|].
  intros ND. apply NoDup_cons_iff in ND as [Hn ND]. fold (keys d) in *.
  rewrite key_eqb_refl. cbn [snd]. f_equal. rewrite <- (IH ND).
  clear IH. induction (keys d) as [|a l IHl]; [reflexivity|].
  cbn [fold_right]. rewrite key_eqb_neq.
  - f_equal. apply IHl.
    + intros H. apply Hn. now right.
    + now apply NoDup_cons_iff in ND.
  - intros ->. apply Hn. now left.
Qed.

Lemma total_outdegree g :
  graph_inv g ->
  total (outdegree g) (nx.nodes (graph g)) = nx.number_of_edges (graph g).
Proof.
  intros [I _]. rewrite <- (inv_succ_keys I).
  unfold outdegree, successor_set, nx.successors.
  rewrite (total_map_entries (nx._succ (graph g))
             (fun o => Z.of_nat (List.length
                         match o with Some s => keys s | None => [] end))).
  - unfold nx.number_of_edges.
    induction (nx._succ (graph g)) as [|[u s] d IH]; cbn [fold_right snd];
      [reflexivity|].
    now rewrite IH, length_keys.
  - rewrite (inv_succ_keys I). apply (inv_nodup I).
Qed.

Lemma total_indegree g :
  graph_inv g ->
  total (indegree g) (nx.nodes (graph g)) =
  Z.of_nat (List.length (nx_pred_edges (graph g))).
Proof.
  intros [I _]. rewrite <- (inv_pred_keys I).
  unfold indegree, predecessor_set.
  rewrite (total_map_entries (nx._pred (graph g))
             (fun o => Z.of_nat (List.length
                         match o with Some s => keys s | None => [] end))).
  - unfold nx_pred_edges.
    induction (nx._pred (graph g)) as [|[u s] d IH]; cbn [fold_right snd flat_map];
      [reflexivity|].
    rewrite IH, length_app, length_map. cbn [snd]. lia.
  - rewrite (inv_pred_keys I). apply (inv_nodup I).
Qed.

Lemma pred_edges_perm G :
  digraph_inv G -> Permutation (nx_edges G) (nx_pred_edges G).
Proof.
  intros I. apply NoDup_Permutation.
  - now apply nx_edges_NoDup.
  - now apply nx_pred_edges_NoDup.
  - intros [u v]. rewrite nx_edges_In, nx_pred_edges_In by assumption.
    now rewrite (inv_sym I).
Qed.

(** X1: every directed edge is counted once at its source and once at its
    target. *)
Theorem degree_sums (g : NetworkGraph) :
  reachable g ->
  total (outdegree g) (nx.nodes (graph g)) = edge_count (get_graph_stats g) /\
  total (indegree g) (nx.nodes (graph g)) = edge_count (get_graph_stats g).
Proof.
  intros R. apply reachable_inv in R. cbn [get_graph_stats edge_count].
  split; [now apply total_outdegree|].
  rewrite total_indegree, number_of_edges_length by assumption.
  f_equal. symmetry. apply Permutation_length.
  apply pred_edges_perm. apply (inv_graph R).
Qed.

Lemma degree_sums_witness :
  reachable path_abc /\
  total (outdegree path_abc) (nx.nodes (graph path_abc)) = 2 /\
  total (indegree path_abc) (nx.nodes (graph path_abc)) = 2.
Proof.
  split; [apply built_reachable|].
  exact (@degree_sums path_abc (built_reachable _)).
Defined.

(** X2: the snapshot lists node records and edge records, its statistics
    count the graph. *)
Theorem snapshot_counts (g : NetworkGraph) :
  reachable g ->
  let snapshot := to_dict g in
  Z.of_nat (List.length (dict_nodes snapshot))
    <= node_count (dict_stats snapshot) /\
  edge_count (dict_stats snapshot)
    <= Z.of_nat (List.length (dict_edges snapshot)) /\
  (forall node, In node (dict_nodes snapshot) ->
                exists n, In n (nx.nodes (graph g)) /\
                          get n (nodes g) = Some node) /\
  (forall u v, has_edge u v (graph g) = true ->
               exists edge, get (u, v) (edges g) = Some edge /\
                            In edge (dict_edges snapshot)).
Proof.
  intros R snapshot.
  pose proof (reachable_inv R) as I.
  pose proof (reachable_records_inv R) as [N1 N2 C].
  unfold snapshot, to_dict. cbn [dict_nodes dict_edges dict_stats].
  cbn [get_graph_stats node_count edge_count]. unfold values.
  rewrite !length_map. split; [|split; [|split]].
  - unfold nx.number_of_nodes. rewrite <- (length_keys (nodes g)).
    rewrite <- (length_keys (nx._node (graph g))).
    apply Nat2Z.inj_le. apply NoDup_incl_length; [exact N1|].
    intros n Hn. apply (inv_records I). now apply contains_In.
  - rewrite number_of_edges_length, <- (length_keys (edges g)).
    apply Nat2Z.inj_le. apply NoDup_incl_length.
    + apply nx_edges_NoDup, (inv_graph I).
    + intros [u v] H. apply contains_In, C.
      now apply nx_edges_In; [apply (inv_graph I)|].
  - intros node Hn. apply in_map_iff in Hn as ([n node'] & <- & Hn).
    exists n. cbn [snd]. split.
    + apply (inv_records I). apply contains_In.
      change n with (fst (n, node')). now apply in_map.
    + now apply In_get_iff.
  - intros u v H. apply C in H. rewrite contains_get in H.
    destruct (get (u, v) (edges g)) as [edge|] eqn:E; [|discriminate].
    exists edge. split; [reflexivity|].
    apply in_map_iff. exists ((u, v), edge). split; [reflexivity|].
    now apply In_get_iff.
Qed.

Lemma snapshot_counts_witness :
  reachable path_abc_without_b /\
  Z.of_nat (List.length (dict_nodes (to_dict path_abc_without_b))) <= 2 /\
  0 <= Z.of_nat (List.length (dict_edges (to_dict path_abc_without_b))).
Proof.
  split; [apply built_reachable|].
  destruct (@snapshot_counts path_abc_without_b (built_reachable _))
    as (Hn & He & _).
  split; [exact Hn | exact He].
Defined.

(** ** More on dictionaries *)

Section DictExtra.
Context {K V : Type} `{Hashable K}.
Implicit Types (k : K) (v : V) (d : dict K V).

Lemma setitem_same k v d : get k d = Some v -> setitem k v d = d.
Proof.
  induction d as [|[k0 v0] d IH]; cbn [get setitem]; [discriminate|].
  destruct (key_eqb_spec k k0) as [->|N].
  - now intros [= ->].
  - intros E. now rewrite IH.
Qed.

Lemma setitem_shadow k v v' d : setitem k v (setitem k v' d) = setitem k v d.
Proof.
  induction d as [|[k0 v0] d IH]; cbn [setitem].
  - now rewrite key_eqb_refl.
  - destruct (key_eqb k k0) eqn:E; cbn [setitem]; rewrite E; [reflexivity|].
    now rewrite IH.
Qed.

Lemma remove_setitem_absent k v d :
  contains k d = false -> remove k (setitem k v d) = d.
Proof.
  unfold contains.
  induction d as [|[k0 v0] d IH]; cbn [keys map fst mem setitem remove].
  - intros _. now rewrite key_eqb_refl.
  - intros C. apply orb_false_iff in C as [C1 C2].
    rewrite C1. cbn [remove]. rewrite C1. now rewrite IH.
Qed.

Lemma get_absent k d : contains k d = false -> get k d = None.
Proof.
  rewrite contains_get. now destruct (get k d).
Qed.

End DictExtra.

(** ** Degrees are determined by the edge relation *)

Lemma predecessors_has_pred_edge G u v :
  In u (match get v (nx._pred G) with Some p => keys p | None => [] end) <->
  has_pred_edge u v G = true.
Proof.
  unfold has_pred_edge. destruct (get v (nx._pred G)) as [p|].
  - symmetry. apply contains_In.
  - split; [intros [] | discriminate].
Qed.

Lemma predecessors_NoDup G v :
  digraph_inv G ->
  NoDup (match get v (nx._pred G) with Some p => keys p | None => [] end).
Proof.
  intros I. destruct (get v (nx._pred G)) as [p|] eqn:E; [|constructor].
  apply (inv_pred_nodup I _ E).
Qed.

Lemma outdegree_same g g' u :
  graph_inv g -> graph_inv g' ->
  (forall w, has_edge u w (graph g') = has_edge u w (graph g)) ->
  outdegree g' u = outdegree g u.
Proof.
  intros I I' H. unfold outdegree, successor_set. f_equal.
  apply Permutation_length. apply NoDup_Permutation.
  - apply successors_NoDup, (inv_graph I').
  - apply successors_NoDup, (inv_graph I).
  - intros w. now rewrite !successors_has_edge, H.
Qed.

Lemma indegree_same g g' v :
  graph_inv g -> graph_inv g' ->
  (forall w, has_edge w v (graph g') = has_edge w v (graph g)) ->
  indegree g' v = indegree g v.
Proof.
  intros I I' H. unfold indegree, predecessor_set. f_equal.
  apply Permutation_length. apply NoDup_Permutation.
  - apply predecessors_NoDup, (inv_graph I').
  - apply predecessors_NoDup, (inv_graph I).
  - intros w. rewrite !predecessors_has_pred_edge.
    rewrite <- (inv_sym (inv_graph I')), <- (inv_sym (inv_graph I)), H.
    reflexivity.
Qed.

Lemma outdegree_added g g' u v :
  graph_inv g -> graph_inv g' ->
  has_edge u v (graph g) = false ->
  (forall w, has_edge u w (graph g') = key_eqb w v || has_edge u w (graph g)) ->
  outdegree g' u = outdegree g u + 1.
Proof.
  intros I I' Hn H. unfold outdegree, successor_set.
  replace (Z.of_nat (List.length (nx.successors u (graph g))) + 1)
    with (Z.of_nat (List.length (v :: nx.successors u (graph g))))
    by (cbn [List.length]; lia).
  f_equal. apply Permutation_length. apply NoDup_Permutation.
  - apply successors_NoDup, (inv_graph I').
  - constructor; [|apply successors_NoDup, (inv_graph I)].
    rewrite successors_has_edge. congruence.
  - intros w. cbn [In]. rewrite !successors_has_edge, H, orb_true_iff.
    destruct (key_eqb_spec w v); intuition congruence.
Qed.

Lemma indegree_added g g' u v :
  graph_inv g -> graph_inv g' ->
  has_edge u v (graph g) = false ->
  (forall w, has_edge w v (graph g') = key_eqb w u || has_edge w v (graph g)) ->
  indegree g' v = indegree g v + 1.
Proof.
  intros I I' Hn H. unfold indegree, predecessor_set.
  set (P G := match get v (nx._pred G) with Some p => keys p | None => [] end).
  change (Z.of_nat (List.length (P (graph g'))) =
          Z.of_nat (List.length (P (graph g))) + 1).
  replace (Z.of_nat (List.length (P (graph g))) + 1)
    with (Z.of_nat (List.length (u :: P (graph g))))
    by (cbn [List.length]; lia).
  f_equal. apply Permutation_length. apply NoDup_Permutation.
  - apply predecessors_NoDup, (inv_graph I').
  - constructor; [|apply predecessors_NoDup, (inv_graph I)].
    unfold P. rewrite predecessors_has_pred_edge, <- (inv_sym (inv_graph I)).
    congruence.
  - intros w. cbn [In]. unfold P. rewrite !predecessors_has_pred_edge.
    rewrite <- (inv_sym (inv_graph I')), <- (inv_sym (inv_graph I)).
    rewrite H, orb_true_iff.
    destruct (key_eqb_spec w u); intuition congruence.
Qed.

Lemma edge_count_added g g' u v :
  graph_inv g -> graph_inv g' ->
  has_edge u v (graph g) = false ->
  (forall a b, has_edge a b (graph g') =
               (key_eqb a u && key_eqb b v) || has_edge a b (graph g)) ->
  nx.number_of_edges (graph g') = nx.number_of_edges (graph g) + 1.
Proof.
  intros I I' Hn H. rewrite !number_of_edges_length.
  replace (Z.of_nat (List.length (nx_edges (graph g))) + 1)
    with (Z.of_nat (List.length ((u, v) :: nx_edges (graph g))))
    by (cbn [List.length]; lia).
  f_equal. apply Permutation_length. apply NoDup_Permutation.
  - apply nx_edges_NoDup, (inv_graph I').
  - constructor; [|apply nx_edges_NoDup, (inv_graph I)].
    rewrite nx_edges_In by apply (inv_graph I). congruence.
  - intros [a b]. cbn [In].
    rewrite !nx_edges_In by (apply inv_graph; assumption). rewrite H, orb_true_iff.
    destruct (key_eqb_spec a u), (key_eqb_spec b v); cbn [andb];
      intuition congruence.
Qed.

(** ** Adding nodes and edges twice *)

Lemma ensure_node_known n G :
  digraph_inv G -> In n (nx.nodes G) -> nx.ensure_node n G = G.
Proof.
  intros I Hn. unfold nx.ensure_node.
  rewrite (inv_contains_succ _ I).
  now rewrite (proj1 (in_nodes_contains n G) Hn).
Qed.

Lemma nx_add_edge_known u v G :
  digraph_inv G -> has_edge u v G = true -> nx.add_edge u v G = Ok G.
Proof.
  intros I HE. destruct (has_edge_nodes _ _ I HE) as [Hu Hv].
  unfold nx.add_edge.
  rewrite (@ensure_node_known u G I Hu), (@ensure_node_known v G I Hv).
  assert (HP := HE). rewrite (inv_sym I) in HP.
  unfold has_edge in HE. unfold has_pred_edge in HP. unfold getitem.
  destruct (get u (nx._succ G)) as [su|] eqn:Esu; [|discriminate].
  destruct (get v (nx._pred G)) as [pv|] eqn:Epv; [|discriminate].
  cbn [bind].
  assert (Ev : get v su = Some tt).
  { rewrite contains_get in HE. destruct (get v su) as [[]|];
      [reflexivity | discriminate]. }
  assert (Eu : get u pv = Some tt).
  { rewrite contains_get in HP. destruct (get u pv) as [[]|];
      [reflexivity | discriminate]. }
  rewrite (@setitem_same _ _ _ v tt su Ev), (@setitem_same _ _ _ u su _ Esu).
  rewrite (@setitem_same _ _ _ u tt pv Eu), (@setitem_same _ _ _ v pv _ Epv).
  now destruct G.
Qed.

(** X3: [add_node] is an upsert of the node record that never changes an
    edge or a degree. *)
Theorem add_node_upsert (g : NetworkGraph) (node : NetworkNode.t) :
  reachable g ->
  exists g',
    add_node g node = Ok g' /\
    get (NetworkNode.id node) (nodes g') = Some node /\
    (forall m, m <> NetworkNode.id node ->
               get m (nodes g') = get m (nodes g)) /\
    NoDup (keys (nodes g')) /\
    (contains (NetworkNode.id node) (nodes g) = true ->
     keys (nodes g') = keys (nodes g)) /\
    (In (NetworkNode.id node) (nx.nodes (graph g)) -> graph g' = graph g) /\
    In (NetworkNode.id node) (nx.nodes (graph g')) /\
    (forall a b, has_edge a b (graph g') = has_edge a b (graph g)) /\
    (forall n, indegree g' n = indegree g n /\
               outdegree g' n = outdegree g n) /\
    edges g' = edges g.
Proof.
  intros R. pose proof (reachable_inv R) as I.
  pose proof (reachable_records_inv R) as [N1 _ _].
  destruct (add_node_ok node I) as (g' & E & I' & EG & En & Ee & _).
  assert (HE : forall a b, has_edge a b (graph g') = has_edge a b (graph g))
    by (intros a b; rewrite EG; apply ensure_node_has_edge, (inv_graph I)).
  exists g'. split; [exact E|]. repeat split.
  - rewrite En, get_setitem. now rewrite key_eqb_refl.
  - intros m Hm. rewrite En, get_setitem. now rewrite key_eqb_neq.
  - rewrite En. now apply NoDup_keys_setitem.
  - intros C. rewrite En, keys_setitem. now rewrite C.
  - intros Hn. rewrite EG. apply ensure_node_known; [apply (inv_graph I) | exact Hn].
  - rewrite EG. apply ensure_node_In, (inv_graph I).
  - exact HE.
  - apply indegree_same; auto.
  - apply outdegree_same; auto.
  - exact Ee.
Qed.

Lemma add_node_upsert_witness :
  reachable path_abc /\
  exists g',
    add_node path_abc (NetworkNode.mk "a" "10.0.0.9" "server" []) = Ok g' /\
    graph g' = graph path_abc /\
    keys (nodes g') = keys (nodes path_abc).
Proof.
  split; [apply built_reachable|].
  destruct (@add_node_upsert path_abc
              (NetworkNode.mk "a" "10.0.0.9" "server" [])
              (built_reachable _))
    as (g' & E & _ & _ & _ & Hk & Hg & _).
  exists g'. split; [exact E|]. split.
  - apply Hg. vm_compute. tauto.
  - apply Hk. reflexivity.
Defined.

(** X4: [add_edge] keeps at most one edge per ordered pair: on an existing
    edge only the record changes, a new edge adds one to the outdegree of
    its source, to the indegree of its target and to the edge count. *)
Theorem add_edge_upsert (g : NetworkGraph) (edge : NetworkEdge.t) :
  let u := NetworkEdge.source edge in
  let v := NetworkEdge.target edge in
  reachable g ->
  exists g',
    add_edge g edge = Ok g' /\
    get (u, v) (edges g') = Some edge /\
    NoDup (keys (edges g')) /\
    has_edge u v (graph g') = true /\
    (forall a b, (a, b) <> (u, v) ->
                 has_edge a b (graph g') = has_edge a b (graph g)) /\
    (has_edge u v (graph g) = true ->
     graph g' = graph g /\ keys (edges g') = keys (edges g)) /\
    (has_edge u v (graph g) = false ->
     outdegree g' u = outdegree g u + 1 /\
     indegree g' v = indegree g v + 1 /\
     edge_count (get_graph_stats g') = edge_count (get_graph_stats g) + 1).
Proof.
  intros u v R. pose proof (reachable_inv R) as I.
  pose proof (reachable_records_inv R) as [_ N2 C].
  destruct (add_edge_ok edge I) as (g' & E & I' & EG & _ & Ee & _).
  pose proof (add_edge_has_edge _ I E) as HE. fold u v in HE, EG, Ee.
  exists g'. split; [exact E|]. repeat split.
  - rewrite Ee, get_setitem. now rewrite key_eqb_refl.
  - rewrite Ee. now apply NoDup_keys_setitem.
  - rewrite HE, !key_eqb_refl. reflexivity.
  - intros a b N. rewrite HE.
    destruct (key_eqb_spec a u), (key_eqb_spec b v); subst; cbn [andb orb];
      congruence.
  - rewrite (@nx_add_edge_known u v _ (inv_graph I) H) in EG. congruence.
  - rewrite Ee, keys_setitem. now rewrite (C _ _ H).
  - apply (@outdegree_added g g' u v); auto.
    intros w. rewrite HE, key_eqb_refl. reflexivity.
  - apply (@indegree_added g g' u v); auto.
    intros w. rewrite HE, key_eqb_refl, andb_true_r. reflexivity.
  - cbn [get_graph_stats edge_count].
    now apply (@edge_count_added g g' u v).
Qed.

Lemma add_edge_upsert_witness :
  reachable path_abc /\
  exists g',
    add_edge path_abc (NetworkEdge.mk "a" "c" 1 "TCP" 80 0 []) = Ok g' /\
    outdegree g' "a" = 2 /\
    indegree g' "c" = 2.
Proof.
  split; [apply built_reachable|].
  destruct (@add_edge_upsert path_abc
              (NetworkEdge.mk "a" "c" 1 "TCP" 80 0 [])
              (built_reachable _))
    as (g' & E & _ & _ & _ & _ & _ & Hn).
  exists g'. split; [exact E|].
  destruct Hn as (Ho & Hi & _); [reflexivity|].
  split; [exact Ho | exact Hi].
Defined.

(** ** Removing an edge *)

Lemma remove_edge_stale g s t :
  contains (s, t) (edges g) = true -> has_edge s t (graph g) = false ->
  remove_edge g s t = Raise NetworkXError.
Proof.
  intros C HE. unfold remove_edge. rewrite C.
  unfold nx.remove_edge. unfold has_edge in HE.
  destruct (get s (nx._succ (graph g))); [|reflexivity].
  now rewrite HE.
Qed.

(** X5: [remove_edge] is a no-op without an edge record; with a record and
    the edge in the graph it removes exactly that edge and its record and
    keeps both endpoints; with a record whose edge is no longer in the
    graph it raises [NetworkXError]. *)
Theorem remove_edge_exact (g : NetworkGraph) (s t : string) :
  reachable g ->
  (contains (s, t) (edges g) = false -> remove_edge g s t = Ok g) /\
  (contains (s, t) (edges g) = true -> has_edge s t (graph g) = true ->
   exists g',
     remove_edge g s t = Ok g' /\
     contains (s, t) (edges g') = false /\
     has_edge s t (graph g') = false /\
     (forall a b, (a, b) <> (s, t) ->
                  has_edge a b (graph g') = has_edge a b (graph g)) /\
     nx.nodes (graph g') = nx.nodes (graph g) /\
     nodes g' = nodes g /\
     outdegree g' s = outdegree g s - 1 /\
     indegree g' t = indegree g t - 1 /\
     edge_count (get_graph_stats g') = edge_count (get_graph_stats g) - 1) /\
  (contains (s, t) (edges g) = true -> has_edge s t (graph g) = false ->
   remove_edge g s t = Raise NetworkXError).
Proof.
  intros R. pose proof (reachable_inv R) as I. split; [|split].
  - intros C. unfold remove_edge. now rewrite C.
  - intros C HE.
    destruct (nx_remove_edge_ok s t (inv_graph I) HE)
      as (G' & EG & IG' & N & H).
    assert (E : remove_edge g s t =
                Ok {| graph := G'; nodes := nodes g;
                      edges := remove (s, t) (edges g);
                      attack_thresholds := attack_thresholds g |})
      by (unfold remove_edge; rewrite C, EG; reflexivity).
    pose proof (reachable_inv (reach_remove_edge _ _ R E)) as I'.
    eexists. split; [exact E|]. fields.
    assert (Hst : has_edge s t G' = false)
      by (rewrite H, !key_eqb_refl; reflexivity).
    repeat split; auto.
    + rewrite contains_remove. now rewrite key_eqb_refl.
    + intros a b Nab. rewrite H.
      destruct (key_eqb_spec a s), (key_eqb_spec b t); subst; cbn [andb negb];
        congruence.
    + enough (outdegree g s =
              outdegree {| graph := G'; nodes := nodes g;
                           edges := remove (s, t) (edges g);
                           attack_thresholds := attack_thresholds g |} s + 1)
        by lia.
      apply (@outdegree_added _ g s t); auto. fields.
      intros w. rewrite H, key_eqb_refl. cbn [andb].
      destruct (key_eqb_spec w t) as [->|]; [now rewrite HE | reflexivity].
    + enough (indegree g t =
              indegree {| graph := G'; nodes := nodes g;
                          edges := remove (s, t) (edges g);
                          attack_thresholds := attack_thresholds g |} t + 1)
        by lia.
      apply (@indegree_added _ g s t); auto. fields.
      intros w. rewrite H, key_eqb_refl, andb_true_r.
      destruct (key_eqb_spec w s) as [->|]; [now rewrite HE | reflexivity].
    + cbn [get_graph_stats edge_count]. fields.
      enough (nx.number_of_edges (graph g) = nx.number_of_edges G' + 1) by lia.
      apply (@edge_count_added
               {| graph := G'; nodes := nodes g;
                  edges := remove (s, t) (edges g);
                  attack_thresholds := attack_thresholds g |} g s t); auto.
      fields. intros a b. rewrite H.
      destruct (key_eqb_spec a s), (key_eqb_spec b t); subst; cbn [andb negb orb];
        auto.
  - apply remove_edge_stale.
Qed.

Lemma remove_edge_exact_witness :
  reachable path_abc_without_b /\
  contains ("a", "b") (edges path_abc_without_b) = true /\
  has_edge "a" "b" (graph path_abc_without_b) = false /\
  remove_edge path_abc_without_b "a" "b" = Raise NetworkXError.
Proof.
  split; [apply built_reachable|].
  split; [reflexivity|]. split; [reflexivity|].
  destruct (@remove_edge_exact path_abc_without_b "a" "b"
              (built_reachable _)) as (_ & _ & H).
  apply H; reflexivity.
Defined.

(** X6: after [remove_node] the records of the edges of the removed node
    are stale: each such edge is gone from the graph, and [remove_edge] on
    it raises [NetworkXError]. *)
Theorem remove_edge_after_remove_node (g : NetworkGraph) (u v n : string) :
  reachable g ->
  contains (u, v) (edges g) = true ->
  contains n (nodes g) = true ->
  n = u \/ n = v ->
  exists g',
    remove_node g n = Ok g' /\
    contains (u, v) (edges g') = true /\
    has_edge u v (graph g') = false /\
    remove_edge g' u v = Raise NetworkXError.
Proof.
  intros R C Cn Hn. pose proof (reachable_inv R) as I.
  destruct (remove_node_present n I Cn) as (g' & E & _ & _ & _ & HE).
  pose proof (remove_node_keeps_edge_records _ _ E) as Ee.
  assert (Hg : has_edge u v (graph g') = false).
  { rewrite HE. destruct Hn as [->| ->]; rewrite key_eqb_refl; cbn [negb andb];
      [reflexivity | now rewrite andb_false_r]. }
  exists g'. repeat split; auto; [now rewrite Ee|].
  apply remove_edge_stale; [now rewrite Ee | exact Hg].
Qed.

Lemma remove_edge_after_remove_node_witness :
  reachable path_abc /\
  contains ("a", "b") (edges path_abc) = true /\
  contains "b" (nodes path_abc) = true /\
  exists g',
    remove_node path_abc "b" = Ok g' /\
    remove_edge g' "a" "b" = Raise NetworkXError.
Proof.
  split; [apply built_reachable|].
  split; [reflexivity|]. split; [reflexivity|].
  destruct (@remove_edge_after_remove_node path_abc "a" "b" "b"
              (built_reachable _))
    as (g' & E & _ & _ & Hr); try reflexivity.
  - now right.
  - exists g'. split; assumption.
Defined.

(** ** Round trips *)

Lemma nx_add_remove_node n G :
  digraph_inv G -> ~ In n (nx.nodes G) ->
  nx.remove_node n (nx.ensure_node n G) = Ok G.
Proof.
  intros I Hn.
  assert (Cn : contains n (nx._node G) = false).
  { destruct (contains n (nx._node G)) eqn:C; [|reflexivity].
    exfalso. now apply Hn, in_nodes_contains. }
  assert (Cs : contains n (nx._succ G) = false)
    by now rewrite inv_contains_succ.
  assert (Cp : contains n (nx._pred G) = false)
    by now rewrite inv_contains_pred.
  unfold nx.ensure_node. rewrite Cs.
  unfold nx.remove_node. fields.
  rewrite get_setitem, key_eqb_refl, contains_setitem, key_eqb_refl.
  cbn [orb keys map nx.del_from_each bind]. unfold getitem.
  rewrite get_setitem, key_eqb_refl.
  cbn [bind keys map nx.del_from_each]. unfold delitem.
  rewrite contains_setitem, key_eqb_refl. cbn [orb bind].
  rewrite !remove_setitem_absent by assumption.
  now destruct G.
Qed.

(** X7: registering a host that the graph does not know and removing it
    again gives back the very same store. *)
Theorem add_node_then_remove_node (g : NetworkGraph) (node : NetworkNode.t) :
  reachable g ->
  ~ In (NetworkNode.id node) (nx.nodes (graph g)) ->
  exists g1,
    add_node g node = Ok g1 /\
    remove_node g1 (NetworkNode.id node) = Ok g.
Proof.
  intros R Hn. pose proof (reachable_inv R) as I.
  assert (C : contains (NetworkNode.id node) (nodes g) = false).
  { destruct (contains (NetworkNode.id node) (nodes g)) eqn:C; [|reflexivity].
    exfalso. apply Hn. now apply (inv_records I). }
  eexists. split.
  - unfold add_node. rewrite nx_add_node_ok by apply (inv_graph I).
    reflexivity.
  - unfold remove_node. fields.
    rewrite contains_setitem, key_eqb_refl. cbn [orb].
    rewrite nx_add_remove_node by (auto; apply (inv_graph I)).
    cbn [bind]. rewrite remove_setitem_absent by assumption.
    now destruct g.
Qed.

Lemma add_node_then_remove_node_witness :
  reachable path_abc /\
  ~ In "d" (nx.nodes (graph path_abc)) /\
  exists g1,
    add_node path_abc (NetworkNode.mk "d" "10.0.0.4" "server" []) = Ok g1 /\
    remove_node g1 "d" = Ok path_abc.
Proof.
  assert (N : ~ In "d" (nx.nodes (graph path_abc)))
    by (vm_compute; intuition discriminate).
  split; [apply built_reachable|]. split; [exact N|].
  exact (@add_node_then_remove_node path_abc
           (NetworkNode.mk "d" "10.0.0.4" "server" [])
           (built_reachable _) N).
Defined.

Lemma nx_add_remove_edge u v G :
  digraph_inv G -> In u (nx.nodes G) -> In v (nx.nodes G) ->
  has_edge u v G = false ->
  exists G1, nx.add_edge u v G = Ok G1 /\ nx.remove_edge u v G1 = Ok G.
Proof.
  intros I Hu Hv HE.
  assert (HP := HE). rewrite (inv_sym I) in HP.
  destruct (inv_get_succ u I Hu) as [su Esu].
  destruct (inv_get_pred v I Hv) as [pv Epv].
  unfold has_edge in HE. rewrite Esu in HE.
  unfold has_pred_edge in HP. rewrite Epv in HP.
  eexists. split.
  - unfold nx.add_edge.
    rewrite (@ensure_node_known u G I Hu), (@ensure_node_known v G I Hv).
    unfold getitem. rewrite Esu, Epv. cbn [bind]. reflexivity.
  - unfold nx.remove_edge. fields.
    rewrite !get_setitem, !key_eqb_refl, !contains_setitem, !key_eqb_refl.
    cbn [orb]. rewrite !remove_setitem_absent by assumption.
    rewrite !setitem_shadow.
    rewrite (@setitem_same _ _ _ u su _ Esu), (@setitem_same _ _ _ v pv _ Epv).
    now destruct G.
Qed.

(** X8: adding an edge that has no record between two nodes of the graph
    and removing it again gives back the very same store. *)
Theorem add_edge_then_remove_edge (g : NetworkGraph) (edge : NetworkEdge.t) :
  let u := NetworkEdge.source edge in
  let v := NetworkEdge.target edge in
  reachable g ->
  In u (nx.nodes (graph g)) ->
  In v (nx.nodes (graph g)) ->
  contains (u, v) (edges g) = false ->
  exists g1,
    add_edge g edge = Ok g1 /\
    remove_edge g1 u v = Ok g.
Proof.
  intros u v R Hu Hv C. pose proof (reachable_inv R) as I.
  pose proof (reachable_records_inv R) as [_ _ Cov].
  assert (HE : has_edge u v (graph g) = false).
  { destruct (has_edge u v (graph g)) eqn:E; [|reflexivity].
    apply Cov in E. congruence. }
  destruct (@nx_add_remove_edge u v (graph g) (inv_graph I) Hu Hv HE)
    as (G1 & E1 & E2).
  eexists. split.
  - unfold add_edge. fold u v. rewrite E1. reflexivity.
  - unfold remove_edge. fields.
    rewrite contains_setitem, key_eqb_refl. cbn [orb].
    rewrite E2. cbn [bind]. rewrite remove_setitem_absent by assumption.
    now destruct g.
Qed.

Lemma add_edge_then_remove_edge_witness :
  reachable path_abc /\
  In "a" (nx.nodes (graph path_abc)) /\
  In "c" (nx.nodes (graph path_abc)) /\
  contains ("a", "c") (edges path_abc) = false /\
  exists g1,
    add_edge path_abc (NetworkEdge.mk "a" "c" 1 "TCP" 80 0 []) = Ok g1 /\
    remove_edge g1 "a" "c" = Ok path_abc.
Proof.
  assert (Ha : In "a" (nx.nodes (graph path_abc))) by (vm_compute; tauto).
  assert (Hc : In "c" (nx.nodes (graph path_abc))) by (vm_compute; tauto).
  split; [apply built_reachable|]. split; [exact Ha|]. split; [exact Hc|].
  split; [reflexivity|].
  exact (@add_edge_then_remove_edge path_abc
           (NetworkEdge.mk "a" "c" 1 "TCP" 80 0 [])
           (built_reachable _) Ha Hc eq_refl).
Defined.

(** ** The search returns the reachable set *)

Lemma bfs_expand_members neighbors : forall visited queue,
  exists fresh,
    bfs_expand neighbors visited queue = (visited ++ fresh, queue ++ fresh) /\
    (forall x, In x fresh -> In x neighbors) /\
    (forall x, In x neighbors -> In x (visited ++ fresh)).
Proof.
  induction neighbors as [|n rest IH]; intros visited queue; cbn [bfs_expand].
  - exists []. rewrite !app_nil_r. repeat split; auto. intros x [].
  - destruct (mem n visited) eqn:M.
    + destruct (IH visited queue) as (fresh & E & H1 & H2).
      exists fresh. repeat split; auto.
      * intros x Hx. right. auto.
      * intros x [<-|Hx]; auto. apply in_or_app. left. now apply mem_In.
    + destruct (IH (visited ++ [n]) (queue ++ [n])) as (fresh & E & H1 & H2).
      exists (n :: fresh). rewrite E, <- !app_assoc. cbn [app].
      repeat split.
      * intros x [<-|Hx]; [now left | right; auto].
      * intros x [<-|Hx].
        -- apply in_or_app. right. now left.
        -- specialize (H2 x Hx). rewrite <- app_assoc in H2. exact H2.
Qed.

Lemma get_neighbors_Ok g c nbrs :
  get_neighbors g c = Ok nbrs ->
  forall w, In w nbrs <-> has_edge c w (graph g) = true.
Proof.
  unfold get_neighbors, nx.neighbors, has_edge.
  destruct (get c (nx._succ (graph g))) as [s|]; [|discriminate].
  intros [= <-] w. symmetry. apply contains_In.
Qed.

Lemma closed_contains_connected g start (visited : list string) :
  In start visited ->
  (forall x, In x visited ->
     forall w, has_edge x w (graph g) = true -> In w visited) ->
  forall x, connected (graph g) start x -> In x visited.
Proof.
  intros Hs Hc x. induction 1 as [|v w _ IH He]; [exact Hs|].
  now apply (Hc v).
Qed.

Lemma bfs_while_reachable g start budget : forall visited queue r,
  bfs_while budget g visited queue = Ok r ->
  In start visited ->
  incl queue visited ->
  (forall x, In x visited -> connected (graph g) start x) ->
  (forall x, In x visited ->
     In x queue \/
     forall w, has_edge x w (graph g) = true -> In w visited) ->
  forall x, In x r <-> connected (graph g) start x.
Proof.
  assert (Done : forall visited r,
    Ok visited = Ok r ->
    In start visited ->
    (forall x, In x visited -> connected (graph g) start x) ->
    (forall x, In x visited ->
       In x (@nil string) \/
       forall w, has_edge x w (graph g) = true -> In w visited) ->
    forall x, In x r <-> connected (graph g) start x).
  { intros visited r [= <-] Hs Hsound Hclosed x. split; [apply Hsound|].
    apply closed_contains_connected; [exact Hs|].
    intros y Hy. destruct (Hclosed y Hy) as [[]|H]. exact H. }
  induction budget as [|budget IH];
    intros visited queue r E Hs Hq Hsound Hclosed;
    (destruct queue as [|c rest]; [now apply (Done visited)|]);
    cbn [bfs_while] in E; [discriminate|].
  apply bind_Ok_inv in E as (nbrs & En & E).
  pose proof (get_neighbors_Ok _ _ En) as Hn.
  destruct (bfs_expand_members nbrs visited rest) as (fresh & Ee & H1 & H2).
  rewrite Ee in E.
  apply (IH _ _ _ E).
  - apply in_or_app. now left.
  - intros x Hx. apply in_or_app.
    apply in_app_or in Hx as [Hx|Hx]; [left | now right].
    apply Hq. now right.
  - intros x Hx. apply in_app_or in Hx as [Hx|Hx]; [auto|].
    apply connected_step with c.
    + apply Hsound, Hq. now left.
    + apply Hn. auto.
  - intros x Hx. apply in_app_or in Hx as [Hx|Hx].
    + destruct (key_eqb_spec x c) as [->|Nx].
      * right. intros w Hw. apply H2. now apply Hn.
      * destruct (Hclosed x Hx) as [[Hc|Hr]|H].
        -- congruence.
        -- left. apply in_or_app. now left.
        -- right. intros w Hw. apply in_or_app. left. now apply H.
    + left. apply in_or_app. now right.
Qed.

(** X9: on a state of the store, the search from a node of the graph
    returns, without repetition, exactly the nodes that a directed walk
    from the start node reaches, the start node included. *)
Theorem bfs_reachable_set (g : NetworkGraph) (start_node : string) :
  reachable g ->
  In start_node (nx.nodes (graph g)) ->
  exists r,
    _bfs_reachable g start_node = Ok r /\
    NoDup r /\
    In start_node r /\
    forall x, In x r <-> connected (graph g) start_node x.
Proof.
  intros R Hs. apply reachable_inv in R.
  destruct (_bfs_reachable_ok start_node R Hs) as (r & E & Hin & ND & _).
  exists r. repeat split; auto.
  - revert x. apply (@bfs_while_reachable g start_node _ _ _ _ E).
    + now left.
    + apply incl_refl.
    + intros x [<-|[]]. constructor.
    + intros x [<-|[]]. left. now left.
  - revert x. apply (@bfs_while_reachable g start_node _ _ _ _ E).
    + now left.
    + apply incl_refl.
    + intros x [<-|[]]. constructor.
    + intros x [<-|[]]. left. now left.
Qed.

Lemma bfs_reachable_set_witness :
  reachable path_abc /\
  In "b" (nx.nodes (graph path_abc)) /\
  exists r,
    _bfs_reachable path_abc "b" = Ok r /\
    In "c" r /\
    ~ connected (graph path_abc) "b" "a".
Proof.
  assert (Hb : In "b" (nx.nodes (graph path_abc))) by (vm_compute; tauto).
  split; [apply built_reachable|]. split; [exact Hb|].
  destruct (@bfs_reachable_set path_abc "b" (built_reachable _) Hb)
    as (r & E & _ & _ & Hr).
  exists r. split; [exact E|].
  assert (Er : Ok r = Ok ["b"; "c"]) by (rewrite <- E; reflexivity).
  injection Er as ->. split.
  - right. left. reflexivity.
  - intros C. apply Hr in C. cbn in C. intuition discriminate.
Defined.

(** ** Worm detection on any graph *)

Lemma comprehension_filter {A} (test : A -> result bool) (f : A -> bool) xs :
  (forall x, In x xs -> test x = Ok (f x)) ->
  comprehension test xs = Ok (filter f xs).
Proof.
  induction xs as [|x xs IH]; intros H; cbn [comprehension filter];
    [reflexivity|].
  rewrite (H x (or_introl eq_refl)), IH by (intros y Hy; apply H; now right).
  cbn [bind]. reflexivity.
Qed.

Lemma default_candidates g :
  graph_inv g ->
  comprehension (fun node => let* d := get_outdegree g node in Ok (d >? 5))
                (nx.nodes (graph g)) =
  Ok (filter (fun n => 5 <? outdegree g n) (nx.nodes (graph g))).
Proof.
  intros I. apply comprehension_filter. intros x Hx.
  destruct (succ_queries x I Hx) as [-> _]. cbn [bind].
  now rewrite gtb_ltb.
Qed.

Lemma worm_alert_source g start_node threshold l a :
  detect_worm_propagation g start_node threshold = Ok l -> In a l ->
  exists candidates s,
    match start_node with
    | Some (String _ _ as s) => Ok [s]
    | _ =>
        comprehension
          (fun node => let* d := get_outdegree g node in Ok (d >? 5))
          (nx.nodes (graph g))
    end = Ok candidates /\
    In s candidates /\ In s (nx.nodes (graph g)) /\
    source_nodes a = [s] /\
    _bfs_reachable g s = Ok (target_nodes a).
Proof.
  unfold detect_worm_propagation. intros E Ha.
  apply bind_Ok_inv in E as (candidates & Ec & E).
  open_body E body BA.
  destruct (@for_each_In _ _ body _ _ _ BA E Ha) as (x & r & Hx & Ex & Hr).
  unfold body in Ex.
  destruct (mem x (nx.nodes (graph g))) eqn:M; cbn [negb] in Ex;
    [|injection Ex as <-; destruct Hr].
  destruct (_bfs_reachable g x) as [rs|] eqn:Er; cbn [bind] in Ex;
    [|discriminate].
  destruct (_ >? _); [|injection Ex as <-; destruct Hr].
  destruct (py_truediv _ _) as [q|]; cbn [bind] in Ex; [|discriminate].
  injection Ex as <-. destruct Hr as [<-|[]].
  exists candidates, x. cbn [source_nodes target_nodes].
  repeat split; auto. now apply mem_In.
Qed.

(** X10: without a start node, and with the empty string as start node,
    worm detection only ever examines the nodes with more than 5 outgoing
    edges: every alert has such a node as its single source, and a graph
    without one yields no alert whatever the threshold, zero included.  A
    start node that is not in the graph yields no alert and no error. *)
Theorem worm_candidates (g : NetworkGraph) (threshold : option Z) :
  reachable g ->
  (forall start_node,
     start_node = None \/ start_node = Some "" ->
     (forall l a,
        detect_worm_propagation g start_node threshold = Ok l -> In a l ->
        exists s, source_nodes a = [s] /\ In s (nx.nodes (graph g)) /\
                  5 < outdegree g s) /\
     ((forall n, In n (nx.nodes (graph g)) -> outdegree g n <= 5) ->
      detect_worm_propagation g start_node threshold = Ok [])) /\
  (forall s, s <> "" -> ~ In s (nx.nodes (graph g)) ->
             detect_worm_propagation g (Some s) threshold = Ok []).
Proof.
  intros R. apply reachable_inv in R. split.
  - intros start_node Hs. split.
    + intros l a E Ha.
      destruct (@worm_alert_source _ _ _ _ _ E Ha)
        as (cs & s & Ec & Hc & Hn & Hsrc & _).
      exists s. repeat split; auto.
      assert (Ec' : Ok (filter (fun n => 5 <? outdegree g n)
                               (nx.nodes (graph g))) = Ok cs)
        by (rewrite <- (default_candidates R);
            destruct Hs as [-> | ->]; exact Ec).
      injection Ec' as <-. apply filter_In in Hc as [_ Hc].
      now apply Z.ltb_lt.
    + intros Hall. unfold detect_worm_propagation.
      assert (Ec : match start_node with
                   | Some (String _ _ as s) => Ok [s]
                   | _ =>
                       comprehension
                         (fun node =>
                            let* d := get_outdegree g node in Ok (d >? 5))
                         (nx.nodes (graph g))
                   end = Ok []).
      { replace (@nil string)
          with (filter (fun n => 5 <? outdegree g n) (nx.nodes (graph g))).
        - rewrite <- (default_candidates R). now destruct Hs as [-> | ->].
        - clear - Hall. induction (nx.nodes (graph g)) as [|n l IH];
            [reflexivity|].
          cbn [filter]. rewrite (proj2 (Z.ltb_ge _ _))
            by (apply Hall; now left).
          apply IH. intros m Hm. apply Hall. now right. }
      rewrite Ec. reflexivity.
  - intros s Ne Hs. unfold detect_worm_propagation.
    destruct s as [|c s]; [congruence|].
    cbn [bind for_each].
    rewrite (proj2 (mem_false _ _) Hs). reflexivity.
Qed.

Lemma worm_candidates_witness :
  reachable path_from_empty_id /\
  detect_worm_propagation path_from_empty_id (Some "") (Some 0) = Ok [] /\
  detect_worm_propagation path_from_empty_id (Some "z") (Some 0) = Ok [].
Proof.
  split; [apply built_reachable|].
  destruct (@worm_candidates path_from_empty_id (Some 0) (built_reachable _))
    as (H1 & H2).
  split.
  - apply (H1 (Some "")); [now right|].
    intros n Hn. vm_compute in Hn.
    destruct Hn as [<-|[<-|[]]]; vm_compute; discriminate.
  - apply H2; [discriminate|]. vm_compute. intuition discriminate.
Defined.

Lemma _bfs_reachable_spec g start_node :
  graph_inv g -> In start_node (nx.nodes (graph g)) ->
  exists r,
    _bfs_reachable g start_node = Ok r /\
    NoDup r /\
    In start_node r /\
    forall x, In x r <-> connected (graph g) start_node x.
Proof.
  intros I Hs.
  destruct (_bfs_reachable_ok start_node I Hs) as (r & E & Hin & ND & _).
  exists r. split; [exact E|]. split; [exact ND|]. split; [exact Hin|].
  apply (@bfs_while_reachable g start_node _ _ _ _ E).
  - now left.
  - apply incl_refl.
  - intros x [<-|[]]. constructor.
  - intros x [<-|[]]. left. now left.
Qed.

(** X11: started at a node of the graph with a non-zero threshold T, worm
    detection reports that node iff more than T nodes are reachable from
    it, itself included, and the targets of the alert are exactly the
    reachable nodes. *)
Theorem worm_alert_on_reachable_set (g : NetworkGraph) (s : string)
    (threshold : option Z) :
  let T := threshold_or threshold (worm_reachability (attack_thresholds g)) in
  reachable g ->
  In s (nx.nodes (graph g)) ->
  s <> "" ->
  T <> 0 ->
  exists r,
    NoDup r /\
    (forall x, In x r <-> connected (graph g) s x) /\
    (T < Z.of_nat (List.length r) ->
     exists alert,
       detect_worm_propagation g (Some s) threshold = Ok [alert] /\
       attack_type alert = WORM /\
       source_nodes alert = [s] /\
       target_nodes alert = r /\
       (confidence alert == clamped_ratio (Z.of_nat (List.length r)) T)%Q /\
       severity alert =
         if 2 * T <? Z.of_nat (List.length r) then high else medium) /\
    (Z.of_nat (List.length r) <= T ->
     detect_worm_propagation g (Some s) threshold = Ok []).
Proof.
  intros T R Hs Ne HT. apply reachable_inv in R.
  destruct (@_bfs_reachable_spec g s R Hs) as (r & E & ND & _ & Hr).
  exists r. split; [exact ND|]. split; [exact Hr|].
  rewrite detect_worm_propagation_threshold. fold T.
  assert (Ed : detect_worm_propagation g (Some s) (Some T) =
               if T <? Z.of_nat (List.length r) then
                 Ok [ {| attack_type := WORM;
                         source_nodes := [s];
                         target_nodes := r;
                         confidence :=
                           py_min 1 (inject_Z (Z.of_nat (List.length r))
                                     / inject_Z (T * 2));
                         timestamp := 0;
                         description :=
                           ("Worm propagation detected: " ++
                            py_str (Z.of_nat (List.length r)) ++
                            " nodes reachable from " ++ s)%string;
                         severity :=
                           if Z.of_nat (List.length r) >? T * 2
                           then high else medium |} ]
               else Ok []).
  { unfold detect_worm_propagation.
    destruct s as [|c s]; [congruence|].
    cbn [bind for_each].
    rewrite (proj2 (mem_In _ _) Hs). cbn [negb]. rewrite E. cbn [bind].
    rewrite gtb_ltb. destruct (T <? _); [|reflexivity].
    rewrite py_truediv_Ok by lia. reflexivity. }
  rewrite Ed. split.
  - intros Hlt. rewrite (proj2 (Z.ltb_lt _ _) Hlt).
    eexists. split; [reflexivity|].
    cbn [attack_type source_nodes target_nodes confidence severity].
    repeat split; auto.
    + apply confidence_eq.
    + now rewrite gtb_ltb, (Z.mul_comm T 2).
  - intros Hge. now rewrite (proj2 (Z.ltb_ge _ _) Hge).
Qed.

Lemma worm_alert_on_reachable_set_witness :
  reachable path_abc /\
  In "a" (nx.nodes (graph path_abc)) /\
  "a" <> "" /\
  1 <> 0 /\
  exists r,
    (forall x, In x r <-> connected (graph path_abc) "a" x) /\
    (1 < Z.of_nat (List.length r) ->
     exists alert,
       detect_worm_propagation path_abc (Some "a") (Some 1) = Ok [alert] /\
       target_nodes alert = r).
Proof.
  assert (Ha : In "a" (nx.nodes (graph path_abc))) by (vm_compute; tauto).
  split; [apply built_reachable|]. split; [exact Ha|].
  split; [discriminate|]. split; [discriminate|].
  destruct (@worm_alert_on_reachable_set path_abc "a" (Some 1)
              (built_reachable _) Ha)
    as (r & _ & Hr & Hgt & _); try discriminate.
  exists r. split; [exact Hr|]. intros Hlt.
  destruct (Hgt Hlt) as (alert & E & _ & _ & Ht & _).
  exists alert. split; assumption.
Defined.

(** ** What triggers an alert, and how severe it is *)

Lemma ddos_alert_trigger g T l a :
  detect_ddos_attack g (Some T) = Ok l -> In a l ->
  T < triggering_metric a /\
  severity a = if T * 2 <? triggering_metric a then high else medium.
Proof.
  unfold detect_ddos_attack. intros E Ha. open_body E body BA.
  destruct (@for_each_In _ _ body _ _ _ BA E Ha) as (x & r & _ & Ex & Hr).
  unfold body in Ex.
  destruct (get_indegree g x) as [d|] eqn:Ed; cbn [bind] in Ex; [|discriminate].
  destruct (d >? T) eqn:Dt; [|injection Ex as <-; destruct Hr].
  destruct (get_predecessors g x) as [ps|] eqn:Ep; cbn [bind] in Ex;
    [|discriminate].
  destruct (py_truediv d (T * 2)) as [q|] eqn:Eq; cbn [bind] in Ex;
    [|discriminate].
  injection Ex as <-. destruct Hr as [<-|[]].
  pose proof (pred_queries_agree _ _ Ed Ep) as ->.
  unfold triggering_metric.
  cbn [attack_type source_nodes target_nodes confidence severity].
  rewrite gtb_ltb in *. split; [now apply Z.ltb_lt | reflexivity].
Qed.

Lemma port_scan_alert_trigger g T l a :
  detect_port_scan_attack g (Some T) = Ok l -> In a l ->
  T < triggering_metric a /\ severity a = medium.
Proof.
  unfold detect_port_scan_attack. intros E Ha. open_body E body BA.
  destruct (@for_each_In _ _ body _ _ _ BA E Ha) as (x & r & _ & Ex & Hr).
  unfold body in Ex.
  destruct (get_outdegree g x) as [d|] eqn:Ed; cbn [bind] in Ex;
    [|discriminate].
  destruct (d >? T) eqn:Dt; [|injection Ex as <-; destruct Hr].
  destruct (get_neighbors g x) as [ss|] eqn:Ep; cbn [bind] in Ex;
    [|discriminate].
  destruct (py_truediv d (T * 2)) as [q|] eqn:Eq; cbn [bind] in Ex;
    [|discriminate].
  injection Ex as <-. destruct Hr as [<-|[]].
  pose proof (succ_queries_agree _ _ Ed Ep) as ->.
  unfold triggering_metric.
  cbn [attack_type source_nodes target_nodes confidence severity].
  rewrite gtb_ltb in *. split; [now apply Z.ltb_lt | reflexivity].
Qed.

Lemma worm_alert_trigger g start_node T l a :
  detect_worm_propagation g start_node (Some T) = Ok l -> In a l ->
  T < triggering_metric a /\
  severity a = if T * 2 <? triggering_metric a then high else medium.
Proof.
  unfold detect_worm_propagation. intros E Ha.
  apply bind_Ok_inv in E as (candidates & _ & E).
  open_body E body BA.
  destruct (@for_each_In _ _ body _ _ _ BA E Ha) as (x & r & _ & Ex & Hr).
  unfold body in Ex.
  destruct (negb _); [injection Ex as <-; destruct Hr|].
  destruct (_bfs_reachable g x) as [rs|] eqn:Er; cbn [bind] in Ex;
    [|discriminate].
  destruct (_ >? T) eqn:Dt; [|injection Ex as <-; destruct Hr].
  destruct (py_truediv _ (T * 2)) as [q|] eqn:Eq; cbn [bind] in Ex;
    [|discriminate].
  injection Ex as <-. destruct Hr as [<-|[]].
  unfold triggering_metric.
  cbn [attack_type source_nodes target_nodes confidence severity].
  rewrite gtb_ltb in *. split; [now apply Z.ltb_lt | reflexivity].
Qed.

Lemma c2_alert_trigger g l a :
  detect_c2_attack g = Ok l -> In a l ->
  c2_indegree_min (attack_thresholds g) <= triggering_metric a /\
  severity a =
    if c2_indegree_min (attack_thresholds g) * 3 <? triggering_metric a
    then high else medium.
Proof.
  unfold detect_c2_attack. intros E Ha. open_body E body BA.
  destruct (@for_each_In _ _ body _ _ _ BA E Ha) as (x & r & _ & Ex & Hr).
  unfold body in Ex.
  destruct (get_indegree g x) as [d|] eqn:Ed; cbn [bind] in Ex; [|discriminate].
  destruct (get_outdegree g x) as [o|] eqn:Eo; cbn [bind] in Ex;
    [|discriminate].
  destruct (d >=? _) eqn:Dt; cbn [andb] in Ex;
    [|injection Ex as <-; destruct Hr].
  destruct (o <=? _); [|injection Ex as <-; destruct Hr].
  destruct (get_predecessors g x) as [ps|] eqn:Ep; cbn [bind] in Ex;
    [|discriminate].
  destruct (py_truediv d _) as [q|] eqn:Eq; cbn [bind] in Ex; [|discriminate].
  injection Ex as <-. destruct Hr as [<-|[]].
  pose proof (pred_queries_agree _ _ Ed Ep) as ->.
  unfold triggering_metric.
  cbn [attack_type source_nodes target_nodes confidence severity].
  rewrite gtb_ltb. rewrite Z.geb_leb in Dt.
  split; [now apply Z.leb_le | reflexivity].
Qed.

Lemma botnet_alert_trigger g l a :
  detect_botnet_attack g = Ok l -> In a l ->
  3 <= triggering_metric a /\
  severity a = if 5 <=? triggering_metric a then high else medium.
Proof.
  intros E Ha. unfold detect_botnet_attack in E. cbv zeta in E.
  open_body E body BA.
  destruct (@for_each_In _ _ body _ _ _ BA E Ha) as (x & r & _ & Ex & Hr).
  unfold body in Ex.
  destruct (_ >=? 3) eqn:Dt; [|injection Ex as <-; destruct Hr].
  injection Ex as <-. destruct Hr as [<-|[]].
  unfold triggering_metric.
  cbn [attack_type source_nodes target_nodes confidence severity].
  rewrite Z.geb_leb in *. split; [now apply Z.leb_le | reflexivity].
Qed.

Lemma clamped_ratio_above m T :
  0 < T -> 2 * T <= m -> (clamped_ratio m T == 1)%Q.
Proof.
  intros HT Hm. unfold clamped_ratio. apply Q.min_l.
  apply Qle_shift_div_l.
  - change 0%Q with (inject_Z 0). rewrite <- Zlt_Qlt. lia.
  - rewrite Qmult_1_l. now rewrite <- Zle_Qle.
Qed.

Lemma clamped_ratio_half m T :
  0 < T -> T <= m -> (1 # 2 <= clamped_ratio m T)%Q.
Proof.
  intros HT Hm. unfold clamped_ratio. apply Q.min_glb; [discriminate|].
  apply Qle_shift_div_l.
  - change 0%Q with (inject_Z 0). rewrite <- Zlt_Qlt. lia.
  - unfold Qle, Qmult, inject_Z; cbn [Qnum Qden]. lia.
Qed.

Lemma clamped_ratio_more_than_half m T :
  0 < T -> T < m -> (1 # 2 < clamped_ratio m T)%Q.
Proof.
  intros HT Hm. unfold clamped_ratio. apply Q.min_glb_lt; [reflexivity|].
  apply Qlt_shift_div_l.
  - change 0%Q with (inject_Z 0). rewrite <- Zlt_Qlt. lia.
  - unfold Qlt, Qmult, inject_Z; cbn [Qnum Qden]. lia.
Qed.

Lemma clamped_ratio_below_half m T :
  0 < T -> m < T -> (clamped_ratio m T < 1 # 2)%Q.
Proof.
  intros HT Hm. unfold clamped_ratio.
  apply Qle_lt_trans with (inject_Z m / inject_Z (2 * T))%Q;
    [apply Q.le_min_r|].
  apply Qlt_shift_div_r.
  - change 0%Q with (inject_Z 0). rewrite <- Zlt_Qlt. lia.
  - unfold Qlt, Qmult, inject_Z; cbn [Qnum Qden]. lia.
Qed.

Lemma produced_trigger g T a :
  produced g T a ->
  let m := triggering_metric a in
  match attack_type a with
  | DDOS | WORM =>
      T < m /\ severity a = if T * 2 <? m then high else medium
  | PORT_SCAN => T < m /\ severity a = medium
  | C2 => T <= m /\ severity a = if T * 3 <? m then high else medium
  | BOTNET =>
      T = 5 /\ 3 <= m /\ severity a = if 5 <=? m then high else medium
  end.
Proof.
  intros P. pose proof (produced_shape P) as S. revert S.
  destruct P as [threshold l a' E Ha | l a' E Ha | threshold l a' E Ha
                | start threshold l a' E Ha | l a' E Ha]; intros S m.
  - rewrite detect_ddos_attack_threshold in E.
    rewrite (proj1 (@ddos_alert_shape _ _ _ _ E Ha)).
    exact (@ddos_alert_trigger _ _ _ _ E Ha).
  - rewrite (proj1 (@botnet_alert_shape _ _ _ E Ha)).
    split; [reflexivity|]. exact (@botnet_alert_trigger _ _ _ E Ha).
  - rewrite detect_port_scan_attack_threshold in E.
    rewrite (proj1 (@port_scan_alert_shape _ _ _ _ E Ha)).
    exact (@port_scan_alert_trigger _ _ _ _ E Ha).
  - rewrite detect_worm_propagation_threshold in E.
    rewrite (proj1 (@worm_alert_shape _ _ _ _ _ E Ha)).
    exact (@worm_alert_trigger _ _ _ _ _ E Ha).
  - rewrite (proj1 (@c2_alert_shape _ _ _ E Ha)).
    exact (@c2_alert_trigger _ _ _ E Ha).
Qed.

(** X12: with a positive threshold, no alert is ever of low severity and a
    port-scan alert is always medium; every alert but a botnet one has
    confidence at least one half, and confidence one when it is of high
    severity; a botnet alert has confidence at least three tenths, and is
    of high severity exactly when its confidence reaches one half. *)
Theorem severity_follows_confidence (g : NetworkGraph) (T : Z)
    (a : AttackAlert) :
  0 < T ->
  produced g T a ->
  severity a <> low /\
  (attack_type a = PORT_SCAN -> severity a = medium) /\
  (attack_type a <> BOTNET ->
   (1 # 2 <= confidence a)%Q /\
   (severity a = high -> (confidence a == 1)%Q)) /\
  (attack_type a = BOTNET ->
   (3 # 10 <= confidence a)%Q /\
   (severity a = high <-> (1 # 2 <= confidence a)%Q)).
Proof.
  intros HT P.
  destruct (produced_shape P) as (_ & _ & C & Sv).
  assert (E : (confidence a == clamped_ratio (triggering_metric a) T)%Q)
    by (rewrite C; apply confidence_eq).
  pose proof (produced_trigger P) as Tr. cbv zeta in Tr.
  split; [destruct Sv as [-> | ->]; discriminate|].
  split; [intros K; rewrite K in Tr; apply Tr|].
  split.
  - intros NB. split.
    + rewrite E. apply clamped_ratio_half; [exact HT|].
      destruct (attack_type a); try tauto; lia.
    + intros Hh. rewrite E. apply clamped_ratio_above; [exact HT|].
      destruct (attack_type a); try tauto; destruct Tr as (Hm & Hs);
        rewrite Hh in Hs;
        try discriminate;
        match type of Hs with
        | high = if ?b then _ else _ => destruct b eqn:B; [|discriminate]
        end; apply Z.ltb_lt in B; lia.
  - intros K. rewrite K in Tr. destruct Tr as (-> & Hm & Hs). split.
    + rewrite E. unfold clamped_ratio. apply Q.min_glb; [discriminate|].
      apply Qle_shift_div_l; [reflexivity|].
      unfold Qle, Qmult, inject_Z; cbn [Qnum Qden]. lia.
    + rewrite E. split.
      * intros Hh. rewrite Hh in Hs.
        destruct (5 <=? triggering_metric a) eqn:B; [|discriminate].
        apply Z.leb_le in B. apply clamped_ratio_half; lia.
      * intros Hc. rewrite Hs.
        destruct (5 <=? triggering_metric a) eqn:B; [reflexivity|].
        apply Z.leb_gt in B.
        apply (@clamped_ratio_below_half _ 5) in B; [|lia].
        exfalso. apply (Qlt_not_le _ _ B Hc).
Qed.

Lemma severity_follows_confidence_witness :
  exists a,
    0 < 1 /\
    produced fan_in 1 a /\
    severity a <> low /\
    (1 # 2 <= confidence a)%Q.
Proof.
  assert (P : exists a, produced fan_in 1 a /\ attack_type a <> BOTNET).
  { eexists. split.
    - eapply (@produced_ddos fan_in (Some 1)).
      + vm_compute. reflexivity.
      + left. reflexivity.
    - discriminate. }
  destruct P as (a & P & NB). exists a.
  split; [reflexivity|]. split; [exact P|].
  destruct (@severity_follows_confidence fan_in 1 a) as (Hl & _ & Hc & _).
  - reflexivity.
  - exact P.
  - split; [exact Hl|]. apply (Hc NB).
Defined.

(** ** Repeated passes and the totals of the statistics *)

Lemma count_kind_app k l l' :
  count_kind k (l ++ l') = count_kind k l + count_kind k l'.
Proof. unfold count_kind. rewrite map_app, count_occ_app. lia. Qed.

(** X13: a second aggregate pass on the unchanged store returns the same
    batch and appends it to the history once more; nothing is
    de-duplicated, so after two passes of a fresh detector the statistics
    report twice the batch length and twice every kind count. *)
Theorem aggregate_pass_repeats (self self' : AttackDetector)
    (alerts : list AttackAlert) :
  detect_all_attacks self = Ok (alerts, self') ->
  exists self'',
    detect_all_attacks self' = Ok (alerts, self'') /\
    self_graph self'' = self_graph self /\
    detection_history self'' = detection_history self ++ alerts ++ alerts /\
    (detection_history self = [] -> alerts <> [] ->
     exists s,
       get_attack_statistics self'' = Some s /\
       total_attacks s = 2 * Z.of_nat (List.length alerts) /\
       forall k, get (AttackType_value k) (attack_types s) =
                 Some (2 * count_kind k alerts) \/
                 (count_kind k alerts = 0 /\
                  get (AttackType_value k) (attack_types s) = None)).
Proof.
  intros E.
  destruct (@detect_all_attacks_inv _ _ _ E)
    as (l1 & l2 & l3 & l4 & l5 & E1 & E2 & E3 & E4 & E5 & Ea & Es).
  assert (G : self_graph self' = self_graph self) by (now rewrite Es).
  exists {| self_graph := self_graph self;
            detection_history := detection_history self' ++ alerts |}.
  split; [|split; [reflexivity|split]].
  - unfold detect_all_attacks. cbv zeta. rewrite G, E1, E2, E3, E4, E5.
    cbn [bind app]. rewrite <- !app_assoc, <- Ea. reflexivity.
  - cbn [detection_history]. rewrite Es. cbn [detection_history].
    now rewrite <- app_assoc.
  - intros Hh Hne.
    set (self'' := {| self_graph := self_graph self;
                      detection_history := detection_history self' ++ alerts |}).
    assert (Eh : detection_history self'' = alerts ++ alerts).
    { unfold self''. cbn [detection_history]. rewrite Es.
      cbn [detection_history]. now rewrite Hh. }
    destruct (@get_attack_statistics_spec self'')
      as (s & Gs & Ht & Hk & _).
    { rewrite Eh. destruct alerts; [congruence | discriminate]. }
    exists s. split; [exact Gs|]. split.
    + rewrite Ht, Eh, length_app. lia.
    + intros k. rewrite Hk, Eh, count_kind_app. unfold counter_entry.
      destruct (Z.eqb_spec (count_kind k alerts + count_kind k alerts) 0)
        as [Z0|N0].
      * right. split; [|reflexivity]. unfold count_kind in *. lia.
      * left. f_equal. lia.
Qed.

Lemma aggregate_pass_repeats_witness :
  exists alerts self' self'',
    detect_all_attacks (AttackDetector_init two_ddos_one_c2)
      = Ok (alerts, self') /\
    detect_all_attacks self' = Ok (alerts, self'') /\
    detection_history self'' = alerts ++ alerts.
Proof.
  assert (E : exists alerts self',
             detect_all_attacks (AttackDetector_init two_ddos_one_c2)
             = Ok (alerts, self')).
  { eexists. eexists. vm_compute. reflexivity. }
  destruct E as (alerts & self' & E).
  destruct (@aggregate_pass_repeats _ _ _ E) as (self'' & E' & _ & Hh & _).
  exists alerts, self', self''.
  split; [exact E|]. split; [exact E'|]. exact Hh.
Defined.

Lemma sum_values_setitem k v (d : dict string Z) :
  sum_values (setitem k v d) = sum_values d - counted d k + v.
Proof.
  unfold sum_values, counted.
  induction d as [|[k' v'] d IH]; cbn [setitem get values map fold_right].
  - cbn. lia.
  - destruct (key_eqb k k'); cbn [values map fold_right snd].
    + fold (values d). lia.
    + fold (values (setitem k v d)) (values d).
      unfold values in IH. unfold values. rewrite IH. lia.
Qed.

Lemma sum_values_increment k d :
  sum_values (increment k d) = sum_values d + 1.
Proof.
  unfold increment. rewrite sum_values_setitem. unfold counted. lia.
Qed.

Lemma count_alerts_sums history : forall ac sc,
  sum_values (fst (count_alerts history ac sc)) =
    sum_values ac + Z.of_nat (List.length history) /\
  sum_values (snd (count_alerts history ac sc)) =
    sum_values sc + Z.of_nat (List.length history).
Proof.
  induction history as [|a h IH]; intros ac sc; cbn [count_alerts].
  - cbn [fst snd List.length]. lia.
  - destruct (IH (increment (AttackType_value (attack_type a)) ac)
                 (increment (Severity_value (severity a)) sc)) as [H1 H2].
    rewrite H1, H2, !sum_values_increment. cbn [List.length]. lia.
Qed.

(** X14: in every non-empty statistics report the kind counters add up to
    the total, so do the severity counters, and the number of
    high-confidence alerts lies between zero and the total, which is
    positive. *)
Theorem statistics_totals (self : AttackDetector) (s : Statistics) :
  get_attack_statistics self = Some s ->
  0 < total_attacks s /\
  sum_values (attack_types s) = total_attacks s /\
  sum_values (severity_distribution s) = total_attacks s /\
  0 <= high_confidence_attacks s <= total_attacks s.
Proof.
  unfold get_attack_statistics.
  destruct (detection_history self) as [|a0 h0] eqn:Eh; [discriminate|].
  rewrite <- Eh.
  destruct (count_alerts_sums (detection_history self) [] []) as [H1 H2].
  destruct (count_alerts (detection_history self) [] []) as [ac sc].
  cbn [fst snd] in H1, H2. intros [= <-].
  cbn [total_attacks attack_types severity_distribution
       high_confidence_attacks].
  split; [rewrite Eh; cbn [List.length]; lia|].
  split; [rewrite H1; reflexivity|]. split; [rewrite H2; reflexivity|].
  split; [lia|].
  apply inj_le, filter_length_le.
Qed.

Lemma statistics_totals_witness :
  exists alerts self s,
    detect_all_attacks (AttackDetector_init two_ddos_one_c2)
      = Ok (alerts, self) /\
    get_attack_statistics self = Some s /\
    sum_values (attack_types s) = total_attacks s /\
    sum_values (severity_distribution s) = total_attacks s.
Proof.
  assert (E : exists alerts self s,
             detect_all_attacks (AttackDetector_init two_ddos_one_c2)
             = Ok (alerts, self) /\
             get_attack_statistics self = Some s).
  { eexists. eexists. eexists.
    split; vm_compute; reflexivity. }
  destruct E as (alerts & self & s & E & G).
  exists alerts, self, s. split; [exact E|]. split; [exact G|].
  destruct (@statistics_totals self s G) as (_ & Ha & Hs & _).
  split; assumption.
Defined.

(** ** A zero threshold *)

Lemma for_each_raise {A S} (body : A -> S -> result S) e xs :
  (forall x s, In x xs -> body x s = Ok s \/ body x s = Raise e) ->
  (exists x, In x xs /\ forall s, body x s = Raise e) ->
  forall s, for_each xs body s = Raise e.
Proof.
  induction xs as [|x xs IH]; intros Hb (y & Hy & Ry) s; [destruct Hy|].
  cbn [for_each]. destruct Hy as [<-|Hy].
  - now rewrite Ry.
  - destruct (Hb x s (or_introl eq_refl)) as [-> | ->]; [|reflexivity].
    cbn [bind]. apply IH; [intros; apply Hb; now right | now exists y].
Qed.

Lemma update_thresholds_graph g u :
  graph (update_thresholds g u) = graph g /\
  nodes (update_thresholds g u) = nodes g /\
  edges (update_thresholds g u) = edges g.
Proof. now unfold update_thresholds, set_thresholds. Qed.

Lemma update_thresholds_fields g u :
  let t := attack_thresholds g in
  let t' := attack_thresholds (update_thresholds g u) in
  ddos_indegree t' =
    threshold_or (ThresholdUpdate.ddos_indegree u) (ddos_indegree t) /\
  port_scan_outdegree t' =
    threshold_or (ThresholdUpdate.port_scan_outdegree u)
                 (port_scan_outdegree t) /\
  worm_reachability t' =
    threshold_or (ThresholdUpdate.worm_reachability u)
                 (worm_reachability t) /\
  c2_indegree_min t' =
    threshold_or (ThresholdUpdate.c2_indegree_min u) (c2_indegree_min t) /\
  c2_outdegree_max t' =
    threshold_or (ThresholdUpdate.c2_outdegree_max u) (c2_outdegree_max t).
Proof.
  destruct u as [[a|] [b|] [c|] [d|] [e|]];
    cbn; repeat split; reflexivity.
Qed.

Lemma detect_ddos_attack_zero g :
  graph_inv g ->
  (exists n, In n (nx.nodes (graph g)) /\ 0 < indegree g n) ->
  detect_ddos_attack g (Some 0) = Raise ZeroDivisionError.
Proof.
  intros I Hn. unfold detect_ddos_attack.
  apply for_each_raise.
  - intros x s Hx. destruct (@pred_queries g x I Hx) as [Ed Ep].
    rewrite Ed. cbn [bind]. destruct (indegree g x >? 0); [|now left].
    rewrite Ep. cbn [bind]. right. reflexivity.
  - destruct Hn as (n & Hn & Hd). exists n. split; [exact Hn|]. intros s.
    destruct (@pred_queries g n I Hn) as [Ed Ep].
    rewrite Ed. cbn [bind]. rewrite (proj2 (Z.gtb_gt _ _)) by lia.
    rewrite Ep. reflexivity.
Qed.

(** X15: the threshold update leaves the graph and its records as they
    were and assigns a given field without checking its value (shown for
    [c2_indegree_min]); once it has set the DDoS threshold to zero, DDoS
    detection with the default threshold, and with it every aggregate
    pass, fails with a division by zero on every store that has at least
    one edge, whatever the other thresholds are. *)
Theorem update_thresholds_zero_ddos (g : NetworkGraph)
    (u : ThresholdUpdate.t) (a b : string) :
  reachable g ->
  ThresholdUpdate.ddos_indegree u = Some 0 ->
  has_edge a b (graph g) = true ->
  let g' := update_thresholds g u in
  reachable g' /\
  graph g' = graph g /\ nodes g' = nodes g /\ edges g' = edges g /\
  (forall v, ThresholdUpdate.c2_indegree_min u = Some v ->
             c2_indegree_min (attack_thresholds g') = v) /\
  (ThresholdUpdate.c2_indegree_min u = None ->
   c2_indegree_min (attack_thresholds g') =
   c2_indegree_min (attack_thresholds g)) /\
  detect_ddos_attack g' None = Raise ZeroDivisionError /\
  forall history,
    detect_all_attacks {| self_graph := g'; detection_history := history |} =
    Raise ZeroDivisionError.
Proof.
  intros R Hu He g'.
  assert (R' : reachable g') by (apply reach_set_thresholds, R).
  assert (Ed : detect_ddos_attack g' None = Raise ZeroDivisionError).
  { rewrite detect_ddos_attack_threshold.
    destruct (update_thresholds_fields g u) as (F & _). cbv zeta in F.
    fold g' in F. cbn [threshold_or]. rewrite F, Hu. cbn [threshold_or].
    apply detect_ddos_attack_zero; [now apply reachable_inv|].
    pose proof (reachable_inv R) as I.
    destruct (update_thresholds_graph g u) as (Eg & _). fold g' in Eg.
    exists b. split.
    - rewrite Eg. apply (@has_edge_nodes _ _ _ (inv_graph I) He).
    - rewrite (inv_sym (inv_graph I)) in He.
      pose proof (@has_pred_edge_indegree g a b He) as Hd.
      unfold indegree, predecessor_set in *. rewrite Eg. lia. }
  split; [exact R'|].
  destruct (update_thresholds_graph g u) as (Eg & En & Ee). fold g' in Eg, En, Ee.
  destruct (update_thresholds_fields g u) as (_ & _ & _ & F4 & _).
  cbv zeta in F4. fold g' in F4.
  split; [exact Eg|]. split; [exact En|]. split; [exact Ee|].
  split; [intros v Hv; now rewrite F4, Hv|].
  split; [intros Hv; now rewrite F4, Hv|].
  split; [exact Ed|].
  intros history. unfold detect_all_attacks. cbv zeta.
  cbn [self_graph]. now rewrite Ed.
Qed.

Lemma update_thresholds_zero_ddos_witness :
  reachable one_edge /\
  has_edge "a" "b" (graph one_edge) = true /\
  forall history,
    detect_all_attacks
      {| self_graph :=
           update_thresholds one_edge
             (ThresholdUpdate.mk (Some 0) None None None None);
         detection_history := history |} = Raise ZeroDivisionError.
Proof.
  split; [apply built_reachable|]. split; [reflexivity|].
  destruct (@update_thresholds_zero_ddos one_edge
              (ThresholdUpdate.mk (Some 0) None None None None) "a" "b"
              (built_reachable _) eq_refl eq_refl)
    as (_ & _ & _ & _ & _ & _ & _ & H).
  exact H.
Defined.

(** * The simulator *)

(** ** Draws *)

Lemma without_length {A} (l : list A) : forall i,
  (i < List.length l)%nat ->
  List.length (random.without i l) = pred (List.length l).
Proof.
  induction l as [|a l IH]; intros i Hi; [cbn in Hi; lia|].
  cbn [List.length] in Hi.
  destruct i as [|i]; cbn [random.without List.length]; [reflexivity|].
  rewrite IH by lia. lia.
Qed.

Lemma without_perm {A} (l : list A) d : forall i,
  (i < List.length l)%nat ->
  Permutation l (nth i l d :: random.without i l).
Proof.
  induction l as [|a l IH]; intros i Hi; [cbn in Hi; lia|].
  cbn [List.length] in Hi.
  destruct i as [|i]; cbn [random.without nth]; [reflexivity|].
  rewrite perm_swap. constructor. apply IH. lia.
Qed.

Lemma select_spec {A} k : forall (pool : list A) draws,
  (k <= List.length pool)%nat ->
  List.length (random.select pool k draws) = k /\
  exists rest, Permutation pool (random.select pool k draws ++ rest).
Proof.
  induction k as [|k IH]; intros pool draws Hk.
  - split; [reflexivity|]. exists pool. destruct pool; reflexivity.
  - destruct pool as [|a pool]; [cbn in Hk; lia|].
    cbn [random.select].
    set (i := (hd O draws mod List.length (a :: pool))%nat).
    assert (Hi : (i < List.length (a :: pool))%nat)
      by (apply Nat.mod_upper_bound; discriminate).
    destruct (IH (random.without i (a :: pool)) (tl draws)) as (Hl & rest & P).
    { rewrite without_length by exact Hi. cbn [List.length] in *. lia. }
    split; [cbn [List.length]; now rewrite Hl|].
    exists rest. cbn [app].
    rewrite (without_perm (a :: pool) a Hi) at 1. now constructor.
Qed.

Lemma sample_min {A} (population : list A) k draws :
  0 <= k ->
  exists picked rest,
    random.sample population
      (Z.min k (Z.of_nat (List.length population))) draws = Return picked /\
    Z.of_nat (List.length picked) =
      Z.min k (Z.of_nat (List.length population)) /\
    Permutation population (picked ++ rest).
Proof.
  intros Hk. unfold random.sample.
  set (m := Z.min k (Z.of_nat (List.length population))).
  assert (Hm : 0 <= m <= Z.of_nat (List.length population)) by lia.
  replace ((m <? 0) || (Z.of_nat (List.length population) <? m)) with false
    by (symmetry; apply orb_false_iff; split;
        [apply Z.ltb_ge | apply Z.ltb_ge]; lia).
  destruct (@select_spec A (Z.to_nat m) population draws) as (Hl & rest & P);
    [lia|].
  eexists. exists rest. split; [reflexivity|]. split; [|exact P].
  rewrite Hl. lia.
Qed.

Lemma sample_negative {A} (population : list A) k draws :
  k < 0 ->
  random.sample population
    (Z.min k (Z.of_nat (List.length population))) draws = Throw ValueError.
Proof.
  intros Hk. unfold random.sample.
  replace (Z.min k (Z.of_nat (List.length population)) <? 0) with true
    by (symmetry; apply Z.ltb_lt; lia).
  reflexivity.
Qed.

Lemma choice_In {A} (seq : list A) draw :
  seq <> [] -> exists x, random.choice seq draw = Return x /\ In x seq.
Proof.
  destruct seq as [|a seq]; [congruence|]. intros _.
  eexists. split; [reflexivity|].
  apply nth_In, Nat.mod_upper_bound. discriminate.
Qed.

(** ** Adding a list of edges *)

Lemma for_each_map {A B S} (f : A -> B) (body : B -> S -> result S) xs :
  forall s,
    for_each (map f xs) body s = for_each xs (fun x s => body (f x) s) s.
Proof.
  induction xs as [|x xs IH]; intros s; cbn [map for_each]; [reflexivity|].
  destruct (body (f x) s); cbn [bind]; [apply IH | reflexivity].
Qed.

Lemma add_edge_nodes g edge g' :
  graph_inv g -> add_edge g edge = Ok g' ->
  In (NetworkEdge.source edge) (nx.nodes (graph g)) ->
  In (NetworkEdge.target edge) (nx.nodes (graph g)) ->
  nx.nodes (graph g') = nx.nodes (graph g).
Proof.
  intros I E Hs Ht.
  destruct (@add_edge_ok g edge I) as (g1 & E1 & _ & EG & _).
  rewrite E in E1. injection E1 as <-.
  destruct (@nx_add_edge_ok (NetworkEdge.source edge)
              (NetworkEdge.target edge) (graph g) (inv_graph I))
    as (G' & EG' & _ & N & _).
  rewrite EG in EG'. injection EG' as <-. rewrite N.
  rewrite (@ensure_node_known _ (graph g) (inv_graph I) Hs).
  now rewrite (@ensure_node_known _ (graph g) (inv_graph I) Ht).
Qed.

Lemma add_edges_spec es : forall g,
  reachable g ->
  exists g',
    for_each es (fun e g => add_edge g e) g = Ok g' /\
    reachable g' /\
    nodes g' = nodes g /\
    attack_thresholds g' = attack_thresholds g /\
    (forall a b,
       has_edge a b (graph g') =
       mem (a, b) (map edge_key es) || has_edge a b (graph g)) /\
    ((forall e, In e es ->
        In (NetworkEdge.source e) (nx.nodes (graph g)) /\
        In (NetworkEdge.target e) (nx.nodes (graph g))) ->
     nx.nodes (graph g') = nx.nodes (graph g)).
Proof.
  induction es as [|e es IH]; intros g R; cbn [for_each map mem].
  - exists g. repeat split; auto.
  - destruct (@add_edge_ok g e (reachable_inv R))
      as (g1 & E1 & _ & _ & N1 & _ & T1).
    rewrite E1. cbn [bind].
    destruct (IH g1 (@reach_add_edge g e g1 R E1))
      as (g' & E & R' & N & T & H & Hn).
    exists g'. split; [exact E|]. split; [exact R'|].
    split; [congruence|]. split; [congruence|]. split.
    + intros a b. rewrite H.
      rewrite (@add_edge_has_edge g e g1 (reachable_inv R) E1).
      unfold edge_key. cbn [key_eqb Hashable_pair fst snd].
      set (m := mem (a, b) _). set (k := _ && _).
      destruct m, k; reflexivity.
    + intros Hes.
      assert (N1' : nx.nodes (graph g1) = nx.nodes (graph g)).
      { destruct (Hes e (or_introl eq_refl)) as [Hs Ht].
        exact (@add_edge_nodes g e g1 (reachable_inv R) E1 Hs Ht). }
      rewrite Hn, N1'; [reflexivity|].
      intros e' He'. rewrite N1'. apply Hes. now right.
Qed.

Lemma predecessor_set_In g u v :
  graph_inv g ->
  (In u (predecessor_set g v) <-> has_edge u v (graph g) = true).
Proof.
  intros I. unfold predecessor_set.
  rewrite predecessors_has_pred_edge. now rewrite (inv_sym (inv_graph I)).
Qed.

Lemma successor_set_In g u v :
  graph_inv g ->
  (In v (successor_set g u) <-> has_edge u v (graph g) = true).
Proof.
  intros I. unfold successor_set, nx.successors, has_edge.
  destruct (get u (nx._succ (graph g))) as [s|]; [|split; [intros []|discriminate]].
  symmetry. apply contains_In.
Qed.

Lemma predecessor_set_NoDup g v : graph_inv g -> NoDup (predecessor_set g v).
Proof. intros I. apply predecessors_NoDup, I. Qed.

Lemma successor_set_NoDup g u : graph_inv g -> NoDup (successor_set g u).
Proof. intros I. apply successors_NoDup, I. Qed.

(** Edges from the nodes of [sources] into one node [t]. *)
Lemma fan_in_degrees g g' t (sources : list string) :
  graph_inv g -> graph_inv g' ->
  NoDup sources -> ~ In t sources ->
  (forall a b, has_edge a b (graph g') =
               (mem a sources && key_eqb b t) || has_edge a b (graph g)) ->
  Z.of_nat (List.length sources) <= indegree g' t /\
  indegree g' t <= indegree g t + Z.of_nat (List.length sources) /\
  outdegree g' t = outdegree g t /\
  incl sources (predecessor_set g' t).
Proof.
  intros I I' ND Nt H.
  assert (Hin : incl sources (predecessor_set g' t)).
  { intros x Hx. apply (predecessor_set_In _ _ I'). rewrite H.
    rewrite (proj2 (mem_In _ _) Hx), key_eqb_refl. reflexivity. }
  split; [|split; [|split]].
  - unfold indegree. apply inj_le. now apply NoDup_incl_length.
  - unfold indegree. rewrite <- Nat2Z.inj_add. apply inj_le.
    rewrite Nat.add_comm, <- length_app.
    apply NoDup_incl_length; [now apply predecessor_set_NoDup|].
    intros x Hx. apply (predecessor_set_In _ _ I') in Hx. rewrite H in Hx.
    apply in_or_app. apply orb_true_iff in Hx as [Hx|Hx].
    + left. apply andb_true_iff in Hx as [Hx _]. now apply mem_In.
    + right. now apply predecessor_set_In.
  - apply outdegree_same; [assumption..|]. intros w. rewrite H.
    rewrite (proj2 (mem_false _ _) Nt). reflexivity.
  - exact Hin.
Qed.

(** Edges from one node [s] to the nodes of [targets]. *)
Lemma fan_out_degrees g g' s (targets : list string) :
  graph_inv g -> graph_inv g' ->
  NoDup targets -> ~ In s targets ->
  (forall a b, has_edge a b (graph g') =
               (key_eqb a s && mem b targets) || has_edge a b (graph g)) ->
  Z.of_nat (List.length targets) <= outdegree g' s /\
  outdegree g' s <= outdegree g s + Z.of_nat (List.length targets) /\
  indegree g' s = indegree g s /\
  incl targets (successor_set g' s).
Proof.
  intros I I' ND Nt H.
  assert (Hin : incl targets (successor_set g' s)).
  { intros x Hx. apply (successor_set_In _ _ I'). rewrite H.
    rewrite (proj2 (mem_In _ _) Hx), key_eqb_refl. reflexivity. }
  split; [|split; [|split]].
  - unfold outdegree. apply inj_le. now apply NoDup_incl_length.
  - unfold outdegree. rewrite <- Nat2Z.inj_add. apply inj_le.
    rewrite Nat.add_comm, <- length_app.
    apply NoDup_incl_length; [now apply successor_set_NoDup|].
    intros x Hx. apply (successor_set_In _ _ I') in Hx. rewrite H in Hx.
    apply in_or_app. apply orb_true_iff in Hx as [Hx|Hx].
    + left. apply andb_true_iff in Hx as [_ Hx]. now apply mem_In.
    + right. now apply successor_set_In.
  - apply indegree_same; [assumption..|]. intros w. rewrite H.
    rewrite (proj2 (mem_false _ _) Nt), andb_false_r. reflexivity.
  - exact Hin.
Qed.

(** ** What a detector says of one node *)

Lemma Forall2_In_l {A B} (R : A -> B -> Prop) xs ys x :
  Forall2 R xs ys -> In x xs -> exists y, In y ys /\ R x y.
Proof.
  induction 1 as [|a b xs ys Hab _ IH]; intros Hx; [destruct Hx|].
  destruct Hx as [->|Hx].
  - exists b. split; [now left | exact Hab].
  - destruct (IH Hx) as (y & Hy & Hr). exists y. split; [now right | exact Hr].
Qed.

Lemma Forall2_In_r {A B} (R : A -> B -> Prop) xs ys y :
  Forall2 R xs ys -> In y ys -> exists x, In x xs /\ R x y.
Proof.
  induction 1 as [|a b xs ys Hab _ IH]; intros Hy; [destruct Hy|].
  destruct Hy as [->|Hy].
  - exists a. split; [now left | exact Hab].
  - destruct (IH Hy) as (x & Hx & Hr). exists x. split; [now right | exact Hr].
Qed.

Lemma indegree_pos_node g t :
  graph_inv g -> 0 < indegree g t -> In t (nx.nodes (graph g)).
Proof.
  intros [I _]. unfold indegree, predecessor_set.
  destruct (get t (nx._pred (graph g))) as [p|] eqn:E; [|cbn; lia].
  intros _. rewrite <- (inv_pred_keys I). exact (get_Some_In _ _ E).
Qed.

Lemma outdegree_pos_node g t :
  graph_inv g -> 0 < outdegree g t -> In t (nx.nodes (graph g)).
Proof.
  intros [I _]. unfold outdegree, successor_set, nx.successors.
  destruct (get t (nx._succ (graph g))) as [p|] eqn:E; [|cbn; lia].
  intros _. rewrite <- (inv_succ_keys I). exact (get_Some_In _ _ E).
Qed.

Lemma ddos_alert_at g T t :
  graph_inv g -> 0 < T ->
  exists alerts,
    detect_ddos_attack g (Some T) = Ok alerts /\
    (T < indegree g t ->
     exists a, In a alerts /\ target_nodes a = [t] /\
               source_nodes a = predecessor_set g t) /\
    (indegree g t <= T -> forall a, In a alerts -> target_nodes a <> [t]).
Proof.
  intros I HT.
  destruct (@detect_ddos_attack_emits g T I) as (alerts & E & F); [left; lia|].
  exists alerts. split; [exact E|]. split.
  - intros Hd.
    destruct (@Forall2_In_l _ _ _ _ _ t F) as (a & Ha & [_ Hs Ht _ _]).
    { apply filter_In. split; [apply indegree_pos_node; [exact I | lia]|].
      now apply Z.ltb_lt. }
    exists a. repeat split; assumption.
  - intros Hd a Ha Ht.
    destruct (@Forall2_In_r _ _ _ _ _ a F Ha) as (n & Hn & [_ _ Ht' _ _]).
    rewrite Ht in Ht'. injection Ht' as <-.
    apply filter_In in Hn as [_ Hn]. apply Z.ltb_lt in Hn. lia.
Qed.

Lemma port_scan_alert_at g T s :
  graph_inv g -> 0 < T ->
  exists alerts,
    detect_port_scan_attack g (Some T) = Ok alerts /\
    (T < outdegree g s ->
     exists a, In a alerts /\ source_nodes a = [s] /\
               target_nodes a = successor_set g s) /\
    (outdegree g s <= T -> forall a, In a alerts -> source_nodes a <> [s]).
Proof.
  intros I HT.
  destruct (@detect_port_scan_attack_emits g T I) as (alerts & E & F);
    [left; lia|].
  exists alerts. split; [exact E|]. split.
  - intros Hd.
    destruct (@Forall2_In_l _ _ _ _ _ s F) as (a & Ha & [_ Hs Ht _ _]).
    { apply filter_In. split; [apply outdegree_pos_node; [exact I | lia]|].
      now apply Z.ltb_lt. }
    exists a. repeat split; assumption.
  - intros Hd a Ha Hs.
    destruct (@Forall2_In_r _ _ _ _ _ a F Ha) as (n & Hn & [_ Hs' _ _ _]).
    rewrite Hs in Hs'. injection Hs' as <-.
    apply filter_In in Hn as [_ Hn]. apply Z.ltb_lt in Hn. lia.
Qed.

Lemma c2_alert_at g t :
  graph_inv g -> 0 < c2_indegree_min (attack_thresholds g) ->
  exists alerts,
    detect_c2_attack g = Ok alerts /\
    (c2_candidate g t = true ->
     exists a, In a alerts /\ target_nodes a = [t] /\
               source_nodes a = predecessor_set g t) /\
    (c2_candidate g t = false ->
     forall a, In a alerts -> target_nodes a <> [t]).
Proof.
  intros I HT.
  destruct (@detect_c2_attack_emits g I) as (alerts & E & F); [left; lia|].
  exists alerts. split; [exact E|]. split.
  - intros Hc.
    destruct (@Forall2_In_l _ _ _ _ _ t F) as (a & Ha & [_ Hs Ht _ _]).
    { apply filter_In. split; [|exact Hc].
      apply indegree_pos_node; [exact I|].
      unfold c2_candidate in Hc. apply andb_true_iff in Hc as [Hc _].
      apply Z.leb_le in Hc. lia. }
    exists a. repeat split; assumption.
  - intros Hc a Ha Ht.
    destruct (@Forall2_In_r _ _ _ _ _ a F Ha) as (n & Hn & [_ _ Ht' _ _]).
    rewrite Ht in Ht'. injection Ht' as <-.
    apply filter_In in Hn as [_ Hn]. congruence.
Qed.

(** ** Simulated attacks and their detection *)

Lemma others_of_spec g t x :
  In x (others_of g t) <-> contains x (nodes g) = true /\ x <> t.
Proof.
  unfold others_of. rewrite filter_In, contains_In, negb_true_iff.
  destruct (String.eqb_spec x t); intuition congruence.
Qed.

Lemma server_or_any_spec g node draw :
  (node = None -> nodes g <> []) ->
  exists t,
    server_or_any g node draw = Return t /\
    match node with
    | Some n => t = n
    | None =>
        contains t (nodes g) = true /\
        (servers_of g <> [] -> In t (servers_of g))
    end.
Proof.
  intros Hn. destruct node as [n|]; [now exists n|].
  cbn [server_or_any]. cbv zeta.
  destruct (servers_of g) as [|s0 ss] eqn:Es.
  - destruct (@choice_In _ (keys (nodes g)) draw) as (t & Et & Ht).
    { specialize (Hn eq_refl). destruct (nodes g); [congruence|discriminate]. }
    exists t. split; [exact Et|]. split; [now apply contains_In | congruence].
  - destruct (@choice_In _ (s0 :: ss) draw) as (t & Et & Ht); [discriminate|].
    exists t. split; [exact Et|]. split; [|intros _; exact Ht].
    rewrite <- Es in Ht. unfold servers_of in Ht.
    apply in_map_iff in Ht as (item & <- & Hi). apply filter_In in Hi as [Hi _].
    apply contains_In. unfold keys. now apply in_map.
Qed.

Lemma sample_others g t k draws :
  reachable g -> 0 <= k ->
  exists picked,
    random.sample (others_of g t)
      (Z.min k (Z.of_nat (List.length (others_of g t)))) draws
      = Return picked /\
    Z.of_nat (List.length picked) =
      Z.min k (Z.of_nat (List.length (others_of g t))) /\
    NoDup picked /\ ~ In t picked /\ incl picked (others_of g t).
Proof.
  intros R Hk.
  destruct (@sample_min _ (others_of g t) k draws Hk)
    as (picked & rest & E & Hl & P).
  exists picked. split; [exact E|]. split; [exact Hl|].
  assert (Hi : incl picked (others_of g t)).
  { intros x Hx. apply (Permutation_in _ (Permutation_sym P)).
    apply in_or_app. now left. }
  split; [|split; [|exact Hi]].
  - assert (ND : NoDup (others_of g t)).
    { apply NoDup_filter, (rec_nodes_nodup (reachable_records_inv R)). }
    apply (Permutation_NoDup P) in ND. now apply NoDup_app_remove_r in ND.
  - intros Ht. apply Hi, others_of_spec in Ht. now destruct Ht.
Qed.

Lemma mem_edge_into (t : string) (f : string -> NetworkEdge.t) xs a b :
  (forall x, edge_key (f x) = (x, t)) ->
  mem (a, b) (map edge_key (map f xs)) = mem a xs && key_eqb b t.
Proof.
  intros Hf. induction xs as [|x xs IH]; cbn [map mem]; [reflexivity|].
  rewrite IH, Hf. cbn [key_eqb Hashable_pair fst snd].
  destruct (key_eqb a x), (key_eqb b t), (mem a xs); reflexivity.
Qed.

Lemma simulate_ddos_attack_run (self : AttackSimulator.t)
    (target_node : option string) (attacker_count : Z)
    (draw : nat) (draws : list nat) :
  let g := AttackSimulator.graph self in
  reachable g ->
  0 <= attacker_count ->
  (target_node = None -> nodes g <> []) ->
  exists self' t attackers,
    let g' := AttackSimulator.graph self' in
    let k := Z.of_nat (List.length attackers) in
    simulate_ddos_attack self target_node attacker_count draw draws
      = Return self' /\
    AttackSimulator.simulation_id self' =
      AttackSimulator.simulation_id self + 1 /\
    reachable g' /\
    nodes g' = nodes g /\
    attack_thresholds g' = attack_thresholds g /\
    match target_node with
    | Some n => t = n
    | None =>
        contains t (nodes g) = true /\
        (servers_of g <> [] -> In t (servers_of g))
    end /\
    NoDup attackers /\
    (forall a, In a attackers -> contains a (nodes g) = true /\ a <> t) /\
    k = Z.min attacker_count (Z.of_nat (List.length (others_of g t))) /\
    (forall a b, has_edge a b (graph g') =
                 (mem a attackers && key_eqb b t) || has_edge a b (graph g)) /\
    k <= indegree g' t <= indegree g t + k /\
    outdegree g' t = outdegree g t /\
    (In t (nx.nodes (graph g)) -> nx.nodes (graph g') = nx.nodes (graph g)).
Proof.
  intros g R Hc Hn.
  destruct (@server_or_any_spec g target_node draw Hn) as (t & Et & Ht).
  destruct (@sample_others g t attacker_count draws R Hc)
    as (attackers & Es & Hl & ND & Nt & Hi).
  set (f := fun attacker =>
              NetworkEdge.mk attacker t 1 "TCP" 80
                (inject_Z (AttackSimulator.simulation_id self)) []).
  destruct (@add_edges_spec (map f attackers) g R)
    as (g' & Eg & R' & N' & T' & H' & Hnodes).
  rewrite for_each_map in Eg.
  exists (AttackSimulator.mk g' (AttackSimulator.simulation_id self + 1)),
         t, attackers.
  cbn [AttackSimulator.graph AttackSimulator.simulation_id]. cbv zeta.
  assert (He : forall a b,
             has_edge a b (graph g') =
             (mem a attackers && key_eqb b t) || has_edge a b (graph g)).
  { intros a b. rewrite H'. now rewrite (@mem_edge_into t f). }
  destruct (@fan_in_degrees g g' t attackers (reachable_inv R)
              (reachable_inv R') ND Nt He) as (D1 & D2 & D3 & _).
  split.
  { unfold simulate_ddos_attack. fold g. rewrite Et. cbn [and_then].
    rewrite Es. cbn [and_then]. unfold f in Eg. rewrite Eg. reflexivity. }
  split; [reflexivity|]. split; [exact R'|]. split; [exact N'|].
  split; [exact T'|]. split; [exact Ht|]. split; [exact ND|].
  split; [intros a Ha; now apply others_of_spec, Hi|].
  split; [exact Hl|]. split; [exact He|]. split; [lia|].
  split; [exact D3|].
  intros Htn. apply Hnodes. intros e He'.
  apply in_map_iff in He' as (a & <- & Ha). split; [|exact Htn].
  apply (inv_records (reachable_inv R)).
  exact (proj1 (proj1 (others_of_spec g t a) (Hi a Ha))).
Qed.



Lemma simulate_c2_attack_run (self : AttackSimulator.t)
    (c2_server : option string) (infected_count : Z)
    (draw : nat) (draws : list nat) :
  let g := AttackSimulator.graph self in
  reachable g ->
  0 <= infected_count ->
  (c2_server = None -> nodes g <> []) ->
  exists self' t infected_nodes,
    let g' := AttackSimulator.graph self' in
    let k := Z.of_nat (List.length infected_nodes) in
    simulate_c2_attack self c2_server infected_count draw draws
      = Return self' /\
    AttackSimulator.simulation_id self' =
      AttackSimulator.simulation_id self + 1 /\
    reachable g' /\
    nodes g' = nodes g /\
    attack_thresholds g' = attack_thresholds g /\
    match c2_server with
    | Some n => t = n
    | None =>
        contains t (nodes g) = true /\
        (servers_of g <> [] -> In t (servers_of g))
    end /\
    NoDup infected_nodes /\
    (forall a, In a infected_nodes -> contains a (nodes g) = true /\ a <> t) /\
    k = Z.min infected_count (Z.of_nat (List.length (others_of g t))) /\
    (forall a b, has_edge a b (graph g') =
                 (mem a infected_nodes && key_eqb b t)
                 || has_edge a b (graph g)) /\
    k <= indegree g' t <= indegree g t + k /\
    outdegree g' t = outdegree g t /\
    (In t (nx.nodes (graph g)) -> nx.nodes (graph g') = nx.nodes (graph g)).
Proof.
  intros g R Hc Hn.
  destruct (@server_or_any_spec g c2_server draw Hn) as (t & Et & Ht).
  destruct (@sample_others g t infected_count draws R Hc)
    as (infected & Es & Hl & ND & Nt & Hi).
  set (f := fun infected =>
              NetworkEdge.mk infected t (1 # 2) "HTTPS" 443
                (inject_Z (AttackSimulator.simulation_id self)) []).
  destruct (@add_edges_spec (map f infected) g R)
    as (g' & Eg & R' & N' & T' & H' & Hnodes).
  rewrite for_each_map in Eg.
  exists (AttackSimulator.mk g' (AttackSimulator.simulation_id self + 1)),
         t, infected.
  cbn [AttackSimulator.graph AttackSimulator.simulation_id]. cbv zeta.
  assert (He : forall a b,
             has_edge a b (graph g') =
             (mem a infected && key_eqb b t) || has_edge a b (graph g)).
  { intros a b. rewrite H'. now rewrite (@mem_edge_into t f). }
  destruct (@fan_in_degrees g g' t infected (reachable_inv R)
              (reachable_inv R') ND Nt He) as (D1 & D2 & D3 & Hin).
  split.
  { unfold simulate_c2_attack. fold g. rewrite Et. cbn [and_then].
    rewrite Es. cbn [and_then]. unfold f in Eg. rewrite Eg. reflexivity. }
  split; [reflexivity|]. split; [exact R'|]. split; [exact N'|].
  split; [exact T'|]. split; [exact Ht|]. split; [exact ND|].
  split; [intros a Ha; now apply others_of_spec, Hi|].
  split; [exact Hl|]. split; [exact He|]. split; [lia|].
  split; [exact D3|].
  intros Htn. apply Hnodes. intros e He'.
  apply in_map_iff in He' as (a & <- & Ha). split; [|exact Htn].
  apply (inv_records (reachable_inv R)).
  exact (proj1 (proj1 (others_of_spec g t a) (Hi a Ha))).
Qed.



Lemma lift_for_each_cons {A} (body : A -> NetworkGraph -> result NetworkGraph)
    x xs g :
  lift (for_each (x :: xs) body g) =
  and_then (lift (body x g)) (fun g' => lift (for_each xs body g')).
Proof. cbn [for_each]. destruct (body x g); reflexivity. Qed.

Lemma scan_each_target_edges simulation_id attacker_node targets :
  forall port_draws g,
  exists es,
    map edge_key es = map (pair attacker_node) targets /\
    scan_each_target simulation_id attacker_node targets port_draws g =
    lift (for_each es (fun e g => add_edge g e) g).
Proof.
  induction targets as [|target targets IH]; intros port_draws g.
  - exists []. split; reflexivity.
  - cbn [scan_each_target].
    destruct (@choice_In _ common_ports (hd O port_draws)) as (port & -> & _);
      [discriminate|].
    cbn [and_then].
    set (e := NetworkEdge.mk attacker_node target (3 # 10) "TCP" port
                (inject_Z simulation_id) []).
    destruct (add_edge g e) as [g1|x] eqn:E1.
    + destruct (IH (tl port_draws) g1) as (es & Hk & Hs).
      exists (e :: es). split; [cbn [map]; now rewrite Hk|].
      rewrite lift_for_each_cons, E1. cbn [lift and_then]. exact Hs.
    + destruct (IH (tl port_draws) g) as (es & Hk & _).
      exists (e :: es). split; [cbn [map]; now rewrite Hk|].
      rewrite lift_for_each_cons, E1. reflexivity.
Qed.

Lemma mem_edge_from (s : string) xs a b :
  mem (a, b) (map (pair s) xs) = key_eqb a s && mem b xs.
Proof.
  induction xs as [|x xs IH]; cbn [map mem].
  - now rewrite andb_false_r.
  - rewrite IH. cbn [key_eqb Hashable_pair fst snd].
    destruct (key_eqb a s), (key_eqb b x), (mem b xs); reflexivity.
Qed.

Lemma simulate_port_scan_attack_run (self : AttackSimulator.t)
    (attacker_node : option string) (target_count : Z)
    (draw : nat) (draws port_draws : list nat) :
  let g := AttackSimulator.graph self in
  reachable g ->
  0 <= target_count ->
  (attacker_node = None -> nodes g <> []) ->
  exists self' s targets,
    let g' := AttackSimulator.graph self' in
    let k := Z.of_nat (List.length targets) in
    simulate_port_scan_attack self attacker_node target_count draw draws
      port_draws = Return self' /\
    AttackSimulator.simulation_id self' =
      AttackSimulator.simulation_id self + 1 /\
    reachable g' /\
    nodes g' = nodes g /\
    attack_thresholds g' = attack_thresholds g /\
    match attacker_node with
    | Some n => s = n
    | None => contains s (nodes g) = true
    end /\
    NoDup targets /\
    (forall b, In b targets -> contains b (nodes g) = true /\ b <> s) /\
    k = Z.min target_count (Z.of_nat (List.length (others_of g s))) /\
    (forall a b, has_edge a b (graph g') =
                 (key_eqb a s && mem b targets) || has_edge a b (graph g)) /\
    k <= outdegree g' s <= outdegree g s + k /\
    indegree g' s = indegree g s /\
    (In s (nx.nodes (graph g)) -> nx.nodes (graph g') = nx.nodes (graph g)).
Proof.
  intros g R Hc Hn.
  assert (Ea : exists s,
             match attacker_node with
             | None => random.choice (keys (nodes g)) draw
             | Some n => Return n
             end = Return s /\
             match attacker_node with
             | Some n => s = n
             | None => contains s (nodes g) = true
             end).
  { destruct attacker_node as [n|]; [now exists n|].
    destruct (@choice_In _ (keys (nodes g)) draw) as (s & Es & Hs).
    { specialize (Hn eq_refl). destruct (nodes g); [congruence|discriminate]. }
    exists s. split; [exact Es | now apply contains_In]. }
  destruct Ea as (s & Ea & Hs).
  destruct (@sample_others g s target_count draws R Hc)
    as (targets & Es & Hl & ND & Nt & Hi).
  destruct (@scan_each_target_edges (AttackSimulator.simulation_id self) s targets
              port_draws g) as (es & Hk & Hes).
  destruct (@add_edges_spec es g R)
    as (g' & Eg & R' & N' & T' & H' & Hnodes).
  exists (AttackSimulator.mk g' (AttackSimulator.simulation_id self + 1)),
         s, targets.
  cbn [AttackSimulator.graph AttackSimulator.simulation_id]. cbv zeta.
  assert (He : forall a b,
             has_edge a b (graph g') =
             (key_eqb a s && mem b targets) || has_edge a b (graph g)).
  { intros a b. now rewrite H', Hk, mem_edge_from. }
  destruct (@fan_out_degrees g g' s targets (reachable_inv R)
              (reachable_inv R') ND Nt He) as (D1 & D2 & D3 & Hin).
  split.
  { unfold simulate_port_scan_attack. fold g. rewrite Ea. cbn [and_then].
    rewrite Es. cbn [and_then]. rewrite Hes, Eg. reflexivity. }
  split; [reflexivity|]. split; [exact R'|]. split; [exact N'|].
  split; [exact T'|]. split; [exact Hs|]. split; [exact ND|].
  split; [intros b Hb; now apply others_of_spec, Hi|].
  split; [exact Hl|]. split; [exact He|]. split; [lia|].
  split; [exact D3|].
  intros Hsn. apply Hnodes. intros e He'.
  assert (Hk' : In (edge_key e) (map (pair s) targets))
    by (rewrite <- Hk; now apply in_map).
  apply in_map_iff in Hk' as (b & Eb & Hb). unfold edge_key in Eb.
  injection Eb as <- <-. split; [exact Hsn|].
  apply (inv_records (reachable_inv R)).
  exact (proj1 (proj1 (others_of_spec g s b) (Hi b Hb))).
Qed.



(** ** The simulated botnet cycle *)

Lemma item_nth (l : list string) i :
  (i < List.length l)%nat -> item l i = Return (nth i l "").
Proof.
  intros Hi. unfold item. now rewrite (nth_error_nth' l "" Hi).
Qed.

Lemma botnet_cycle_edges simulation_id bots range :
  (forall i, In i range -> (i < List.length bots)%nat) ->
  forall g,
  exists es,
    map edge_key es =
      map (fun i => (nth i bots "",
                     nth (Nat.modulo (i + 1) (List.length bots)) bots ""))
          range /\
    botnet_cycle simulation_id bots range g =
    lift (for_each es (fun e g => add_edge g e) g).
Proof.
  induction range as [|i range IH]; intros Hr g.
  - exists []. split; reflexivity.
  - assert (Hi : (i < List.length bots)%nat) by (apply Hr; now left).
    assert (Hj : (Nat.modulo (i + 1) (List.length bots)
                  < List.length bots)%nat)
      by (apply Nat.mod_upper_bound; lia).
    cbn [botnet_cycle]. rewrite (item_nth _ Hi), (item_nth _ Hj).
    cbn [and_then].
    set (e := NetworkEdge.mk (nth i bots "")
                (nth (Nat.modulo (i + 1) (List.length bots)) bots "")
                (8 # 10) "HTTP" 8080 (inject_Z simulation_id) []).
    assert (Hr' : forall j, In j range -> (j < List.length bots)%nat)
      by (intros j Hjr; apply Hr; now right).
    destruct (add_edge g e) as [g1|x] eqn:E1.
    + destruct (IH Hr' g1) as (es & Hk & Hs).
      exists (e :: es). split; [cbn [map]; now rewrite Hk|].
      rewrite lift_for_each_cons, E1. cbn [lift and_then]. exact Hs.
    + destruct (IH Hr' g) as (es & Hk & _).
      exists (e :: es). split; [cbn [map]; now rewrite Hk|].
      rewrite lift_for_each_cons, E1. reflexivity.
Qed.

Lemma linked_of_nth G (l : list string) : forall final,
  (forall i, (i < List.length l)%nat ->
             has_edge (nth i l "") (nth (S i) (l ++ [final]) "") G = true) ->
  linked G l final.
Proof.
  induction l as [|a l IH]; intros final H; cbn [linked]; [exact Logic.I|].
  split.
  - specialize (H O). cbn [nth app List.length] in H.
    destruct l as [|b l]; cbn [hd app nth] in *; apply H; lia.
  - apply IH. intros i Hi. apply (H (S i)). cbn [List.length]. lia.
Qed.

Lemma rotation_length (c c' : list string) :
  rotation c c' -> List.length c' = List.length c.
Proof.
  intros (pre & post & -> & ->). rewrite !length_app. lia.
Qed.

Lemma sample_records g k draws :
  reachable g -> 0 <= k ->
  exists picked,
    random.sample (keys (nodes g))
      (Z.min k (Z.of_nat (List.length (keys (nodes g))))) draws
      = Return picked /\
    Z.of_nat (List.length picked) =
      Z.min k (Z.of_nat (List.length (keys (nodes g)))) /\
    NoDup picked /\
    forall b, In b picked -> contains b (nodes g) = true.
Proof.
  intros R Hk.
  destruct (@sample_min _ (keys (nodes g)) k draws Hk)
    as (picked & rest & E & Hl & P).
  exists picked. split; [exact E|]. split; [exact Hl|]. split.
  - pose proof (rec_nodes_nodup (reachable_records_inv R)) as ND.
    apply (Permutation_NoDup P) in ND. now apply NoDup_app_remove_r in ND.
  - intros b Hb. apply contains_In.
    apply (Permutation_in _ (Permutation_sym P)). apply in_or_app. now left.
Qed.

Lemma simulate_botnet_attack_run (self : AttackSimulator.t)
    (bot_count : Z) (draws : list nat) :
  let g := AttackSimulator.graph self in
  reachable g ->
  0 <= bot_count ->
  exists self' bots,
    let g' := AttackSimulator.graph self' in
    let n := List.length bots in
    simulate_botnet_attack self bot_count draws = Return self' /\
    AttackSimulator.simulation_id self' =
      AttackSimulator.simulation_id self + 1 /\
    reachable g' /\
    nodes g' = nodes g /\
    attack_thresholds g' = attack_thresholds g /\
    NoDup bots /\
    (forall b, In b bots -> contains b (nodes g) = true) /\
    Z.of_nat n = Z.min bot_count (Z.of_nat (List.length (keys (nodes g)))) /\
    (forall a b,
       has_edge a b (graph g') = true <->
       has_edge a b (graph g) = true \/
       exists i, (i < n)%nat /\ nth_error bots i = Some a /\
                 nth_error bots (Nat.modulo (i + 1) n) = Some b) /\
    (bots <> [] -> elementary_cycle (graph g') bots) /\
    nx.nodes (graph g') = nx.nodes (graph g).
Proof.
  intros g R Hc.
  destruct (@sample_records g bot_count draws R Hc)
    as (bots & Es & Hl & ND & Hrec).
  destruct (@botnet_cycle_edges (AttackSimulator.simulation_id self) bots
              (seq 0 (List.length bots))) with (g := g) as (es & Hk & Hes).
  { intros i Hi. apply in_seq in Hi. lia. }
  destruct (@add_edges_spec es g R)
    as (g' & Eg & R' & N' & T' & H' & Hnodes).
  exists (AttackSimulator.mk g' (AttackSimulator.simulation_id self + 1)),
         bots.
  cbn [AttackSimulator.graph AttackSimulator.simulation_id]. cbv zeta.
  set (n := List.length bots) in *.
  assert (He : forall a b,
             has_edge a b (graph g') = true <->
             has_edge a b (graph g) = true \/
             exists i, (i < n)%nat /\ nth_error bots i = Some a /\
                       nth_error bots (Nat.modulo (i + 1) n) = Some b).
  { intros a b. rewrite H', orb_true_iff, Hk, mem_In, in_map_iff.
    split.
    - intros [(i & Ei & Hi)|Hg]; [|now left]. right.
      apply in_seq in Hi. injection Ei as <- <-. exists i.
      split; [lia|]. split; apply nth_error_nth'; [lia|].
      apply Nat.mod_upper_bound. lia.
    - intros [Hg|(i & Hi & Ea & Eb)]; [now right|]. left.
      exists i. split; [|apply in_seq; lia].
      now rewrite (nth_error_nth _ _ _ Ea), (nth_error_nth _ _ _ Eb). }
  assert (Hcyc : bots <> [] -> elementary_cycle (graph g') bots).
  { intros Hne. split; [exact Hne|]. split; [exact ND|].
    apply linked_of_nth. intros i Hi. apply He. right. exists i.
    fold n in Hi. split; [exact Hi|]. split; [apply nth_error_nth'; exact Hi|].
    destruct (Nat.eq_dec (S i) n) as [En|Nn].
    - replace (i + 1)%nat with n by lia. rewrite Nat.Div0.mod_same.
      rewrite app_nth2 by (fold n; lia). fold n.
      replace (S i - n)%nat with O by lia. cbn [nth].
      destruct bots as [|b0 bots']; [congruence|]. reflexivity.
    - rewrite Nat.mod_small by lia.
      rewrite app_nth1 by (fold n; lia).
      replace (i + 1)%nat with (S i) by lia.
      apply nth_error_nth'. fold n. lia. }
  split.
  { unfold simulate_botnet_attack. fold g. rewrite Es. cbn [and_then].
    fold n. rewrite Hes, Eg. reflexivity. }
  split; [reflexivity|]. split; [exact R'|]. split; [exact N'|].
  split; [exact T'|]. split; [exact ND|]. split; [exact Hrec|]. split; [exact Hl|].
  split; [exact He|]. split; [exact Hcyc|].
  apply Hnodes. intros e He'.
  assert (Hk' : In (edge_key e)
                  (map (fun i => (nth i bots "",
                                  nth (Nat.modulo (i + 1) n) bots ""))
                       (seq 0 n)))
    by (rewrite <- Hk; now apply in_map).
  apply in_map_iff in Hk' as (i & Ei & Hi). apply in_seq in Hi.
  unfold edge_key in Ei. injection Ei as <- <-.
  split; apply (inv_records (reachable_inv R)), Hrec, nth_In; [lia|].
  apply Nat.mod_upper_bound. lia.
Qed.



(** ** The simulated worm never changes the graph *)

Lemma add_existing_edge g edge :
  reachable g ->
  has_edge (NetworkEdge.source edge) (NetworkEdge.target edge) (graph g)
    = true ->
  exists g',
    add_edge g edge = Ok g' /\
    reachable g' /\
    graph g' = graph g /\
    nodes g' = nodes g /\
    keys (edges g') = keys (edges g) /\
    attack_thresholds g' = attack_thresholds g.
Proof.
  intros R He.
  destruct (@add_edge_ok g edge (reachable_inv R))
    as (g' & E & _ & EG & N & Ed & T).
  exists g'. split; [exact E|]. split; [exact (@reach_add_edge g edge g' R E)|].
  split; [|split; [exact N|split; [|exact T]]].
  - rewrite (@nx_add_edge_known _ _ (graph g)
               (inv_graph (reachable_inv R)) He) in EG.
    now injection EG.
  - rewrite Ed, keys_setitem.
    now rewrite (rec_edges_cover (reachable_records_inv R) _ _ He).
Qed.

Lemma infect_neighbors_keeps simulation_id infected_node neighbors :
  forall flips newly_infected g,
    reachable g ->
    (forall n, In n neighbors ->
               has_edge infected_node n (graph g) = true) ->
    exists flips' newly_infected' g',
      infect_neighbors simulation_id infected_node neighbors flips
                       newly_infected g
        = Return (flips', newly_infected', g') /\
      reachable g' /\
      graph g' = graph g /\
      nodes g' = nodes g /\
      keys (edges g') = keys (edges g) /\
      attack_thresholds g' = attack_thresholds g /\
      forall x, In x newly_infected' ->
                In x newly_infected \/ In x neighbors.
Proof.
  induction neighbors as [|n neighbors IH]; intros flips newly g R Hn.
  - exists flips, newly, g. cbn [infect_neighbors]. repeat split; auto.
  - cbn [infect_neighbors]. destruct (hd false flips).
    + destruct (@add_existing_edge g
                  (NetworkEdge.mk infected_node n (9 # 10) "TCP" 445
                     (inject_Z simulation_id) []) R)
        as (g1 & E1 & R1 & G1 & N1 & K1 & T1).
      { cbn [NetworkEdge.source NetworkEdge.target]. apply Hn. now left. }
      rewrite E1. cbn [lift and_then].
      destruct (IH (tl flips) (newly ++ [n])%list g1 R1)
        as (flips' & newly' & g' & E & R' & G' & N' & K' & T' & Hin).
      { intros m Hm. rewrite G1. apply Hn. now right. }
      exists flips', newly', g'. split; [exact E|]. split; [exact R'|].
      split; [congruence|]. split; [congruence|]. split; [congruence|].
      split; [congruence|].
      intros x Hx. destruct (Hin x Hx) as [Hx'|Hx'].
      * apply in_app_or in Hx' as [Hx'|[<-|[]]];
          [now left | right; now left].
      * right. now right.
    + destruct (IH (tl flips) newly g R)
        as (flips' & newly' & g' & E & R' & G' & N' & K' & T' & Hin).
      { intros m Hm. apply Hn. now right. }
      exists flips', newly', g'. split; [exact E|].
      repeat split; auto.
      intros x Hx. destruct (Hin x Hx) as [Hx'|Hx']; [now left|].
      right. now right.
Qed.

Lemma infect_from_keeps simulation_id current_infected :
  forall flips newly_infected g,
    reachable g ->
    incl current_infected (nx.nodes (graph g)) ->
    exists flips' newly_infected' g',
      infect_from simulation_id current_infected flips newly_infected g
        = Return (flips', newly_infected', g') /\
      reachable g' /\
      graph g' = graph g /\
      nodes g' = nodes g /\
      keys (edges g') = keys (edges g) /\
      attack_thresholds g' = attack_thresholds g /\
      forall x, In x newly_infected' ->
                In x newly_infected \/ In x (nx.nodes (graph g)).
Proof.
  induction current_infected as [|c current IH]; intros flips newly g R Hc.
  - exists flips, newly, g. cbn [infect_from]. repeat split; auto.
  - cbn [infect_from].
    assert (Hcn : In c (nx.nodes (graph g))) by (apply Hc; now left).
    destruct (@succ_queries g c (reachable_inv R) Hcn) as [_ En].
    rewrite En. cbn [lift and_then].
    destruct (@infect_neighbors_keeps simulation_id c (successor_set g c)
                flips newly g R)
      as (flips1 & newly1 & g1 & E1 & R1 & G1 & N1 & K1 & T1 & Hin1).
    { intros n Hn. now apply (successor_set_In _ _ (reachable_inv R)). }
    rewrite E1. cbn [and_then].
    destruct (IH flips1 newly1 g1 R1)
      as (flips' & newly' & g' & E & R' & G' & N' & K' & T' & Hin).
    { rewrite G1. intros x Hx. apply Hc. now right. }
    exists flips', newly', g'. split; [exact E|]. split; [exact R'|].
    split; [congruence|]. split; [congruence|]. split; [congruence|].
    split; [congruence|].
    intros x Hx. destruct (Hin x Hx) as [Hx'|Hx'].
    + destruct (Hin1 x Hx') as [Hx''|Hx'']; [now left|]. right.
      apply (successor_set_In _ _ (reachable_inv R)) in Hx''.
      apply (@has_edge_nodes _ _ _ (inv_graph (reachable_inv R)) Hx'').
    + right. now rewrite <- G1.
Qed.

Lemma propagate_keeps simulation_id steps :
  forall current_infected flips g,
    reachable g ->
    incl current_infected (nx.nodes (graph g)) ->
    exists g',
      propagate simulation_id steps current_infected flips g = Return g' /\
      reachable g' /\
      graph g' = graph g /\
      nodes g' = nodes g /\
      keys (edges g') = keys (edges g) /\
      attack_thresholds g' = attack_thresholds g.
Proof.
  induction steps as [|steps IH]; intros current flips g R Hc.
  - exists g. cbn [propagate]. repeat split; auto.
  - cbn [propagate].
    destruct (@infect_from_keeps simulation_id current flips [] g R Hc)
      as (flips1 & newly1 & g1 & E1 & R1 & G1 & N1 & K1 & T1 & Hin1).
    rewrite E1. cbn [and_then].
    destruct newly1 as [|x newly1].
    + exists g1. repeat split; auto.
    + destruct (IH (x :: newly1) flips1 g1 R1)
        as (g' & E & R' & G' & N' & K' & T').
      { intros y Hy. rewrite G1. destruct (Hin1 y Hy) as [[]|Hy']. exact Hy'. }
      exists g'. split; [exact E|]. split; [exact R'|].
      split; [congruence|]. split; [congruence|]. split; congruence.
Qed.

Lemma for_each_ext {A S} (body body' : A -> S -> result S) xs :
  (forall x s, body x s = body' x s) ->
  forall s, for_each xs body s = for_each xs body' s.
Proof.
  intros Hb. induction xs as [|x xs IH]; intros s; cbn [for_each];
    [reflexivity|].
  rewrite Hb. destruct (body' x s); cbn [bind]; [apply IH | reflexivity].
Qed.

Lemma bfs_while_graph g g' budget :
  graph g' = graph g ->
  forall visited queue,
    bfs_while budget g' visited queue = bfs_while budget g visited queue.
Proof.
  intros G. induction budget as [|budget IH]; intros visited queue;
    destruct queue as [|current queue]; cbn [bfs_while]; try reflexivity.
  unfold get_neighbors. rewrite G.
  destruct (nx.neighbors current (graph g)) as [neighbors|e]; cbn [bind];
    [|reflexivity].
  destruct (bfs_expand neighbors visited queue). apply IH.
Qed.

Lemma detectors_read_graph g g' :
  graph g' = graph g ->
  attack_thresholds g' = attack_thresholds g ->
  (forall threshold,
     detect_ddos_attack g' threshold = detect_ddos_attack g threshold) /\
  detect_botnet_attack g' = detect_botnet_attack g /\
  (forall threshold,
     detect_port_scan_attack g' threshold =
     detect_port_scan_attack g threshold) /\
  (forall start_node threshold,
     detect_worm_propagation g' start_node threshold =
     detect_worm_propagation g start_node threshold) /\
  detect_c2_attack g' = detect_c2_attack g.
Proof.
  intros G T.
  assert (W : forall start_node threshold,
             detect_worm_propagation g' start_node threshold =
             detect_worm_propagation g start_node threshold).
  { intros start_node threshold. unfold detect_worm_propagation.
    unfold get_outdegree, _bfs_reachable. rewrite G, T.
    destruct (match start_node with
              | Some (String _ _ as s) => Ok [s]
              | _ => comprehension
                       (fun node =>
                          let* d := nx.out_degree node (graph g) in
                          Ok (d >? 5))
                       (nx.nodes (graph g))
              end) as [candidates|e]; cbn [bind]; [|reflexivity].
    apply for_each_ext. intros x s.
    now rewrite (@bfs_while_graph g g' _ G). }
  destruct g as [G0 n e t], g' as [G' n' e' t'].
  cbn [graph attack_thresholds] in G, T. subst G' t'.
  repeat split; try reflexivity. exact W.
Qed.

Lemma simulate_worm_propagation_run (self : AttackSimulator.t)
    (start_node : option string) (propagation_steps : Z)
    (draw : nat) (flips : list bool) :
  let g := AttackSimulator.graph self in
  reachable g ->
  match start_node with
  | Some s => In s (nx.nodes (graph g))
  | None => nodes g <> []
  end ->
  exists self',
    let g' := AttackSimulator.graph self' in
    simulate_worm_propagation self start_node propagation_steps draw flips
      = Return self' /\
    AttackSimulator.simulation_id self' =
      AttackSimulator.simulation_id self + 1 /\
    reachable g' /\
    graph g' = graph g /\
    nodes g' = nodes g /\
    keys (edges g') = keys (edges g) /\
    attack_thresholds g' = attack_thresholds g.
Proof.
  intros g R Hs.
  assert (Es : exists s,
             match start_node with
             | None => random.choice (keys (nodes g)) draw
             | Some n => Return n
             end = Return s /\ In s (nx.nodes (graph g))).
  { destruct start_node as [s|]; [now exists s|].
    destruct (@choice_In _ (keys (nodes g)) draw) as (s & Es & Hin).
    { destruct (nodes g); [congruence|discriminate]. }
    exists s. split; [exact Es|].
    apply (inv_records (reachable_inv R)). now apply contains_In. }
  destruct Es as (s & Es & Hin).
  destruct (@propagate_keeps (AttackSimulator.simulation_id self)
              (Z.to_nat propagation_steps) [s] flips g R)
    as (g' & E & R' & G' & N' & K' & T').
  { intros x [<-|[]]. exact Hin. }
  exists (AttackSimulator.mk g' (AttackSimulator.simulation_id self + 1)).
  cbn [AttackSimulator.graph AttackSimulator.simulation_id]. cbv zeta.
  split.
  { unfold simulate_worm_propagation. fold g. rewrite Es. cbn [and_then].
    rewrite E. reflexivity. }
  split; [reflexivity|]. split; [exact R'|]. split; [exact G'|].
  split; [exact N'|]. split; [exact K' | exact T'].
Qed.



(** ** The generated topology *)

Lemma py_str_inj a b : py_str a = py_str b -> a = b.
Proof.
  unfold py_str. intros E. apply DecimalZ.to_int_inj.
  assert (E' : NilEmpty.int_of_string (NilEmpty.string_of_int (Z.to_int a)) =
               NilEmpty.int_of_string (NilEmpty.string_of_int (Z.to_int b)))
    by now rewrite E.
  rewrite !NilEmpty.isi in E'. now injection E'.
Qed.

Lemma generated_id_inj i j : generated_id i = generated_id j -> i = j.
Proof.
  unfold generated_id. intros E. cbn [append] in E. injection E as E.
  apply py_str_inj in E. lia.
Qed.

Lemma no_edges_count g :
  graph_inv g ->
  (forall a b, has_edge a b (graph g) = false) ->
  nx.number_of_edges (graph g) = 0.
Proof.
  intros I H. rewrite number_of_edges_length.
  destruct (nx_edges (graph g)) as [|[a b] l] eqn:E; [reflexivity|].
  assert (Hin : In (a, b) (nx_edges (graph g))) by (rewrite E; now left).
  apply (nx_edges_In _ _ (inv_graph I)) in Hin. rewrite H in Hin.
  discriminate.
Qed.

Lemma generate_nodes_spec node_draws range : forall g,
  reachable g ->
  NoDup range ->
  (forall i, In i range -> ~ In (generated_id i) (nx.nodes (graph g))) ->
  exists g',
    generate_nodes range node_draws g = Return g' /\
    reachable g' /\
    keys (nodes g') = (keys (nodes g) ++ map generated_id range)%list /\
    nx.nodes (graph g') = (nx.nodes (graph g) ++ map generated_id range)%list /\
    edges g' = edges g /\
    attack_thresholds g' = attack_thresholds g /\
    forall a b, has_edge a b (graph g') = has_edge a b (graph g).
Proof.
  induction range as [|i range IH]; intros g R ND Hn.
  - exists g. cbn [generate_nodes map]. rewrite !app_nil_r.
    repeat split; auto.
  - cbn [generate_nodes].
    destruct (@choice_In _ node_types (type_draw (node_draws i)))
      as (node_type & -> & _); [discriminate|].
    destruct (@choice_In _ ["Windows"; "Linux"; "Cisco"]
                (os_draw (node_draws i))) as (os & -> & _); [discriminate|].
    cbn [and_then].
    set (node := NetworkNode.mk (generated_id i) _ node_type _).
    destruct (@add_node_ok g node (reachable_inv R))
      as (g1 & E1 & I1 & G1 & N1 & Ed1 & T1).
    rewrite E1. cbn [lift and_then].
    apply NoDup_cons_iff in ND as [Hi ND].
    assert (Hni : ~ In (generated_id i) (nx.nodes (graph g)))
      by (apply Hn; now left).
    assert (Nodes1 : nx.nodes (graph g1) =
                     (nx.nodes (graph g) ++ [generated_id i])%list).
    { rewrite G1. cbn [NetworkNode.id node].
      rewrite (ensure_node_nodes _ (inv_graph (reachable_inv R))).
      now rewrite (proj2 (mem_false _ _) Hni). }
    assert (Keys1 : keys (nodes g1) = (keys (nodes g) ++ [generated_id i])%list).
    { rewrite N1, keys_setitem. cbn [NetworkNode.id node].
      destruct (contains (generated_id i) (nodes g)) eqn:C; [|reflexivity].
      exfalso. apply Hni. now apply (inv_records (reachable_inv R)). }
    destruct (IH g1 (@reach_add_node g node g1 R E1) ND)
      as (g' & E & R' & K' & N' & Ed' & T' & H').
    { intros j Hj. rewrite Nodes1. intros Hin.
      apply in_app_or in Hin as [Hin|[Hin|[]]].
      - apply (Hn j); [now right | exact Hin].
      - apply generated_id_inj in Hin. subst j. contradiction. }
    exists g'. split; [exact E|]. split; [exact R'|].
    split; [rewrite K', Keys1, <- app_assoc; reflexivity|].
    split; [rewrite N', Nodes1, <- app_assoc; reflexivity|].
    split; [congruence|]. split; [congruence|].
    intros a b. rewrite H', G1.
    apply ensure_node_has_edge, (inv_graph (reachable_inv R)).
Qed.

Lemma generate_edges_spec node_ids edge_draws range : forall g,
  reachable g ->
  (range <> [] -> node_ids <> []) ->
  incl node_ids (nx.nodes (graph g)) ->
  (forall a, has_edge a a (graph g) = false) ->
  (forall u v, contains (u, v) (edges g) = has_edge u v (graph g)) ->
  exists g',
    generate_edges range node_ids edge_draws g = Return g' /\
    reachable g' /\
    nodes g' = nodes g /\
    nx.nodes (graph g') = nx.nodes (graph g) /\
    attack_thresholds g' = attack_thresholds g /\
    (forall a, has_edge a a (graph g') = false) /\
    (forall u v, contains (u, v) (edges g') = has_edge u v (graph g')) /\
    nx.number_of_edges (graph g') <=
      nx.number_of_edges (graph g) + Z.of_nat (List.length range).
Proof.
  induction range as [|i range IH]; intros g R Hne Hin Hloop Hrec.
  - exists g. cbn [generate_edges List.length]. repeat split; auto. lia.
  - cbn [generate_edges].
    assert (Hids : node_ids <> []) by (apply Hne; discriminate).
    destruct (@choice_In _ node_ids (source_draw (edge_draws i)) Hids)
      as (source & -> & Hs).
    destruct (@choice_In _ node_ids (target_draw (edge_draws i)) Hids)
      as (target & -> & Ht).
    cbn [and_then].
    destruct (negb (String.eqb source target) &&
              negb (has_edge source target (graph g))) eqn:C.
    + apply andb_true_iff in C as [C1 C2].
      apply negb_true_iff in C1, C2. apply String.eqb_neq in C1.
      destruct (@choice_In _ ["TCP"; "UDP"; "HTTP"; "HTTPS"]
                  (protocol_draw (edge_draws i)))
        as (protocol & -> & _); [discriminate|].
      destruct (@choice_In _ [80; 443; 22; 21; 25; 53; 3306; 5432]
                  (port_draw (edge_draws i)))
        as (port & -> & _); [discriminate|].
      cbn [and_then].
      set (edge := NetworkEdge.mk source target _ protocol port _ []).
      destruct (@add_edge_ok g edge (reachable_inv R))
        as (g1 & E1 & I1 & _ & N1 & Ed1 & T1).
      rewrite E1. cbn [lift and_then].
      pose proof (@add_edge_has_edge g edge g1 (reachable_inv R) E1) as H1.
      cbn [NetworkEdge.source NetworkEdge.target edge] in H1.
      assert (Nodes1 : nx.nodes (graph g1) = nx.nodes (graph g))
        by (apply (@add_edge_nodes g edge g1 (reachable_inv R) E1);
            [apply Hin, Hs | apply Hin, Ht]).
      destruct (IH g1 (@reach_add_edge g edge g1 R E1))
        as (g' & E & R' & N' & Nodes' & T' & Hloop' & Hrec' & Hcount).
      { intros _. exact Hids. }
      { now rewrite Nodes1. }
      { intros a. rewrite H1, Hloop, orb_false_r.
        destruct (key_eqb_spec a source) as [->|]; [|reflexivity].
        destruct (key_eqb_spec source target); [congruence | reflexivity]. }
      { intros u v. rewrite Ed1, contains_setitem, H1, Hrec.
        reflexivity. }
      exists g'. split; [exact E|]. split; [exact R'|].
      split; [congruence|]. split; [congruence|]. split; [congruence|].
      split; [exact Hloop'|]. split; [exact Hrec'|].
      rewrite (@edge_count_added g g1 source target (reachable_inv R) I1
                 C2 H1) in Hcount.
      cbn [List.length]. lia.
    + destruct (IH g R) as (g' & E & R' & N' & Nodes' & T' & Hloop' & Hrec'
                            & Hcount); auto.
      exists g'. split; [exact E|]. split; [exact R'|].
      repeat (split; [assumption|]). cbn [List.length]. lia.
Qed.

Lemma records_match_edges g :
  reachable g ->
  (forall u v, contains (u, v) (edges g) = has_edge u v (graph g)) ->
  Z.of_nat (List.length (edges g)) = nx.number_of_edges (graph g).
Proof.
  intros R H. rewrite number_of_edges_length. f_equal.
  rewrite <- (length_keys (edges g)).
  apply Permutation_length, NoDup_Permutation.
  - apply (rec_edges_nodup (reachable_records_inv R)).
  - apply nx_edges_NoDup, (inv_graph (reachable_inv R)).
  - intros [u v].
    rewrite (nx_edges_In _ _ (inv_graph (reachable_inv R))), <- H.
    symmetry. apply contains_In.
Qed.

Lemma generate_network_topology_run (self : AttackSimulator.t)
    (node_count edge_count : Z)
    (node_draws : nat -> node_draw) (edge_draws : nat -> edge_draw) :
  0 < node_count \/ edge_count <= 0 ->
  exists self',
    let g' := AttackSimulator.graph self' in
    generate_network_topology self node_count edge_count node_draws
      edge_draws = Return self' /\
    AttackSimulator.simulation_id self' = AttackSimulator.simulation_id self /\
    attack_thresholds g' = attack_thresholds (AttackSimulator.graph self) /\
    reachable g' /\
    keys (nodes g') = map generated_id (py_range node_count) /\
    nx.nodes (graph g') = keys (nodes g') /\
    (forall a, has_edge a a (graph g') = false) /\
    (forall u v, contains (u, v) (edges g') = has_edge u v (graph g')) /\
    0 <= nx.number_of_edges (graph g') <= Z.max 0 edge_count.
Proof.
  intros Hc. unfold generate_network_topology.
  set (g0 := {| graph := nx.empty; nodes := []; edges := [];
                attack_thresholds :=
                  attack_thresholds (AttackSimulator.graph self) |}).
  assert (R0 : reachable g0)
    by (change g0 with (set_thresholds NetworkGraph_init
                          (attack_thresholds (AttackSimulator.graph self)));
        apply reach_set_thresholds, reach_init).
  destruct (@generate_nodes_spec node_draws (py_range node_count) g0 R0)
    as (g1 & E1 & R1 & K1 & N1 & Ed1 & T1 & H1).
  { apply seq_NoDup. }
  { intros i _ []. }
  rewrite E1. cbn [and_then].
  cbn [nodes graph nx.nodes nx._node edges g0 keys map app] in K1, N1, Ed1.
  change (nx.nodes nx.empty) with (@nil string) in N1. cbn [app] in N1.
  destruct (@generate_edges_spec (keys (nodes g1)) edge_draws
              (py_range edge_count) g1 R1)
    as (g2 & E2 & R2 & N2 & Nodes2 & T2 & Hloop & Hrec & Hcount).
  { intros Hr. rewrite K1. unfold py_range in *.
    destruct Hc as [Hc|Hc].
    - destruct (Z.to_nat node_count) eqn:En; [lia | discriminate].
    - replace (Z.to_nat edge_count) with O in Hr by lia. now cbn in Hr. }
  { rewrite K1, N1. apply incl_refl. }
  { intros a. now rewrite H1. }
  { intros u v. rewrite Ed1, H1. reflexivity. }
  rewrite E2. cbn [and_then].
  exists (AttackSimulator.mk g2 (AttackSimulator.simulation_id self)).
  cbn [AttackSimulator.graph AttackSimulator.simulation_id]. cbv zeta.
  split; [reflexivity|]. split; [reflexivity|].
  split; [rewrite T2, T1; reflexivity|]. split; [exact R2|].
  split; [now rewrite N2|]. split; [now rewrite Nodes2, N2, N1, K1|].
  split; [exact Hloop|]. split; [exact Hrec|].
  split; [rewrite number_of_edges_length; lia|].
  rewrite (@no_edges_count g1 (reachable_inv R1)) in Hcount
    by (intros a b; now rewrite H1).
  unfold py_range in Hcount. rewrite length_seq in Hcount. lia.
Qed.



(** ** The mixed scenario *)

Lemma filter_out_length (x : string) l :
  NoDup l -> In x l ->
  List.length (filter (fun y => negb (String.eqb y x)) l) =
  pred (List.length l).
Proof.
  induction 1 as [|a l Ha ND IH]; intros Hx; [destruct Hx|].
  cbn [filter List.length].
  destruct (String.eqb_spec a x) as [->|N]; cbn [negb].
  - clear IH Hx. cbn [pred].
    assert (F : forall m, ~ In x m ->
                filter (fun y => negb (String.eqb y x)) m = m).
    { induction m as [|b m IHm]; intros Hm; [reflexivity|].
      cbn [filter].
      destruct (String.eqb_spec b x) as [->|_]; cbn [negb].
      - exfalso. apply Hm. now left.
      - rewrite IHm; [reflexivity|]. intros H. apply Hm. now right. }
    now rewrite F.
  - destruct Hx as [->|Hx]; [congruence|].
    cbn [List.length]. rewrite (IH Hx).
    destruct l; [destruct Hx | reflexivity].
Qed.

Lemma outdegree_mono g g' s :
  graph_inv g -> graph_inv g' ->
  (forall b, has_edge s b (graph g) = true ->
             has_edge s b (graph g') = true) ->
  outdegree g s <= outdegree g' s.
Proof.
  intros I I' H. unfold outdegree. apply inj_le, NoDup_incl_length.
  - now apply successor_set_NoDup.
  - intros b Hb. apply (successor_set_In _ _ I').
    apply H. now apply (successor_set_In _ _ I).
Qed.

Lemma nodes_nonempty g l :
  keys (nodes g) = l -> l <> [] -> nodes g <> [].
Proof. intros <- H E. apply H. now rewrite E. Qed.



(** ** What the simulator rejects *)


